(** * Clawatch session connector: a shallow embedding and its properties

    The development follows the TypeScript sources of the plugin:
    - [config.ts]    session-key derivation and parsing,
    - [types.ts]     the frames exchanged with the cloud relay,
    - [connector.ts] [ClawatchConnector]: one WebSocket, handshake,
                     heartbeat, reconnect backoff,
    - [runtime.ts]   [createClawatchRuntime]: roster, session keys,
                     reply correlation, connect/disconnect lifecycle.

    JavaScript strings are held in [string] as the bytes of their UTF-8
    encoding (see "JavaScript strings" below), JavaScript numbers that the
    code only counts with or compares by [Z], objects held by reference
    (connectors, sockets) by indices into explicit stores. *)

From Stdlib Require Import ZArith Lia Bool Ascii.
From stdpp Require Import base option list strings gmap pretty.

Local Open Scope Z_scope.

(* ===================================================================== *)
(** * config.ts *)
(* ===================================================================== *)

Definition DEFAULT_SESSION_PREFIX : string := "clawatch:".
Definition DEFAULT_AGENT_ID : string := "main".
Definition PLUGIN_VERSION : string := "0.1.22".

(** [`${prefix}${imei}`] *)
Definition getSessionKey (prefix imei : string) : string := prefix +:+ imei.

(** The class [\d] of a regular expression without the [u] flag: the ten
    ASCII digits. *)
Definition is_digit (c : ascii) : bool :=
  let n := N_of_ascii c in ((48 <=? n) && (n <=? 57))%N.

Fixpoint all_digits (s : string) : bool :=
  match s with
  | EmptyString => true
  | String c s' => is_digit c && all_digits s'
  end.

(** Matching a literal at the current position: the rest of the input
    after the literal, if the input starts with it. *)
Fixpoint strip_prefix (lit s : string) : option string :=
  match lit, s with
  | EmptyString, _ => Some s
  | String a lit', String b s' =>
      if decide (a = b) then strip_prefix lit' s' else None
  | String _ _, EmptyString => None
  end.

(** [\d{15}$]: the rest of the input is exactly fifteen digits. *)
Definition fifteen_digits (s : string) : bool :=
  (String.length s =? 15)%nat && all_digits s.

(** [clawatch:(\d{15})$] from the current position, returning group 1. *)
Definition match_clawatch_imei (s : string) : option string :=
  match strip_prefix "clawatch:" s with
  | Some rest => if fifteen_digits rest then Some rest else None
  | None => None
  end.

(** [sessionKey.match(/^(?:session:)?clawatch:(\d{15})$/)], then [m[1]].
    The optional group is greedy: the matcher first consumes [session:]
    when it is there and backtracks to the empty alternative when the
    remainder does not match. *)
Definition parseImeiFromSessionKey (sessionKey : string) : option string :=
  match sessionKey with
  | EmptyString => None                       (* [!sessionKey] *)
  | _ =>
      match strip_prefix "session:" sessionKey with
      | Some rest =>
          match match_clawatch_imei rest with
          | Some i => Some i
          | None => match_clawatch_imei sessionKey
          end
      | None => match_clawatch_imei sessionKey
      end
  end.

(** A device reference: exactly fifteen ASCII digits ([/^\d{15}$/]). *)
Definition is_imei (s : string) : bool := fifteen_digits s.

(* ===================================================================== *)
(** * JavaScript strings *)
(* ===================================================================== *)

(** A string of the program is held as the bytes of its UTF-8 encoding; a
    lone surrogate, which a JavaScript string may hold, as the three bytes
    of its code point. Equality, concatenation (short of joining two lone
    surrogates into a pair) and the matching of ASCII text, digits and
    line feeds are on the bytes what they are on the string. What the
    program counts and cuts in UTF-16 code units ([length], [slice]) and
    the white space that [trim] removes are defined here. *)

(** A byte that continues a code point. *)
Definition is_continuation (c : ascii) : bool :=
  let n := N_of_ascii c in ((128 <=? n) && (n <? 192))%N.

(** The first byte of a code point above U+FFFF, which is two code units. *)
Definition is_lead4 (c : ascii) : bool := (240 <=? N_of_ascii c)%N.

(** [s.length] *)
Fixpoint utf16_length (s : string) : nat :=
  match s with
  | EmptyString => 0%nat
  | String c rest =>
      ((if is_continuation c then 0 else if is_lead4 c then 2 else 1)
       + utf16_length rest)%nat
  end.

(** The high surrogate of the code point that the four bytes encode, as
    the three bytes of its own code point. *)
Definition high_surrogate (b0 b1 b2 b3 : ascii) : string :=
  let cp := ((N_of_ascii b0 mod 8) * 262144 + (N_of_ascii b1 mod 64) * 4096
             + (N_of_ascii b2 mod 64) * 64 + N_of_ascii b3 mod 64)%N in
  let hi := (55296 + (cp - 65536) / 1024)%N in
  String (ascii_of_N 237)
    (String (ascii_of_N (128 + (hi / 64) mod 64))
       (String (ascii_of_N (128 + hi mod 64)) EmptyString)).

(** [s.slice(0, n)]: the first [n] code units. A code point above U+FFFF
    that straddles the cut leaves its high surrogate. *)
Fixpoint slice_units (n : nat) (s : string) : string :=
  match s with
  | EmptyString => EmptyString
  | String c rest =>
      if is_continuation c then String c (slice_units n rest)
      else
        match n with
        | O => EmptyString
        | S n' =>
            if is_lead4 c then
              match n' with
              | O =>
                  match rest with
                  | String b1 (String b2 (String b3 _)) => high_surrogate c b1 b2 b3
                  | _ => EmptyString
                  end
              | S n'' => String c (slice_units n'' rest)
              end
            else String c (slice_units n' rest)
        end
  end.

Definition bytes (l : list N) : string :=
  foldr (fun n s => String (ascii_of_N n) s) EmptyString l.

(** The code points that are WhiteSpace or LineTerminator, encoded: U+0009
    to U+000D, U+0020, U+00A0, U+1680, U+2000 to U+200A, U+2028, U+2029,
    U+202F, U+205F, U+3000 and U+FEFF. *)
Definition white_space : list string :=
  bytes <$>
    [[9]; [10]; [11]; [12]; [13]; [32]; [194; 160]; [225; 154; 128];
     [226; 128; 128]; [226; 128; 129]; [226; 128; 130]; [226; 128; 131];
     [226; 128; 132]; [226; 128; 133]; [226; 128; 134]; [226; 128; 135];
     [226; 128; 136]; [226; 128; 137]; [226; 128; 138]; [226; 128; 168];
     [226; 128; 169]; [226; 128; 175]; [226; 129; 159]; [227; 128; 128];
     [239; 187; 191]]%N.

(** The rest of [s] after one of the texts [encs], if [s] starts with
    one. *)
Definition strip_any (encs : list string) (s : string) : option string :=
  foldr (fun enc found =>
           match strip_prefix enc s with
           | Some rest => Some rest
           | None => found
           end) None encs.

(** [s] without the texts of [encs] it starts with, one after the other;
    [fuel] bounds their number. *)
Fixpoint strip_all (encs : list string) (fuel : nat) (s : string) : string :=
  match fuel with
  | O => s
  | S fuel' =>
      match strip_any encs s with
      | Some rest => strip_all encs fuel' rest
      | None => s
      end
  end.

Fixpoint rev_onto (s acc : string) : string :=
  match s with
  | EmptyString => acc
  | String c rest => rev_onto rest (String c acc)
  end.

Definition string_rev (s : string) : string := rev_onto s EmptyString.

(** [s.trimStart()], [s.trimEnd()] and [s.trim()] *)
Definition trim_start (s : string) : string :=
  strip_all white_space (String.length s) s.

Definition trim_end (s : string) : string :=
  string_rev (strip_all (string_rev <$> white_space) (String.length s) (string_rev s)).

Definition trim (s : string) : string := trim_end (trim_start s).

(** A string that is set and not empty, as [!x] and [x ? a : b] see it. *)
Definition truthy_string (x : option string) : option string :=
  match x with
  | Some s => if bool_decide (s = "") then None else Some s
  | None => None
  end.

(* ===================================================================== *)
(** * types.ts *)
(* ===================================================================== *)

(** JavaScript numbers that are only carried around. *)
Definition number : Type := Z.

Record WatchInfo := { wi_imei : string; wi_label : option string }.

Record Sample := { value : number; received_at : option number }.

Record HealthContext := {
  heart_rate : option Sample;
  temperature : option Sample;
  oxygen : option Sample;
  blood_pressure : option (number * number * option number) }.

(** Device context from the server; each part may be absent. *)
Record MessageContext := {
  location : option (number * number * option number);
  steps : option Sample;
  battery : option Sample;
  health : option HealthContext }.

(** The frames of the wire protocol, one constructor per frame type of
    [types.ts]; [OtherFrame] stands for a decoded JSON value whose [type]
    is none of them (or is missing). *)
Inductive Frame :=
| RegisterFrame (token client version : string)
| RegisteredFrame (watches : list WatchInfo)
| ErrorFrame (code : option string) (message : string) (id : option string)
| PingFrame
| PongFrame
| UnboundFrame (imei : string) (reason : option string)
| InboundMessageFrame (id imei text : string) (timestamp : option number)
    (isCommand : option bool) (context : option MessageContext)
| ReplyFrame (id text : string) (done : bool)
| ControlFrame (id action imei : string) (params : option (list (string * number)))
| ControlAckFrame (id : string) (ok : bool)
| PushFrame (id imei text : string)
| OtherFrame (type : option string).

(* ===================================================================== *)
(** * JavaScript values the code throws, and results of calls *)
(* ===================================================================== *)

(** What a [catch] clause or a rejection handler receives: an [Error]
    object, or some other value given by its [String(err)] rendering. *)
Inductive Thrown :=
| JsError (message : string) (stack : option string)
| JsOther (rendering : string).

(** [err instanceof Error ? err.message : String(err)] *)
Definition errMsg_of (err : Thrown) : string :=
  match err with
  | JsError m _ => m
  | JsOther r => r
  end.

(** [err instanceof Error ? err.stack : undefined] *)
Definition errStack_of (err : Thrown) : option string :=
  match err with
  | JsError _ st => st
  | JsOther _ => None
  end.

(** [String(err)] *)
Definition String_of (err : Thrown) : string :=
  match err with
  | JsError m _ => if bool_decide (m = "") then "Error" else "Error: " +:+ m
  | JsOther r => r
  end.

Inductive Result (A : Type) :=
| Returned (a : A)
| Threw (e : Thrown).
Arguments Returned {A} a.
Arguments Threw {A} e.

Inductive PromiseState :=
| Pending
| Fulfilled
| Rejected (reason : Thrown).

(* ===================================================================== *)
(** * connector.ts *)
(* ===================================================================== *)

(** [WebSocket.readyState] *)
Inductive ReadyState := CONNECTING | OPEN | CLOSING | CLOSED.

Global Instance ReadyState_eq_dec : EqDecision ReadyState.
Proof. solve_decision. Defined.

(** Everything one call of [connect()] creates: the socket (absent when the
    [WebSocket] constructor threw), the pending 15 s timer and the promise
    handed to the caller. *)
Record Attempt := {
  sock : option ReadyState;
  timeout : bool;
  promise : PromiseState }.

(** The callbacks of [ConnectorCallbacks], as invocations the connector
    makes on the object it was constructed with. *)
Inductive Callback :=
| onRegistered (watches : list WatchInfo)
| onError (code : option string) (message : string) (id : option string)
| onPong
| onUnbound (imei : string) (reason : option string)
| onDebug (msg : string) (args : list string)
| onMessage (id imei text : string) (timestamp : option number)
    (isCommand : option bool) (context : option MessageContext)
| onControlAck (id : string) (ok : bool).

(** What a connector method does to the world outside the connector
    object, in program order. *)
Inductive Effect :=
| Call (cb : Callback)                      (* an original callback runs *)
| WsSend (k : nat) (f : Frame)              (* [ws.send(JSON.stringify(f))] on socket [k] *)
| SetTimeout_onReconnect (delay : Z)        (* [setTimeout(onReconnect, delay)] *)
| Settled (k : nat) (st : PromiseState).    (* the promise of attempt [k] settles *)

Record ClawatchConnector := {
  ws : option nat;                 (* [this.ws]: the attempt whose socket it is *)
  token : string;
  url : string;
  has_onReconnect : bool;          (* optional callbacks that were supplied *)
  has_onDebug : bool;
  has_onControlAck : bool;
  wrappers : list nat;             (* attempts that wrapped onRegistered/onError, newest first *)
  pingInterval : bool;             (* an interval timer is set *)
  reconnectAttempts : Z;
  maxReconnectAttempts : Z;
  baseReconnectMs : Z;
  maxReconnectMs : Z;
  attempts : list Attempt }.

(** [new ClawatchConnector(url, token, callbacks)] *)
Definition new_ClawatchConnector (url token : string)
    (onReconnect onDebug onControlAck : bool) : ClawatchConnector :=
  {| ws := None; token := token; url := url;
     has_onReconnect := onReconnect; has_onDebug := onDebug;
     has_onControlAck := onControlAck; wrappers := [];
     pingInterval := false;
     reconnectAttempts := 0;
     maxReconnectAttempts := 0;
     baseReconnectMs := 1000;
     maxReconnectMs := 5 * 60 * 1000;
     attempts := [] |}.

Definition set_ws (v : option nat) (c : ClawatchConnector) : ClawatchConnector :=
  {| ws := v; token := token c; url := url c;
     has_onReconnect := has_onReconnect c; has_onDebug := has_onDebug c;
     has_onControlAck := has_onControlAck c; wrappers := wrappers c;
     pingInterval := pingInterval c;
     reconnectAttempts := reconnectAttempts c;
     maxReconnectAttempts := maxReconnectAttempts c;
     baseReconnectMs := baseReconnectMs c;
     maxReconnectMs := maxReconnectMs c;
     attempts := attempts c |}.

Definition set_wrappers (v : list nat) (c : ClawatchConnector) : ClawatchConnector :=
  {| ws := ws c; token := token c; url := url c;
     has_onReconnect := has_onReconnect c; has_onDebug := has_onDebug c;
     has_onControlAck := has_onControlAck c; wrappers := v;
     pingInterval := pingInterval c;
     reconnectAttempts := reconnectAttempts c;
     maxReconnectAttempts := maxReconnectAttempts c;
     baseReconnectMs := baseReconnectMs c;
     maxReconnectMs := maxReconnectMs c;
     attempts := attempts c |}.

Definition set_pingInterval (v : bool) (c : ClawatchConnector) : ClawatchConnector :=
  {| ws := ws c; token := token c; url := url c;
     has_onReconnect := has_onReconnect c; has_onDebug := has_onDebug c;
     has_onControlAck := has_onControlAck c; wrappers := wrappers c;
     pingInterval := v;
     reconnectAttempts := reconnectAttempts c;
     maxReconnectAttempts := maxReconnectAttempts c;
     baseReconnectMs := baseReconnectMs c;
     maxReconnectMs := maxReconnectMs c;
     attempts := attempts c |}.

Definition set_reconnectAttempts (v : Z) (c : ClawatchConnector) : ClawatchConnector :=
  {| ws := ws c; token := token c; url := url c;
     has_onReconnect := has_onReconnect c; has_onDebug := has_onDebug c;
     has_onControlAck := has_onControlAck c; wrappers := wrappers c;
     pingInterval := pingInterval c;
     reconnectAttempts := v;
     maxReconnectAttempts := maxReconnectAttempts c;
     baseReconnectMs := baseReconnectMs c;
     maxReconnectMs := maxReconnectMs c;
     attempts := attempts c |}.

Definition set_attempts (v : list Attempt) (c : ClawatchConnector) : ClawatchConnector :=
  {| ws := ws c; token := token c; url := url c;
     has_onReconnect := has_onReconnect c; has_onDebug := has_onDebug c;
     has_onControlAck := has_onControlAck c; wrappers := wrappers c;
     pingInterval := pingInterval c;
     reconnectAttempts := reconnectAttempts c;
     maxReconnectAttempts := maxReconnectAttempts c;
     baseReconnectMs := baseReconnectMs c;
     maxReconnectMs := maxReconnectMs c;
     attempts := v |}.

(** ** The connector monad: state, emitted effects, exceptions

    A method runs on the connector object, emits effects in program order
    and either returns or throws; what was done before a [throw] stays
    done. *)
Definition CM (A : Type) : Type :=
  ClawatchConnector -> Result A * ClawatchConnector * list Effect.

Definition cret {A} (a : A) : CM A := fun c => (Returned a, c, []).

Definition cbind {A B} (m : CM A) (f : A -> CM B) : CM B :=
  fun c =>
    match m c with
    | (Returned a, c1, e1) =>
        match f a c1 with
        | (r, c2, e2) => (r, c2, e1 ++ e2)
        end
    | (Threw err, c1, e1) => (Threw err, c1, e1)
    end.

Definition cthrow {A} (err : Thrown) : CM A := fun c => (Threw err, c, []).

(** [try { body } catch (err) { handler(err) }] *)
Definition ctry {A} (body : CM A) (handler : Thrown -> CM A) : CM A :=
  fun c =>
    match body c with
    | (Returned a, c1, e1) => (Returned a, c1, e1)
    | (Threw err, c1, e1) =>
        match handler err c1 with
        | (r, c2, e2) => (r, c2, e1 ++ e2)
        end
    end.

Definition cget : CM ClawatchConnector := fun c => (Returned c, c, []).
Definition cmodify (f : ClawatchConnector -> ClawatchConnector) : CM unit :=
  fun c => (Returned tt, f c, []).
Definition emit (e : Effect) : CM unit := fun c => (Returned tt, c, [e]).
Definition clift {A} (r : Result A) : CM A := fun c => (r, c, []).

Declare Scope cm_scope.
Delimit Scope cm_scope with cm.
Notation "x <- m ;; k" := (cbind m (fun x => k))
  (at level 100, m at next level, right associativity) : cm_scope.
Notation "m ;;; k" := (cbind m (fun _ => k))
  (at level 100, right associativity) : cm_scope.
Local Open Scope cm_scope.

Definition result_of {A} (x : Result A * ClawatchConnector * list Effect) : Result A :=
  x.1.1.
Definition state_of {A} (x : Result A * ClawatchConnector * list Effect)
  : ClawatchConnector := x.1.2.
Definition effects_of {A} (x : Result A * ClawatchConnector * list Effect)
  : list Effect := x.2.

(** ** Sockets and promises of the attempts *)

Definition set_sock (v : option ReadyState) (a : Attempt) : Attempt :=
  {| sock := v; timeout := timeout a; promise := promise a |}.
Definition set_timeout (v : bool) (a : Attempt) : Attempt :=
  {| sock := sock a; timeout := v; promise := promise a |}.
Definition set_promise (v : PromiseState) (a : Attempt) : Attempt :=
  {| sock := sock a; timeout := timeout a; promise := v |}.

Definition update_attempt (k : nat) (f : Attempt -> Attempt)
    (c : ClawatchConnector) : ClawatchConnector :=
  set_attempts (alter f k (attempts c)) c.

(** [readyState] of the socket of attempt [k]. *)
Definition sock_state (c : ClawatchConnector) (k : nat) : option ReadyState :=
  a ← attempts c !! k; sock a.

(** [this.ws?.readyState] *)
Definition ws_readyState (c : ClawatchConnector) : option ReadyState :=
  k ← ws c; sock_state c k.

(** [WebSocket.close()]: from CONNECTING or OPEN the socket starts closing,
    otherwise nothing happens. The call returns before the host dispatches
    any event of the closing; the events come through [deliver]. *)
Definition close_state (s : ReadyState) : ReadyState :=
  match s with
  | CONNECTING | OPEN => CLOSING
  | CLOSING => CLOSING
  | CLOSED => CLOSED
  end.

Definition ws_close (k : nat) : CM unit :=
  cmodify (update_attempt k (fun a => set_sock (close_state <$> sock a) a)).

(** [clearTimeout(timeout)] of attempt [k]. *)
Definition clearTimeout (k : nat) : CM unit :=
  cmodify (update_attempt k (set_timeout false)).

(** [resolve()] / [reject(err)] of attempt [k]: only a pending promise
    settles. *)
Definition settle (k : nat) (st : PromiseState) : CM unit :=
  c <- cget ;;
  match promise <$> attempts c !! k with
  | Some Pending => cmodify (update_attempt k (set_promise st)) ;;; emit (Settled k st)
  | _ => cret tt
  end.

Definition resolve (k : nat) : CM unit := settle k Fulfilled.
Definition reject (k : nat) (err : Thrown) : CM unit := settle k (Rejected err).

(** ** Methods *)

(** [send(frame)] *)
Definition send (frame : Frame) : CM unit :=
  c <- cget ;;
  match ws c with
  | Some k =>
      if decide (sock_state c k = Some OPEN) then emit (WsSend k frame) else cret tt
  | None => cret tt
  end.

(** [stopPing()] *)
Definition stopPing : CM unit :=
  c <- cget ;;
  if pingInterval c then cmodify (set_pingInterval false) else cret tt.

(** [startPing()] *)
Definition startPing : CM unit :=
  stopPing ;;; cmodify (set_pingInterval true).

(** The interval callback set by [startPing]. *)
Definition ping_tick : CM unit :=
  c <- cget ;;
  if decide (ws_readyState c = Some OPEN) then send PingFrame else cret tt.

(** [disconnect()] *)
Definition Connector_disconnect : CM unit :=
  stopPing ;;;
  c <- cget ;;
  match ws c with
  | Some k => ws_close k ;;; cmodify (set_ws None)
  | None => cret tt
  end.

(** [isConnected()]:
    [(this.ws?.readyState ?? WebSocket.CLOSED) === WebSocket.OPEN] *)
Definition Connector_isConnected (c : ClawatchConnector) : bool :=
  bool_decide (default CLOSED (ws_readyState c) = OPEN).

(** [Math.min(base * Math.pow(2, attempts), max)]. The doubles involved
    are exact integers until the product overflows to [Infinity], where
    the minimum is [max] as it is for the exact product. *)
Definition reconnect_delay (c : ClawatchConnector) : Z :=
  Z.min (baseReconnectMs c * 2 ^ reconnectAttempts c) (maxReconnectMs c).

(** [scheduleReconnect(onReconnect)] *)
Definition scheduleReconnect : CM unit :=
  c <- cget ;;
  if (0 <? maxReconnectAttempts c) && (maxReconnectAttempts c <=? reconnectAttempts c)
  then cret tt
  else
    let delay := reconnect_delay c in
    cmodify (set_reconnectAttempts (reconnectAttempts c + 1)) ;;;
    emit (SetTimeout_onReconnect delay).

(** [code === "invalid_token" || code === "unauthorized"] *)
Definition fatal_code (code : option string) : bool :=
  bool_decide (code = Some "invalid_token") || bool_decide (code = Some "unauthorized").

(** [this.callbacks.onRegistered(watches)] after the attempts in [ks]
    (newest first) have each wrapped the callback. *)
Fixpoint callbacks_onRegistered (ks : list nat) (watches : list WatchInfo) : CM unit :=
  match ks with
  | [] => emit (Call (onRegistered watches))
  | k :: older =>
      clearTimeout k ;;;
      startPing ;;;
      callbacks_onRegistered older watches ;;;
      resolve k
  end.

(** [this.callbacks.onError(code, message, id)], wrapped likewise. *)
Fixpoint callbacks_onError (ks : list nat) (code : option string)
    (message : string) (id : option string) : CM unit :=
  match ks with
  | [] => emit (Call (onError code message id))
  | k :: older =>
      clearTimeout k ;;;
      callbacks_onError older code message id ;;;
      if fatal_code code then reject k (JsError message None) else cret tt
  end.

(** [(f.text ?? "").slice(0, 50)] and the like. *)
Definition slice_0_50 (s : string) : string := slice_units 50 s.

(** [handleFrame(frame)] *)
Definition handleFrame (frame : Frame) : CM unit :=
  c <- cget ;;
  match frame with
  | RegisteredFrame watches => callbacks_onRegistered (wrappers c) watches
  | ErrorFrame code message id => callbacks_onError (wrappers c) code message id
  | PongFrame => emit (Call onPong)
  | UnboundFrame imei reason => emit (Call (onUnbound imei reason))
  | InboundMessageFrame id imei text timestamp isCommand context =>
      (if has_onDebug c
       then emit (Call (onDebug "Clawatch received message: id=%s imei=%s text=%s"
                                [id; imei; slice_0_50 text]))
       else cret tt) ;;;
      emit (Call (onMessage id imei text timestamp isCommand context))
  | ControlAckFrame id ok =>
      if has_onControlAck c then emit (Call (onControlAck id ok)) else cret tt
  | RegisterFrame _ _ _ => 
      if has_onDebug c
      then emit (Call (onDebug "Clawatch unknown frame type: %s" ["register"]))
      else cret tt
  | PingFrame =>
      if has_onDebug c
      then emit (Call (onDebug "Clawatch unknown frame type: %s" ["ping"]))
      else cret tt
  | ReplyFrame _ _ _ =>
      if has_onDebug c
      then emit (Call (onDebug "Clawatch unknown frame type: %s" ["reply"]))
      else cret tt
  | ControlFrame _ _ _ _ =>
      if has_onDebug c
      then emit (Call (onDebug "Clawatch unknown frame type: %s" ["control"]))
      else cret tt
  | PushFrame _ _ _ =>
      if has_onDebug c
      then emit (Call (onDebug "Clawatch unknown frame type: %s" ["push"]))
      else cret tt
  | OtherFrame type =>
      if has_onDebug c
      then emit (Call (onDebug "Clawatch unknown frame type: %s"
                               [default "undefined" type]))
      else cret tt
  end.

(** ** The platform under the connector

    [JSON.parse] and the [WebSocket] constructor belong to the JavaScript
    host; both may throw. [JSON_stringify_watches] is [JSON.stringify] on
    the roster, used for a log line only. *)
Class Platform := {
  JSON_parse : string -> Result Frame;
  WebSocket_new : string -> Result unit;
  JSON_stringify_watches : list WatchInfo -> string }.

Section Connector.
Context `{Platform}.

(** [connect()]: the executor of the returned promise runs at once. The
    result is the index of the new attempt, which names the promise. *)
Definition connect : CM nat :=
  c <- cget ;;
  let k := length (attempts c) in
  match WebSocket_new (url c) with
  | Threw err =>
      cmodify (set_attempts
        (attempts c ++ [{| sock := None; timeout := false; promise := Pending |}])) ;;;
      reject k err ;;;
      cret k
  | Returned _ =>
      cmodify (fun c =>
        set_wrappers (k :: wrappers c)
          (set_ws (Some k)
            (set_attempts
              (attempts c ++ [{| sock := Some CONNECTING; timeout := true;
                                 promise := Pending |}]) c))) ;;;
      cret k
  end.

(** The callback of the 15 s timer of attempt [k]. *)
Definition connect_timeout (k : nat) : CM unit :=
  c <- cget ;;
  if decide (ws_readyState c = Some CONNECTING)
  then
    match ws c with Some j => ws_close j | None => cret tt end ;;;
    reject k (JsError "WebSocket connection timeout" None)
  else cret tt.

(** [ws.onopen] of attempt [k] *)
Definition onopen (k : nat) : CM unit :=
  clearTimeout k ;;;
  cmodify (set_reconnectAttempts 0) ;;;
  c <- cget ;;
  send (RegisterFrame (token c) "openclaw-clawatch" PLUGIN_VERSION).

(** [ws.onmessage] of attempt [k] *)
Definition onmessage (k : nat) (data : string) : CM unit :=
  ctry
    (frame <- clift (JSON_parse data) ;;
     handleFrame frame)
    (fun _ =>
       c <- cget ;;
       callbacks_onError (wrappers c) (Some "invalid_frame")
         "Invalid JSON from server" None).

(** [ws.onclose] of attempt [k] *)
Definition onclose (k : nat) : CM unit :=
  stopPing ;;;
  cmodify (set_ws None) ;;;
  c <- cget ;;
  if has_onReconnect c then scheduleReconnect else cret tt.

(** [ws.onerror] of attempt [k] *)
Definition onerror (k : nat) : CM unit :=
  clearTimeout k ;;;
  reject k (JsError "WebSocket error" None).

(** ** What the host delivers to a connector

    The host changes [readyState] before it fires the event: OPEN at
    an open event, CLOSED at an error or a close event (the order in
    which the WebSocket interface of the HTML standard does it; what the
    handlers themselves do in another ready state is stated about
    [onerror], [onclose] and [connect_timeout]). An open event comes only to
    a connecting socket, a message only to an open one, a timer callback
    only while its timer is set. *)
Inductive SocketEvent :=
| ev_open (k : nat)
| ev_message (k : nat) (data : string)
| ev_close (k : nat)
| ev_error (k : nat)
| ev_timeout (k : nat)
| ev_ping.

Definition set_sock_state (k : nat) (s : ReadyState) : CM unit :=
  cmodify (update_attempt k (fun a => set_sock (Some s) a)).

Definition deliver (e : SocketEvent) : CM unit :=
  c <- cget ;;
  match e with
  | ev_open k =>
      if decide (sock_state c k = Some CONNECTING)
      then set_sock_state k OPEN ;;; onopen k
      else cret tt
  | ev_message k data =>
      if decide (sock_state c k = Some OPEN) then onmessage k data else cret tt
  | ev_close k =>
      if decide (is_Some (sock_state c k))
      then set_sock_state k CLOSED ;;; onclose k
      else cret tt
  | ev_error k =>
      if decide (is_Some (sock_state c k))
      then set_sock_state k CLOSED ;;; onerror k
      else cret tt
  | ev_timeout k =>
      if decide (timeout <$> attempts c !! k = Some true)
      then cmodify (update_attempt k (set_timeout false)) ;;; connect_timeout k
      else cret tt
  | ev_ping => if pingInterval c then ping_tick else cret tt
  end.

(** Everything that can happen to a connector: an event from the host,
    or a call of one of its public methods. *)
Inductive Stimulus :=
| host (e : SocketEvent)
| call_connect
| call_disconnect
| call_send (frame : Frame)
| call_scheduleReconnect.

Definition react (s : Stimulus) : CM unit :=
  match s with
  | host e => deliver e
  | call_connect => connect ;;; cret tt
  | call_disconnect => Connector_disconnect
  | call_send frame => send frame
  | call_scheduleReconnect => scheduleReconnect
  end.

(** The connector after a sequence of stimuli. *)
Definition react_all (ss : list Stimulus) (c : ClawatchConnector) : ClawatchConnector :=
  foldl (fun c s => state_of (react s c)) c ss.

End Connector.

(* ===================================================================== *)
(** * runtime.ts *)
(* ===================================================================== *)

Record ClawatchConfig := {
  enabled : option bool;
  apiUrl : string;
  deviceCode : option string;
  apiToken : option string;
  agentId : option string;
  sessionKeyPrefix : option string;
  ttsSystemPrompt : option string;
  interimStatusEnabled : option bool }.

(** A call of [callbacks.logger.info] or [.error]: the message and the
    further arguments ([None] for [undefined]). *)
Inductive LogEntry :=
| info (msg : string) (args : list (option string))
| error (msg : string) (args : list (option string)).

(** A call of the injected [onInboundMessage]; the promise it returns is
    settled later by the host. [hc_msgId] is also the [id] the two
    continuations close over. *)
Record HandlerCall := {
  hc_msgId : string;
  hc_imei : string;
  hc_text : string;
  hc_sessionKey : string;
  hc_context : option MessageContext }.

(** The three callbacks the code passes to [setTimeout] at runtime level. *)
Inductive TimerCallback :=
| cb_onReconnect          (* [attemptReconnect], set by [scheduleReconnect] *)
| cb_manual_reconnect     (* the fallback in [doConnect]'s catch block *)
| cb_retry_reconnect.     (* the retry in [attemptReconnect]'s catch handler *)

Record Timer := { delay : Z; callback : TimerCallback }.

(** Who called [doConnect()] and holds its promise. *)
Inductive Origin := from_connect | from_attemptReconnect.

(** The variables closed over by [createClawatchRuntime], the connector
    objects, and what the runtime has done to its surroundings:
    - [connector]: [let connector], a reference into [heap];
    - [heap]: every connector constructed so far;
    - [wire]: the frames put on sockets (connector, attempt, frame);
    - [logs]: the calls of [callbacks.logger];
    - [handlerCalls]: the calls of [callbacks.onInboundMessage];
    - [timers]: the pending [setTimeout] callbacks;
    - [outcomes]: how the promises of the API [connect()] settled. *)
Record World := {
  connector : option nat;
  pairedWatches : list WatchInfo;
  disconnecting : bool;
  sessionKeyToImei : gmap string string;
  config : ClawatchConfig;
  heap : list (ClawatchConnector * Origin);
  wire : list (nat * nat * Frame);
  logs : list LogEntry;
  handlerCalls : list HandlerCall;
  timers : list Timer;
  outcomes : list (Result unit) }.

Definition set_connector (v : option nat) (w : World) : World :=
  {| connector := v;
     pairedWatches := pairedWatches w;
     disconnecting := disconnecting w;
     sessionKeyToImei := sessionKeyToImei w;
     config := config w;
     heap := heap w;
     wire := wire w;
     logs := logs w;
     handlerCalls := handlerCalls w;
     timers := timers w;
     outcomes := outcomes w |}.

Definition set_pairedWatches (v : list WatchInfo) (w : World) : World :=
  {| connector := connector w;
     pairedWatches := v;
     disconnecting := disconnecting w;
     sessionKeyToImei := sessionKeyToImei w;
     config := config w;
     heap := heap w;
     wire := wire w;
     logs := logs w;
     handlerCalls := handlerCalls w;
     timers := timers w;
     outcomes := outcomes w |}.

Definition set_disconnecting (v : bool) (w : World) : World :=
  {| connector := connector w;
     pairedWatches := pairedWatches w;
     disconnecting := v;
     sessionKeyToImei := sessionKeyToImei w;
     config := config w;
     heap := heap w;
     wire := wire w;
     logs := logs w;
     handlerCalls := handlerCalls w;
     timers := timers w;
     outcomes := outcomes w |}.

Definition set_sessionKeyToImei (v : gmap string string) (w : World) : World :=
  {| connector := connector w;
     pairedWatches := pairedWatches w;
     disconnecting := disconnecting w;
     sessionKeyToImei := v;
     config := config w;
     heap := heap w;
     wire := wire w;
     logs := logs w;
     handlerCalls := handlerCalls w;
     timers := timers w;
     outcomes := outcomes w |}.

Definition set_heap (v : list (ClawatchConnector * Origin)) (w : World) : World :=
  {| connector := connector w;
     pairedWatches := pairedWatches w;
     disconnecting := disconnecting w;
     sessionKeyToImei := sessionKeyToImei w;
     config := config w;
     heap := v;
     wire := wire w;
     logs := logs w;
     handlerCalls := handlerCalls w;
     timers := timers w;
     outcomes := outcomes w |}.

Definition set_wire (v : list (nat * nat * Frame)) (w : World) : World :=
  {| connector := connector w;
     pairedWatches := pairedWatches w;
     disconnecting := disconnecting w;
     sessionKeyToImei := sessionKeyToImei w;
     config := config w;
     heap := heap w;
     wire := v;
     logs := logs w;
     handlerCalls := handlerCalls w;
     timers := timers w;
     outcomes := outcomes w |}.

Definition set_logs (v : list LogEntry) (w : World) : World :=
  {| connector := connector w;
     pairedWatches := pairedWatches w;
     disconnecting := disconnecting w;
     sessionKeyToImei := sessionKeyToImei w;
     config := config w;
     heap := heap w;
     wire := wire w;
     logs := v;
     handlerCalls := handlerCalls w;
     timers := timers w;
     outcomes := outcomes w |}.

Definition set_handlerCalls (v : list HandlerCall) (w : World) : World :=
  {| connector := connector w;
     pairedWatches := pairedWatches w;
     disconnecting := disconnecting w;
     sessionKeyToImei := sessionKeyToImei w;
     config := config w;
     heap := heap w;
     wire := wire w;
     logs := logs w;
     handlerCalls := v;
     timers := timers w;
     outcomes := outcomes w |}.

Definition set_timers (v : list Timer) (w : World) : World :=
  {| connector := connector w;
     pairedWatches := pairedWatches w;
     disconnecting := disconnecting w;
     sessionKeyToImei := sessionKeyToImei w;
     config := config w;
     heap := heap w;
     wire := wire w;
     logs := logs w;
     handlerCalls := handlerCalls w;
     timers := v;
     outcomes := outcomes w |}.

Definition set_outcomes (v : list (Result unit)) (w : World) : World :=
  {| connector := connector w;
     pairedWatches := pairedWatches w;
     disconnecting := disconnecting w;
     sessionKeyToImei := sessionKeyToImei w;
     config := config w;
     heap := heap w;
     wire := wire w;
     logs := logs w;
     handlerCalls := handlerCalls w;
     timers := timers w;
     outcomes := v |}.


(** [createClawatchRuntime(config, callbacks)] before any call. *)
Definition createClawatchRuntime (cfg : ClawatchConfig) : World :=
  {| connector := None; pairedWatches := []; disconnecting := false;
     sessionKeyToImei := ∅; config := cfg; heap := []; wire := [];
     logs := []; handlerCalls := []; timers := []; outcomes := [] |}.

(** [config.apiUrl.replace(/^http/, "ws")] *)
Definition wsUrl (cfg : ClawatchConfig) : string :=
  match strip_prefix "http" (apiUrl cfg) with
  | Some rest => "ws" +:+ rest
  | None => apiUrl cfg
  end.

Definition log (e : LogEntry) (w : World) : World := set_logs (logs w ++ [e]) w.

Definition add_timer (t : Timer) (w : World) : World :=
  set_timers (timers w ++ [t]) w.

(** [connector?.isConnected() ?? false], which is also the truth value of
    [connector?.isConnected()]. *)
Definition isConnected (w : World) : bool :=
  match connector w with
  | Some c =>
      match heap w !! c with
      | Some (cn, _) => Connector_isConnected cn
      | None => false
      end
  | None => false
  end.

(** The rejection of [doConnect()]'s promise reaches its caller: the
    [.catch] handler in [attemptReconnect], or whoever called the API
    [connect()]. *)
Definition doConnect_rejected (o : Origin) (err : Thrown) (w : World) : World :=
  match o with
  | from_attemptReconnect =>
      let w1 := log (error "Clawatch reconnect failed: %s" [Some (String_of err)]) w in
      if disconnecting w1 then w1
      else add_timer {| delay := 2000; callback := cb_retry_reconnect |} w1
  | from_connect => set_outcomes (outcomes w ++ [Threw err]) w
  end.

(** [doConnect] after [await connector.connect()], for the promise of the
    first attempt of connector [c], the one [doConnect] awaits. *)
Definition connect_settled (c k : nat) (st : PromiseState) (w : World) : World :=
  match k, heap w !! c with
  | O, Some (_, o) =>
      match st with
      | Pending => w
      | Fulfilled =>
          match o with
          | from_connect => set_outcomes (outcomes w ++ [Returned tt]) w
          | from_attemptReconnect => w
          end
      | Rejected err =>
          let w1 := log (error "Clawatch connect() rejected: %s" [Some (String_of err)]) w in
          let w2 :=
            if negb (disconnecting w1) && bool_decide (is_Some (connector w1))
            then add_timer {| delay := 1000; callback := cb_manual_reconnect |} w1
            else w1 in
          doConnect_rejected o err w2
      end
  | _, _ => w
  end.

Section Runtime.
Context `{Platform}.

(** [handleInboundMessage]: up to and including the call of the injected
    handler. *)
Definition handleInboundMessage (id imei text : string)
    (_timestamp : option number) (_isCommand : option bool)
    (context : option MessageContext) (w : World) : World :=
  let w1 := log (info ("Clawatch inbound: imei=" +:+ imei +:+ " text=" +:+ slice_0_50 text) []) w in
  let sessionKey := getSessionKey (default "watch:" (sessionKeyPrefix (config w1))) imei in
  let w2 := set_sessionKeyToImei (<[sessionKey := imei]> (sessionKeyToImei w1)) w1 in
  let w3 := set_sessionKeyToImei
              (<["session:" +:+ sessionKey := imei]> (sessionKeyToImei w2)) w2 in
  set_handlerCalls
    (handlerCalls w3 ++
       [{| hc_msgId := id; hc_imei := imei; hc_text := text;
           hc_sessionKey := sessionKey; hc_context := context |}]) w3.

(** The object [connectorCallbacks]. The runtime passes no [onControlAck]. *)
Definition connectorCallbacks (cb : Callback) (w : World) : World :=
  match cb with
  | onDebug msg args => log (info msg (Some <$> args)) w
  | onRegistered watches =>
      let w1 := set_pairedWatches
                  ((fun x => {| wi_imei := wi_imei x; wi_label := wi_label x |}) <$> watches) w in
      log (info ("Clawatch registered, watches: "
                 +:+ JSON_stringify_watches (pairedWatches w1)) []) w1
  | onError code message _ =>
      log (error ("Clawatch error [" +:+ default "" code +:+ "]: " +:+ message) []) w
  | onPong => w
  | onUnbound imei reason =>
      let w1 := set_pairedWatches
                  (filter (fun x => wi_imei x ≠ imei) (pairedWatches w)) w in
      log (info ("Watch unbound: imei=" +:+ imei +:+ " reason=" +:+ default "" reason) []) w1
  | onMessage id imei text timestamp isCommand context =>
      handleInboundMessage id imei text timestamp isCommand context w
  | onControlAck _ _ => w
  end.

(** The effects of a method of connector [c], carried out in order. *)
Definition run_effect (c : nat) (e : Effect) (w : World) : World :=
  match e with
  | Call cb => connectorCallbacks cb w
  | WsSend k f => set_wire (wire w ++ [(c, k, f)]) w
  | SetTimeout_onReconnect d => add_timer {| delay := d; callback := cb_onReconnect |} w
  | Settled k st => connect_settled c k st w
  end.

Definition run_effects (c : nat) (es : list Effect) (w : World) : World :=
  foldl (fun w e => run_effect c e w) w es.

Global Arguments run_effects : simpl never.

(** A method call on the connector object at [c]. *)
Definition on_connector {A} (c : nat) (m : CM A) (w : World) : option (Result A) * World :=
  match heap w !! c with
  | Some (cn, o) =>
      match m cn with
      | (r, cn', es) => (Some r, run_effects c es (set_heap (<[c := (cn', o)]> (heap w)) w))
      end
  | None => (None, w)
  end.

(** [connector?.send(frame)] *)
Definition connector_send (frame : Frame) (w : World) : World :=
  match connector w with
  | Some c => (on_connector c (send frame) w).2
  | None => w
  end.

(** The [.then] continuation of [handleInboundMessage] for the call [hc]. *)
Definition handler_then (hc : HandlerCall) (replyText : string) (w : World) : World :=
  let w1 := log (info ("Clawatch sending reply: id=" +:+ hc_msgId hc +:+ " imei="
                       +:+ hc_imei hc +:+ " text=" +:+ slice_0_50 replyText) []) w in
  connector_send (ReplyFrame (hc_msgId hc) replyText true) w1.

(** The [.catch] continuation of [handleInboundMessage] for the call [hc]. *)
Definition handler_catch (hc : HandlerCall) (err : Thrown) (w : World) : World :=
  let errMsg := errMsg_of err in
  let errStack := errStack_of err in
  let w1 := log (error ("Clawatch message error: " +:+ errMsg) [errStack]) w in
  connector_send (ErrorFrame (Some "agent_error") errMsg (Some (hc_msgId hc))) w1.

(** [doConnect()], called on behalf of [o]. *)
Definition doConnect (o : Origin) (w : World) : World :=
  match truthy_string (apiToken (config w)) with     (* [!config.apiToken] *)
  | None =>
      let w1 := log (error "Clawatch: no apiToken, login first" []) w in
      doConnect_rejected o
        (JsError "No apiToken. Run: openclaw clawatch login <countryCode> <phoneNumber>" None)
        w1
  | Some tok =>
      let c := length (heap w) in
      let w1 := set_heap (heap w ++ [(new_ClawatchConnector (wsUrl (config w)) tok true true false, o)]) w in
      let w2 := set_connector (Some c) w1 in
      (on_connector c connect w2).2
  end.

(** [attemptReconnect()], the reconnect hook given to every connector. *)
Definition attemptReconnect (w : World) : World :=
  if disconnecting w then w
  else
    let w1 := set_connector None w in
    let w2 := log (info "Clawatch: reconnecting after disconnect..." []) w1 in
    doConnect from_attemptReconnect w2.

(** The callback of the 1 s timer set in [doConnect]'s catch block. *)
Definition manual_reconnect (w : World) : World :=
  if negb (disconnecting w) && bool_decide (is_Some (connector w)) && negb (isConnected w)
  then attemptReconnect (log (info "Clawatch: manual reconnect after connect() failure" []) w)
  else w.

(** The callback of the 2 s timer set in [attemptReconnect]'s handler. *)
Definition retry_reconnect (w : World) : World :=
  if negb (disconnecting w) then attemptReconnect w else w.

Definition run_timer (cb : TimerCallback) (w : World) : World :=
  match cb with
  | cb_onReconnect => attemptReconnect w
  | cb_manual_reconnect => manual_reconnect w
  | cb_retry_reconnect => retry_reconnect w
  end.

(** ** The object returned by [createClawatchRuntime] *)

(** [connect()] *)
Definition Runtime_connect (w : World) : World :=
  doConnect from_connect (set_disconnecting false w).

(** [disconnect()] *)
Definition disconnect (w : World) : Result unit * World :=
  let w1 := set_disconnecting true w in
  let w2 := match connector w1 with
            | Some c => (on_connector c Connector_disconnect w1).2
            | None => w1
            end in
  let w3 := set_connector None w2 in
  let w4 := set_pairedWatches [] w3 in
  (Returned tt, set_sessionKeyToImei ∅ w4).

(** [getPairedWatches()] *)
Definition getPairedWatches (w : World) : list WatchInfo := pairedWatches w.

(** [sendReply(id, text, done)] *)
Definition sendReply (id text : string) (done : bool) (w : World) : World :=
  connector_send (ReplyFrame id text done) w.

(** [`${tag}-${Date.now()}-${Math.random().toString(36).slice(2, 9)}`]:
    [now] is the clock reading and [rnd] the base-36 rendering of the
    random draw. *)
Definition fresh_id (tag : string) (now : Z) (rnd : string) : string :=
  tag +:+ "-" +:+ pretty now +:+ "-" +:+ String.substring 2 7 rnd.

(** [sendControl(params)]: the promise of this [async] function; it is
    fulfilled when the body returns. *)
Definition sendControl (now : Z) (rnd : string) (action imei : string)
    (params : option (list (string * number))) (w : World) : Result unit * World :=
  let id := fresh_id "ctrl" now rnd in
  (Returned tt, connector_send (ControlFrame id action imei params) w).

(** [sendPush(imei, text)] *)
Definition sendPush (now : Z) (rnd : string) (imei text : string) (w : World)
  : Result unit * World :=
  if negb (isConnected w) then (Threw (JsError "Clawatch not connected" None), w)
  else
    let paired := existsb (fun x => bool_decide (wi_imei x = imei)) (pairedWatches w) in
    if negb paired then (Threw (JsError ("IMEI " +:+ imei +:+ " not paired") None), w)
    else
      let id := fresh_id "push" now rnd in
      (Returned tt, connector_send (PushFrame id imei text) w).

(** [getImeiFromSessionKey(sessionKey)] *)
Definition getImeiFromSessionKey (sessionKey : string) (w : World) : option string :=
  sessionKeyToImei w !! sessionKey.

(** ** Everything that can happen to a runtime *)
Inductive Event :=
| api_connect
| api_disconnect
| api_sendReply (id text : string) (done : bool)
| api_sendControl (now : Z) (rnd action imei : string)
    (params : option (list (string * number)))
| api_sendPush (now : Z) (rnd imei text : string)
| socket (c : nat) (e : SocketEvent)             (* the host, on a socket of connector [c] *)
| timer_fires (n : nat)                          (* the [n]-th pending timer *)
| handler_resolves (n : nat) (replyText : string)  (* the promise of the [n]-th handler call *)
| handler_rejects (n : nat) (err : Thrown).

Definition step (ev : Event) (w : World) : World :=
  match ev with
  | api_connect => Runtime_connect w
  | api_disconnect => (disconnect w).2
  | api_sendReply id text done => sendReply id text done w
  | api_sendControl now rnd action imei params =>
      (sendControl now rnd action imei params w).2
  | api_sendPush now rnd imei text => (sendPush now rnd imei text w).2
  | socket c e => (on_connector c (deliver e) w).2
  | timer_fires n =>
      match timers w !! n with
      | Some t => run_timer (callback t) (set_timers (delete n (timers w)) w)
      | None => w
      end
  | handler_resolves n replyText =>
      match handlerCalls w !! n with
      | Some hc => handler_then hc replyText w
      | None => w
      end
  | handler_rejects n err =>
      match handlerCalls w !! n with
      | Some hc => handler_catch hc err w
      | None => w
      end
  end.

Definition run (evs : list Event) (w : World) : World :=
  foldl (fun w ev => step ev w) w evs.

End Runtime.


(* ===================================================================== *)
(** * Notions used to state the properties *)
(* ===================================================================== *)

(** A method leaves the part [f] of the connector as it was. *)
Definition keeps {A B} (f : ClawatchConnector -> B) (m : CM A) : Prop :=
  forall c, f (state_of (m c)) = f c.

(** The part of a connector that decides the backoff. *)
Definition backoff_fields (c : ClawatchConnector) : Z * Z * Z * Z * bool :=
  (reconnectAttempts c, maxReconnectAttempts c, baseReconnectMs c,
   maxReconnectMs c, has_onReconnect c).

(** The class fields that the constructor sets and no method assigns. *)
Definition constructed (c : ClawatchConnector) : Prop :=
  maxReconnectAttempts c = 0 /\ baseReconnectMs c = 1000 /\
  maxReconnectMs c = 5 * 60 * 1000.

(** The delays of the reconnect timers among the effects of a method. *)
Definition scheduled_delays (es : list Effect) : list Z :=
  omap (fun e => match e with SetTimeout_onReconnect d => Some d | _ => None end) es.

(** The delays scheduled by consecutive close events, on the sockets of
    the attempts [ks]. *)
Fixpoint close_delays (ks : list nat) (c : ClawatchConnector) : list Z :=
  match ks with
  | [] => []
  | k :: ks' =>
      let r := onclose k c in
      scheduled_delays (effects_of r) ++ close_delays ks' (state_of r)
  end.

(** The connector after it has handled the frames [fs]. *)
Definition after_frames (fs : list Frame) (c : ClawatchConnector) : ClawatchConnector :=
  foldl (fun c f => state_of (handleFrame f c)) c fs.

(** The schedule in the words of the specification: base (1 s) times
    [2^attempt], capped at max (5 min). *)
Definition backoff_schedule (n : nat) : Z := Z.min (1000 * 2 ^ Z.of_nat n) 300000.

(** The connector with the connect timers of the attempts [ks] cleared. *)
Definition clear_timeouts (ks : list nat) (c : ClawatchConnector) : ClawatchConnector :=
  foldl (fun c k => update_attempt k (set_timeout false) c) c ks.

(** What a connector shows of its transport: the handle, the sockets, the
    promises and the heartbeat timer. *)
Definition transport_view (c : ClawatchConnector)
  : option nat * list (option ReadyState) * list PromiseState * bool :=
  (ws c, sock <$> attempts c, promise <$> attempts c, pingInterval c).

(** ** A host to run examples on

    Wire texts are built with [dq] for the double-quote character. *)
Definition dq : string := String (ascii_of_nat 34) "".

Definition json_member (key val : string) : string :=
  dq +:+ key +:+ dq +:+ ":" +:+ dq +:+ val +:+ dq.

Definition sample_imei : string := "860000035452456".

(** [{"type":"registered","watches":[{"imei":"860000035452456"}]}] *)
Definition registered_text : string :=
  "{" +:+ json_member "type" "registered" +:+ "," +:+ dq +:+ "watches" +:+ dq
  +:+ ":[{" +:+ json_member "imei" sample_imei +:+ "}]}".

(** [{"type":"unbound","imei":"860000035452456"}] *)
Definition unbound_text : string :=
  "{" +:+ json_member "type" "unbound" +:+ "," +:+ json_member "imei" sample_imei +:+ "}".

(** [{"type":"message","id":"m1","imei":"860000035452456","text":"hello"}] *)
Definition message_text : string :=
  "{" +:+ json_member "type" "message" +:+ "," +:+ json_member "id" "m1" +:+ ","
  +:+ json_member "imei" sample_imei +:+ "," +:+ json_member "text" "hello" +:+ "}".

(** [{"type":"error","code":"rate_limited","message":"slow down"}] *)
Definition error_text : string :=
  "{" +:+ json_member "type" "error" +:+ "," +:+ json_member "code" "rate_limited"
  +:+ "," +:+ json_member "message" "slow down" +:+ "}".

(** A host whose [JSON.parse] knows the four texts above and throws a
    [SyntaxError] on anything else, and whose [WebSocket] constructor
    accepts the URLs that start with [ws]. *)
Definition sample_platform : Platform :=
  {| JSON_parse data :=
       if decide (data = registered_text)
       then Returned (RegisteredFrame [{| wi_imei := sample_imei; wi_label := None |}])
       else if decide (data = unbound_text)
       then Returned (UnboundFrame sample_imei None)
       else if decide (data = message_text)
       then Returned (InboundMessageFrame "m1" sample_imei "hello" None None None)
       else if decide (data = error_text)
       then Returned (ErrorFrame (Some "rate_limited") "slow down" None)
       else Threw (JsError "Unexpected token in JSON" None);
     WebSocket_new u :=
       match strip_prefix "ws" u with
       | Some _ => Returned tt
       | None => Threw (JsError "Invalid URL" None)
       end;
     JSON_stringify_watches ws :=
       "[" +:+ String.concat "," (wi_imei <$> ws) +:+ "]" |}.

(** A connector of the kind the runtime constructs, and the same after
    [connect()] and the open event of its socket. *)
Definition sample_connector : ClawatchConnector :=
  new_ClawatchConnector "wss://relay.example/connect" "token" true true false.

Definition sample_connecting : ClawatchConnector :=
  state_of (@connect sample_platform sample_connector).

Definition sample_open : ClawatchConnector :=
  state_of (@deliver sample_platform (ev_open 0) sample_connecting).

(** The runtime after connector [c] has handled the decoded frame. *)
Definition receive `{Platform} (c : nat) (frame : Frame) (w : World) : World :=
  (on_connector c (handleFrame frame) w).2.

(** An effect that only reports a settled promise. *)
Definition is_settled (e : Effect) : Prop :=
  match e with Settled _ _ => True | _ => False end.

(** The socket a frame sent now would go out on: the open socket of the
    current connector, as (connector, attempt), if there is one. *)
Definition open_socket (w : World) : option (nat * nat) :=
  c ← connector w;
  cno ← heap w !! c;
  k ← ws cno.1;
  if decide (sock_state cno.1 k = Some OPEN) then Some (c, k) else None.

(** A runtime on the sample host: configured, then connected, then
    registered with the one sample watch. *)
Definition sample_config : ClawatchConfig :=
  {| enabled := Some true; apiUrl := "https://relay.example/connect";
     deviceCode := None; apiToken := Some "token"; agentId := Some "main";
     sessionKeyPrefix := Some "clawatch:"; ttsSystemPrompt := None;
     interimStatusEnabled := Some true |}.

Definition sample_idle : World := createClawatchRuntime sample_config.

Definition sample_connected : World :=
  @run sample_platform [api_connect; socket 0 (ev_open 0)] sample_idle.

Definition sample_registered : World :=
  @run sample_platform [socket 0 (ev_message 0 registered_text)] sample_connected.

(** A method keeps the property [P] of the connector. *)
Definition invariant {A} (P : ClawatchConnector -> Prop) (m : CM A) : Prop :=
  forall c, P c -> P (state_of (m c)).

(** Attempt [k] exists and satisfies [Q]. *)
Definition attempt_is (Q : Attempt -> Prop) (k : nat) (c : ClawatchConnector) : Prop :=
  exists a, attempts c !! k = Some a /\ Q a.

(** The frames on which the promise of [connect()] settles: Registered,
    and Error with one of the two authentication codes. *)
Definition settling_frame (frame : Frame) : bool :=
  match frame with
  | RegisteredFrame _ => true
  | ErrorFrame code _ _ => fatal_code code
  | _ => false
  end.

(** The stimuli that can settle the promise of attempt [k] once its
    timer is cancelled: a message that decodes to a settling frame, on any
    socket of the connector, and the error event of the attempt's own
    socket. *)
Definition decides `{Platform} (k : nat) (s : Stimulus) : bool :=
  match s with
  | host (ev_message _ data) =>
      match JSON_parse data with
      | Returned frame => settling_frame frame
      | Threw _ => false
      end
  | host (ev_error j) => bool_decide (j = k)
  | _ => false
  end.

(** The same without the error event: the messages that bring a
    Registered frame or a fatal authentication Error frame. *)
Definition brings_settling_frame `{Platform} (s : Stimulus) : bool :=
  match s with
  | host (ev_message _ data) =>
      match JSON_parse data with
      | Returned frame => settling_frame frame
      | Threw _ => false
      end
  | _ => false
  end.

(** The registered sample runtime after the message [m1] has come in, and
    after the socket has then closed. *)
Definition sample_received : World :=
  @run sample_platform [socket 0 (ev_message 0 message_text)] sample_registered.

Definition sample_dropped : World :=
  @run sample_platform [socket 0 (ev_close 0)] sample_received.

(** The sample connector after its socket has opened and delivered a text
    that is not JSON. *)
Definition sample_heard : ClawatchConnector :=
  @react_all sample_platform
    [host (ev_open 0); host (ev_message 0 "not json")] sample_connecting.

(** A run of stimuli without settling frames and without a socket error. *)
Definition sample_quiet_stimuli : list Stimulus :=
  [host (ev_message 0 "not json"); host (ev_message 0 unbound_text);
   host (ev_timeout 0); host ev_ping; call_send PingFrame;
   host (ev_close 0); call_connect].

(** The sample runtime after [disconnect()], the close event of the socket
    that call closed, and the reconnect timer that event set. *)
Definition sample_after_disconnect : World :=
  @run sample_platform [socket 0 (ev_close 0); timer_fires 0]
    (@disconnect sample_platform sample_registered).2.

(* ===================================================================== *)
(** * Notions used by the further properties *)
(* ===================================================================== *)

(** All the effects of a method are of the kind [E]. *)
Definition emits {A} (E : Effect -> Prop) (m : CM A) : Prop :=
  forall c, Forall E (effects_of (m c)).

(** An effect that puts no frame on a socket. *)
Definition no_frame (e : Effect) : Prop :=
  match e with WsSend _ _ => False | _ => True end.

(** What [resolve()] or [reject()] does to an attempt: only a pending
    promise changes. *)
Definition settle_attempt (st : PromiseState) (a : Attempt) : Attempt :=
  match promise a with
  | Pending => set_promise st a
  | _ => a
  end.

(** An attempt after a Registered frame: timer cleared, promise fulfilled
    unless it was settled before. *)
Definition registered_attempt (a : Attempt) : Attempt :=
  {| sock := sock a; timeout := false;
     promise := match promise a with Pending => Fulfilled | p => p end |}.

(** The connector after the wrapped [onRegistered] of the attempts [ks]. *)
Fixpoint registered_state (ks : list nat) (c : ClawatchConnector) : ClawatchConnector :=
  match ks with
  | [] => c
  | k :: older =>
      update_attempt k (settle_attempt Fulfilled)
        (registered_state older
           (set_pingInterval true (update_attempt k (set_timeout false) c)))
  end.

(** The frames among the effects of a method of connector [c], as they
    appear on the wire. *)
Definition sent_frames (c : nat) (es : list Effect) : list (nat * nat * Frame) :=
  omap (fun e => match e with WsSend k f => Some (c, k, f) | _ => None end) es.

(** The frame [f] on the socket a send would use now, if there is one. *)
Definition on_open_socket (w : World) (f : Frame) : list (nat * nat * Frame) :=
  match open_socket w with
  | Some (c, k) => [(c, k, f)]
  | None => []
  end.

(** What one event puts on the wire, read off the event and the state
    before it. *)
Definition step_frames `{Platform} (ev : Event) (w : World) : list (nat * nat * Frame) :=
  match ev with
  | api_sendReply id text done => on_open_socket w (ReplyFrame id text done)
  | api_sendControl now rnd action imei params =>
      on_open_socket w (ControlFrame (fresh_id "ctrl" now rnd) action imei params)
  | api_sendPush now rnd imei text =>
      if existsb (fun x => bool_decide (wi_imei x = imei)) (pairedWatches w)
      then on_open_socket w (PushFrame (fresh_id "push" now rnd) imei text)
      else []
  | handler_resolves n replyText =>
      match handlerCalls w !! n with
      | Some hc => on_open_socket w (ReplyFrame (hc_msgId hc) replyText true)
      | None => []
      end
  | handler_rejects n err =>
      match handlerCalls w !! n with
      | Some hc =>
          on_open_socket w
            (ErrorFrame (Some "agent_error") (errMsg_of err) (Some (hc_msgId hc)))
      | None => []
      end
  | socket c (ev_open j) =>
      match heap w !! c with
      | Some (cn, _) =>
          if decide (sock_state cn j = Some CONNECTING)
          then match ws cn with
               | Some k =>
                   if decide (k = j \/ sock_state cn k = Some OPEN)
                   then [(c, k, RegisterFrame (token cn) "openclaw-clawatch" PLUGIN_VERSION)]
                   else []
               | None => []
               end
          else []
      | None => []
      end
  | socket c ev_ping =>
      match heap w !! c with
      | Some (cn, _) =>
          if pingInterval cn
          then match ws cn with
               | Some k =>
                   if decide (sock_state cn k = Some OPEN) then [(c, k, PingFrame)] else []
               | None => []
               end
          else []
      | None => []
      end
  | _ => []
  end.

(** A connector of the runtime after its first [connect()], when the
    [WebSocket] constructor has accepted the URL. *)
Definition connecting_connector (url token : string) : ClawatchConnector :=
  set_wrappers [0%nat]
    (set_ws (Some 0%nat)
       (set_attempts [{| sock := Some CONNECTING; timeout := true; promise := Pending |}]
          (new_ClawatchConnector url token true true false))).

(** A runtime that was configured without an API token. *)
Definition sample_signed_off : World :=
  createClawatchRuntime
    {| enabled := Some true; apiUrl := "https://relay.example/connect";
       deviceCode := None; apiToken := None; agentId := Some "main";
       sessionKeyPrefix := Some "clawatch:"; ttsSystemPrompt := None;
       interimStatusEnabled := Some true |}.

(* ===================================================================== *)
(** * config.ts: [resolveConfig] *)
(* ===================================================================== *)

(** A JavaScript value as [resolveConfig] looks at it: the primitives, and
    an object (or array) given by what its properties read as, an absent
    property reading as [undefined]. *)
Inductive JsValue :=
| JsUndefined
| JsNull
| JsBoolean (b : bool)
| JsNumber (n : Z)
| JsString (s : string)
| JsFunction
| JsObject (get : string -> JsValue).   (* also an array *)

Definition API_URL_ENV_KEYS : list string :=
  ["CLAWATCH_API_URL"; "OPENCLAW_CLAWATCH_API_URL"].
Definition DEFAULT_API_URL : string := "wss://api.sg.mempat.com/api/v1/watch/connect".

(** [typeof v === "string" ? v : undefined] *)
Definition string_or_undefined (v : JsValue) : option string :=
  match v with JsString s => Some s | _ => None end.

(** [v !== false] *)
Definition not_false (v : JsValue) : bool :=
  match v with JsBoolean false => false | _ => true end.

(** [xs.find(Boolean)] on values of [process.env]: the first that is set
    and not empty. *)
Fixpoint find_truthy (xs : list (option string)) : option string :=
  match xs with
  | [] => None
  | Some s :: rest => if bool_decide (s = "") then find_truthy rest else Some s
  | None :: rest => find_truthy rest
  end.

(** [resolveConfig(raw)], with [env] for [process.env]. *)
Definition resolveConfig (env : string -> option string) (raw : JsValue)
  : option ClawatchConfig :=
  let o : string -> JsValue :=
    match raw with
    | JsObject get => get                    (* [raw && typeof raw === "object"] *)
    | _ => fun _ => JsUndefined              (* [{}] *)
    end in
  let configured :=
    match o "apiUrl" with
    | JsString s => s                        (* the empty string stands for itself *)
    | _ => ""
    end in
  let resolved :=
    if bool_decide (configured = "")
    then match find_truthy (env <$> API_URL_ENV_KEYS) with
         | Some v => v
         | None => DEFAULT_API_URL
         end
    else configured in
  if bool_decide (resolved = "") then None
  else
    Some {| enabled := Some (not_false (o "enabled"));
            apiUrl := resolved;
            deviceCode := string_or_undefined (o "deviceCode");
            apiToken := match o "apiToken" with
                        | JsString s => if bool_decide (s = "") then None else Some s
                        | _ => None
                        end;
            agentId := Some (default DEFAULT_AGENT_ID (string_or_undefined (o "agentId")));
            sessionKeyPrefix :=
              Some (default DEFAULT_SESSION_PREFIX
                      (string_or_undefined (o "sessionKeyPrefix")));
            ttsSystemPrompt := string_or_undefined (o "ttsSystemPrompt");
            interimStatusEnabled := Some (not_false (o "interimStatusEnabled")) |}.

(** A configuration object with a token and nothing else, and an
    environment with the second of the two variables set. *)
Definition sample_raw : JsValue :=
  JsObject (fun key => if bool_decide (key = "apiToken") then JsString "token"
                       else JsUndefined).

Definition sample_env (key : string) : option string :=
  if bool_decide (key = "OPENCLAW_CLAWATCH_API_URL") then Some "wss://staging.example/connect"
  else None.

(* ===================================================================== *)
(** * index.ts: the service and the tools *)
(* ===================================================================== *)

(** The module keeps one variable, [let runtime: ClawatchRuntime | null].
    The functions below take its value and give back its new value. *)

(** [formatStatus(connected, watches)] *)
Definition formatStatus (connected : bool) (watches : list WatchInfo) : string :=
  String.concat (String (ascii_of_nat 10) "")
    ["Connected: " +:+ (if connected then "yes" else "no");
     "Paired: " +:+
       match watches with
       | [] => "none"
       | _ => String.concat ", "
                ((fun w => wi_imei w +:+
                           match truthy_string (wi_label w) with
                           | Some l => " (" +:+ l +:+ ")"
                           | None => ""
                           end) <$> watches)
       end].

(** The service's [start(ctx)], with [env] for [process.env] and [gateway]
    telling whether [api.config.gateway] is set: the new value of [runtime]
    and the calls made on [ctx.logger] before [start] returns. The handler
    it attaches to the promise of [runtime.connect()] only logs the
    rejection. *)
Definition service_start (env : string -> option string) (pluginConfig : JsValue)
    (gateway : bool) `{Platform} (runtime : option World)
  : option World * list LogEntry :=
  let config := resolveConfig env pluginConfig in
  if negb (default false (config ≫= enabled))
     || bool_decide (default "" (apiUrl <$> config) = "")
  then (runtime, [info "Clawatch disabled or no apiUrl" []])
  else if negb gateway
  then (runtime, [error "Clawatch: no gateway config" []])
  else (Runtime_connect <$> (createClawatchRuntime <$> config), []).

(** The service's [stop()]: the new value of [runtime], and the runtime
    object let go of, after its [disconnect()]. *)
Definition service_stop `{Platform} (runtime : option World)
  : option World * option World :=
  (None, (fun rt => (disconnect rt).2) <$> runtime).

(** [`${n}`] for a number [n]: the host's [Number::toString], which gives
    the decimal digits of an integer only while it is small enough. *)
Class NumberHost := {
  Number_toString : number -> string }.

(** The tool [clawatch_control]: the text of the result and the new state
    of [runtime]. The interval is an integer number of seconds. *)
Definition clawatch_control `{Platform} `{NumberHost} (now : Z) (rnd : string) (action : string)
    (imei : option string) (intervalSec : option number) (runtime : option World)
  : string * option World :=
  match runtime with
  | None => ("Clawatch not connected.", runtime)
  | Some rt =>
      let watches := getPairedWatches rt in
      match truthy_string (from_option Some (wi_imei <$> head watches) imei) with
      | None => ("No paired watch.", runtime)
      | Some imei =>
          match (if bool_decide (action = "set_interval") then intervalSec else None) with
          | Some sec =>
              ("Interval set to " +:+ Number_toString sec +:+ "s for " +:+ imei,
               Some (sendControl now rnd "set_interval" imei
                       (Some [("intervalSec", sec)]) rt).2)
          | None =>
              if bool_decide (action = "unpair")
              then ("Unpaired " +:+ imei,
                    Some (sendControl now rnd "unpair" imei None rt).2)
              else if bool_decide (action = "get_config")
              then ("Config request sent for " +:+ imei,
                    Some (sendControl now rnd "get_config" imei None rt).2)
              else ("Unknown action.", runtime)
          end
      end
  end.

(** The tool [clawatch_status] *)
Definition clawatch_status (runtime : option World) : string :=
  match runtime with
  | None =>
      String.concat (String (ascii_of_nat 10) "")
        ["Connected: no"; "Paired: unknown (service may not be started)"]
  | Some rt => formatStatus (isConnected rt) (getPairedWatches rt)
  end.

(** The character U+2026. *)
Definition ellipsis : string := "…".

(** The tool [clawatch_push] *)
Definition clawatch_push `{Platform} (now : Z) (rnd : string) (imei : option string)
    (text : string) (runtime : option World) : string * option World :=
  match runtime with
  | None => ("Clawatch not connected.", runtime)
  | Some rt =>
      let watches := getPairedWatches rt in
      match truthy_string (from_option Some (wi_imei <$> head watches) imei) with
      | None => ("No paired watch.", runtime)
      | Some imei =>
          match sendPush now rnd imei text rt with
          | (Returned _, rt') =>
              ("Pushed to " +:+ imei +:+ ": " +:+ slice_0_50 text
               +:+ (if Nat.ltb 50 (utf16_length text) then ellipsis else ""),
               Some rt')
          | (Threw err, rt') => ("Push failed: " +:+ errMsg_of err, Some rt')
          end
      end
  end.

(** What the factory of [clawatch_interim] closes over: the session key,
    the IMEI parsed from it, and whether [runtime?.logger] was there. *)
Record InterimTool := {
  it_sessionKey : string;
  it_sessionImei : option string;
  it_logger : bool }.

(** A call on the logger the factory captured, if it captured one. *)
Definition interim_log (tool : InterimTool) (e : LogEntry) : list LogEntry :=
  if it_logger tool then [e] else [].

(** The factory of [clawatch_interim], run once per agent run: the tool and
    the calls on the captured logger. *)
Definition clawatch_interim_factory (ctx_sessionKey ctx_messageChannel : option string)
    (runtime : option World) : InterimTool * list LogEntry :=
  let sessionKey := default "" ctx_sessionKey in
  let sessionImei := parseImeiFromSessionKey sessionKey in
  let tool := {| it_sessionKey := sessionKey; it_sessionImei := sessionImei;
                 it_logger := bool_decide (is_Some runtime) |} in
  (tool,
   interim_log tool
     (info ("clawatch_interim factory: sessionKey=" +:+ sessionKey
            +:+ " sessionImei=" +:+ default "(none)" sessionImei
            +:+ " messageChannel=" +:+ default "(none)" ctx_messageChannel) [])).

Definition slice_0_80 (s : string) : string := slice_units 80 s.

(** [String(params.message?.trim() || "ok").slice(0, 80)] *)
Definition interim_text (message : option string) : string :=
  slice_0_80 (default "ok" (truthy_string (trim <$> message))).

(** [execute] of [clawatch_interim]: the text of the result, the calls on
    the captured logger, and the new state of [runtime]. *)
Definition clawatch_interim `{Platform} (tool : InterimTool) (now : Z) (rnd : string)
    (message : option string) (runtime : option World)
  : string * list LogEntry * option World :=
  let sessionKey := it_sessionKey tool in
  let called :=
    interim_log tool
      (info ("clawatch_interim called: sessionKey=" +:+ sessionKey
             +:+ " sessionImei=" +:+ default "(none)" (it_sessionImei tool)
             +:+ " message=" +:+ default "(none)" message) []) in
  match truthy_string (it_sessionImei tool) with
  | None =>
      ("Skipped: not a clawatch session.",
       called ++ interim_log tool
         (info ("clawatch_interim: skipped, not a clawatch session (sessionKey="
                +:+ sessionKey +:+ ")") []),
       runtime)
  | Some sessionImei =>
      match runtime with
      | None =>
          ("Clawatch not connected.",
           called ++ interim_log tool (info "clawatch_interim: runtime not available" []),
           runtime)
      | Some rt =>
          let watches := getPairedWatches rt in
          let isPaired := existsb (fun w => bool_decide (wi_imei w = sessionImei)) watches in
          let checked :=
            called ++ interim_log tool
              (info ("clawatch_interim: imei=" +:+ sessionImei
                     +:+ " isPaired=" +:+ (if isPaired then "true" else "false")
                     +:+ " pairedWatches=" +:+ String.concat "," (wi_imei <$> watches)) []) in
          if negb isPaired
          then ("Skipped: IMEI " +:+ sessionImei +:+ " not paired.",
                checked ++ interim_log tool
                  (info ("clawatch_interim: IMEI " +:+ sessionImei
                         +:+ " not in paired list, skipping") []),
                runtime)
          else
            let text := interim_text message in
            match sendPush now rnd sessionImei text rt with
            | (Returned _, rt') =>
                ("Sent interim: " +:+ text,
                 checked ++ interim_log tool
                   (info ("clawatch_interim: sent to " +:+ sessionImei +:+ ": " +:+ text) []),
                 Some rt')
            | (Threw err, rt') =>
                ("Interim failed: " +:+ errMsg_of err,
                 checked ++ interim_log tool
                   (error ("clawatch_interim: push failed: " +:+ errMsg_of err) []),
                 Some rt')
            end
      end
  end.

(** The hook on [before_agent_start]: the [prependContext] it returns, if
    any, and its call on [runtime?.logger]. *)
Definition before_agent_start (env : string -> option string) (pluginConfig : JsValue)
    (runtime : option World) : option string * list LogEntry :=
  let config := resolveConfig env pluginConfig in
  if bool_decide (config ≫= interimStatusEnabled = Some false) then (None, [])
  else
    (Some "[Behavior] Before long-running tools (exec, curl, web search, multi-step flows), call clawatch_interim with a brief, natural message. Keep it short and conversational. The tool will automatically skip if not a clawatch session.",
     if bool_decide (is_Some runtime)
     then [info "before_agent_start: injecting prependContext for clawatch interim" []]
     else []).

(* ===================================================================== *)
(** * channel.ts *)
(* ===================================================================== *)

(** [config.resolveAllowFrom()] *)
Definition resolveAllowFrom (rt : option World) : list string :=
  match rt with
  | Some w => wi_imei <$> getPairedWatches w
  | None => []
  end.

Record ResolvedTarget := {
  rt_input : string;
  rt_resolved : bool;
  rt_id : option string;
  rt_note : option string }.

(** [resolver.resolveTargets({ inputs })] *)
Definition resolveTargets (inputs : list string) : list ResolvedTarget :=
  (fun input =>
     let imei := trim input in
     let valid := is_imei imei in
     {| rt_input := input; rt_resolved := valid;
        rt_id := if valid then Some imei else None;
        rt_note := if valid then None else Some "IMEI must be 15 digits" |}) <$> inputs.

(** What [sendText] and [sendMedia] return: [channel] and [messageId]. *)
Record Delivery := { dl_channel : string; dl_messageId : string }.

(** [outbound.sendText({ to, text })]; [now'] is the clock reading taken
    for the message identifier, after [sendPush] has taken [now]. *)
Definition sendText `{Platform} (now : Z) (rnd : string) (now' : Z) (to text : string)
    (rt : option World) : Result Delivery * option World :=
  match rt with
  | None => (Threw (JsError "Clawatch runtime not available" None), rt)
  | Some w =>
      match sendPush now rnd to text w with
      | (Returned _, w') =>
          (Returned {| dl_channel := "clawatch";
                       dl_messageId := "push-" +:+ to +:+ "-" +:+ pretty now' |},
           Some w')
      | (Threw err, w') => (Threw err, Some w')
      end
  end.

(** [outbound.sendMedia({ to, text, mediaUrl })] *)
Definition sendMedia `{Platform} (now : Z) (rnd : string) (now' : Z) (to text : string)
    (mediaUrl : option string) (rt : option World) : Result Delivery * option World :=
  match rt with
  | None => (Threw (JsError "Clawatch runtime not available" None), rt)
  | Some w =>
      match truthy_string mediaUrl with
      | Some _ =>
          (Threw (JsError "Clawatch does not support media; use text only" None), rt)
      | None =>
          match sendPush now rnd to text w with
          | (Returned _, w') =>
              (Returned {| dl_channel := "clawatch";
                           dl_messageId := "push-" +:+ to +:+ "-" +:+ pretty now' |},
               Some w')
          | (Threw err, w') => (Threw err, Some w')
          end
      end
  end.

(** ** Shapes and samples for the statements about the tools *)

(** A string of white space only. *)
Definition all_space (s : string) : bool := bool_decide (trim_start s = "").

(** A host that renders every number by its decimal digits. *)
Definition sample_numbers : NumberHost := {| Number_toString := pretty |}.

(** The configuration resolved from [sample_raw] under [sample_env], and
    the service started with it on the sample host. *)
Definition sample_resolved_config : ClawatchConfig :=
  default sample_config (resolveConfig sample_env sample_raw).

Definition sample_started : World :=
  @run sample_platform [api_connect; socket 0 (ev_open 0)]
    (createClawatchRuntime sample_resolved_config).

(* ===================================================================== *)
(** * gateway.ts: [chatCompletion] *)
(* ===================================================================== *)

(** [s.split("\n")]: never empty. *)
Fixpoint split_newline (s : string) : list string :=
  match s with
  | EmptyString => [EmptyString]
  | String c rest =>
      if Nat.eqb (nat_of_ascii c) 10 then EmptyString :: split_newline rest
      else match split_newline rest with
           | line :: lines => String c line :: lines
           | [] => [String c EmptyString]
           end
  end.

(** [haystack.includes(needle)] *)
Fixpoint includes (needle haystack : string) : bool :=
  bool_decide (is_Some (strip_prefix needle haystack))
  || match haystack with
     | String _ rest => includes needle rest
     | EmptyString => false
     end.

(** [s.slice(n)] *)
Fixpoint slice_from (n : nat) (s : string) : string :=
  match n, s with
  | S n', String _ rest => slice_from n' rest
  | _, _ => s
  end.

(** What the gateway's answers are read with: [JSON.parse(jsonStr)]
    followed by [data.choices?.[0]?.delta?.content], either of which may
    throw. *)
Class GatewayHost := {
  delta_content : string -> Result (option string) }.

Section Gateway.
Context `{GatewayHost}.

(** The body of the loop over the complete lines of the buffer. *)
Definition sse_line (content line : string) : string :=
  let trimmed := trim line in
  if bool_decide (trimmed = "") || bool_decide (trimmed = "data: [DONE]") then content
  else if negb (bool_decide (is_Some (strip_prefix "data: " trimmed))) then content
  else
    match delta_content (slice_from 6 trimmed) with
    | Returned delta =>
        match truthy_string delta with
        | Some d => content +:+ d
        | None => content
        end
    | Threw _ => content                     (* skip invalid JSON lines *)
    end.

(** One turn of the reading loop, on the decoded text of a chunk: the
    state is [content] and [buffer]. *)
Definition sse_chunk (state : string * string) (chunk : string) : string * string :=
  let lines := split_newline (state.2 +:+ chunk) in
  (foldl sse_line state.1 (removelast lines), default "" (last lines)).

(** The reading loop, until the reader is done. *)
Definition read_stream (chunks : list string) : string :=
  (foldl sse_chunk ("", "") chunks).1.

(** What [fetch] resolves with, as [chatCompletion] uses it: [body] is
    null or a stream, given by the decoded text of its chunks and by the
    error that ends it, if one does; [text] is what [res.text()] gives. *)
Record Response := {
  res_ok : bool;
  res_status : Z;
  res_body : option (list string * option Thrown);
  res_text : Result string }.

(** How one turn of the loop over the URLs ends. *)
Inductive Attempted :=
| Replied (content : string)        (* [return content] *)
| Failed (err : Thrown)             (* [throw err] out of [chatCompletion] *)
| NextUrl (lastError : Thrown).     (* [continue] *)

(** The [catch] clause of the loop. *)
Definition caught (err : Thrown) : Attempted :=
  match err with
  | JsError message _ => if includes "405" message then NextUrl err else Failed err
  | JsOther _ => Failed err
  end.

Definition gateway_error (status : Z) (url text : string) : Thrown :=
  JsError ("Gateway error " +:+ pretty status +:+ " for " +:+ url +:+ ": " +:+ text) None.

(** One turn of the loop, for what [fetch(url, ...)] settles with. *)
Definition try_url (url : string) (fetched : Result Response) : Attempted :=
  match fetched with
  | Threw err => caught err
  | Returned res =>
      if res_ok res then
        match res_body res with
        | None => caught (JsError "Response body is null" None)
        | Some (chunks, None) => Replied (read_stream chunks)
        | Some (chunks, Some err) => caught err
        end
      else if res_status res =? 405 then
        match res_text res with
        | Returned text => NextUrl (gateway_error (res_status res) url text)
        | Threw err => caught err
        end
      else
        match res_text res with
        | Returned text => caught (gateway_error (res_status res) url text)
        | Threw err => caught err
        end
  end.

Fixpoint try_urls (fetch : string -> Result Response) (urls : list string)
    (lastError : option Thrown) : Result string :=
  match urls with
  | url :: rest =>
      match try_url url (fetch url) with
      | Replied content => Returned content
      | Failed err => Threw err
      | NextUrl err => try_urls fetch rest (Some err)
      end
  | [] =>
      Threw (default
               (JsError "All endpoint paths returned 405 Method Not Allowed. Check gateway.http.endpoints.chatCompletions.enabled" None)
               lastError)
  end.

(** [config.baseUrl.replace(/\/$/, "")] *)
Fixpoint strip_trailing_slash (s : string) : string :=
  match s with
  | EmptyString => EmptyString
  | String c EmptyString => if Nat.eqb (nat_of_ascii c) 47 then EmptyString else s
  | String c rest => String c (strip_trailing_slash rest)
  end.

Definition gateway_urls (baseUrl : string) : list string :=
  [strip_trailing_slash baseUrl +:+ "/api/v1/chat/completions";
   strip_trailing_slash baseUrl +:+ "/v1/chat/completions"].

(** [chatCompletion(config, sessionKey, userMessage, context)], with
    [fetch] for what the host's [fetch] settles with on each URL when given
    this call's headers and body. *)
Definition chatCompletion (baseUrl : string) (fetch : string -> Result Response)
  : Result string :=
  try_urls fetch (gateway_urls baseUrl) None.

End Gateway.

(** The handler the service gives the runtime returns the promise of
    [chatCompletion]; this is the runtime's continuation for the [n]-th
    handler call once that promise has settled. *)
Definition reply_settled `{Platform} (n : nat) (r : Result string) (w : World) : World :=
  match r with
  | Returned replyText => step (handler_resolves n replyText) w
  | Threw err => step (handler_rejects n err) w
  end.

(** A gateway that answers with lines of the form [data: <text>], the
    text standing for the content of the delta. *)
Definition sample_gateway : GatewayHost :=
  {| delta_content jsonStr :=
       if bool_decide (jsonStr = "{") then Threw (JsError "Unexpected end of JSON input" None)
       else Returned (Some jsonStr) |}.

(** The text of a stream: its chunks one after the other. *)
Definition joined (chunks : list string) : string := foldr String.append "" chunks.

(** A text made of pieces taken from [encs]. *)
Definition made_of (encs : list string) (s : string) : Prop :=
  exists pieces, Forall (fun piece => piece ∈ encs) pieces /\ s = joined pieces.

(** A gateway call that is answered on the first path with a stream of two
    chunks. *)
Definition sample_fetch (url : string) : Result Response :=
  Returned {| res_ok := true; res_status := 200;
              res_body := Some (["data: Hel";
                                 "lo" +:+ String (ascii_of_nat 10) ""], None);
              res_text := Returned "" |}.

(* ===================================================================== *)
(** * Properties *)
(* ===================================================================== *)

(** Closed goals about the sample host are settled by evaluation, one
    conjunct at a time. *)
Ltac evaluate :=
  repeat match goal with |- _ /\ _ => split end; vm_compute; reflexivity.

(** ** Session keys *)

Example parse_plain :
  parseImeiFromSessionKey "clawatch:860000035452456" = Some "860000035452456".
Proof. reflexivity. Qed.

Example parse_session_alias :
  parseImeiFromSessionKey "session:clawatch:860000035452456"
  = Some "860000035452456".
Proof. reflexivity. Qed.

Example parse_short : parseImeiFromSessionKey "clawatch:86000003545245" = None.
Proof. reflexivity. Qed.

Example parse_letters : parseImeiFromSessionKey "clawatch:86000003545245x" = None.
Proof. reflexivity. Qed.

Lemma append_nil (s : string) : "" +:+ s = s.
Proof. reflexivity. Qed.

Lemma append_cons (a : ascii) (p s : string) :
  String a p +:+ s = String a (p +:+ s).
Proof. reflexivity. Qed.

Lemma strip_prefix_append (lit s : string) : strip_prefix lit (lit +:+ s) = Some s.
Proof.
  induction lit as [|a lit IH].
  - rewrite append_nil. by destruct s.
  - rewrite append_cons. simpl. by rewrite decide_True.
Qed.

Lemma strip_prefix_Some (lit s r : string) :
  strip_prefix lit s = Some r -> s = lit +:+ r.
Proof.
  revert s. induction lit as [|a lit IH]; intros s Hs.
  - destruct s; simpl in Hs; by simplify_eq.
  - destruct s as [|b s]; simpl in Hs; [done|].
    case_decide; [|done]. subst b.
    rewrite append_cons. f_equal. by apply IH.
Qed.

Lemma match_clawatch_imei_Some (s r : string) :
  match_clawatch_imei s = Some r -> s = "clawatch:" +:+ r /\ fifteen_digits r = true.
Proof.
  unfold match_clawatch_imei.
  destruct (strip_prefix "clawatch:" s) as [rest|] eqn:Hs; [|done].
  destruct (fifteen_digits rest) eqn:Hd; [|done].
  intros [= <-]. split; [by apply strip_prefix_Some | done].
Qed.

Lemma match_clawatch_imei_append (i : string) :
  fifteen_digits i = true -> match_clawatch_imei ("clawatch:" +:+ i) = Some i.
Proof.
  intros Hi. unfold match_clawatch_imei.
  by rewrite strip_prefix_append, Hi.
Qed.

(** What the parser accepts: exactly the two shapes named in its comment. *)
Lemma parseImeiFromSessionKey_Some (s r : string) :
  parseImeiFromSessionKey s = Some r ->
  fifteen_digits r = true /\
  (s = "clawatch:" +:+ r \/ s = "session:clawatch:" +:+ r).
Proof.
  unfold parseImeiFromSessionKey.
  destruct s as [|a s]; [done|].
  destruct (strip_prefix "session:" (String a s)) as [rest|] eqn:Hp.
  - destruct (match_clawatch_imei rest) as [i|] eqn:Hm.
    + intros [= ->]. apply match_clawatch_imei_Some in Hm as [-> Hd].
      apply strip_prefix_Some in Hp. split; [done|]. right. by rewrite Hp.
    + intros Hm'. apply match_clawatch_imei_Some in Hm' as [-> Hd]. by split; [|left].
  - intros Hm'. apply match_clawatch_imei_Some in Hm' as [-> Hd]. by split; [|left].
Qed.

Lemma append_length (s t : string) :
  String.length (s +:+ t) = (String.length s + String.length t)%nat.
Proof.
  induction s as [|a s IH]; [done|].
  rewrite append_cons. simpl. by rewrite IH.
Qed.

Lemma append_assoc (a b c : string) : (a +:+ b) +:+ c = a +:+ (b +:+ c).
Proof. induction a as [|x a IH]; [done|]. rewrite !append_cons. by f_equal. Qed.

Lemma append_nil_r (a : string) : a +:+ "" = a.
Proof. induction a as [|x a IH]; [done|]. rewrite append_cons. by f_equal. Qed.

Lemma joined_app (xs ys : list string) : joined (xs ++ ys) = joined xs +:+ joined ys.
Proof.
  induction xs as [|x xs IH]; [done|].
  change (joined ((x :: xs) ++ ys)) with (x +:+ joined (xs ++ ys)).
  change (joined (x :: xs)) with (x +:+ joined xs).
  rewrite IH. symmetry. apply append_assoc.
Qed.

(** Two strings that end in the same suffix come from equal prefixes. *)
Lemma append_cancel_r (p q i : string) : p +:+ i = q +:+ i -> p = q.
Proof.
  revert q. induction p as [|a p IH]; intros q Heq.
  - destruct q as [|b q]; [done|].
    apply (f_equal String.length) in Heq.
    rewrite append_nil, append_cons in Heq. simpl in Heq.
    rewrite append_length in Heq. lia.
  - destruct q as [|b q].
    + apply (f_equal String.length) in Heq.
      rewrite append_nil, append_cons in Heq. simpl in Heq.
      rewrite append_length in Heq. lia.
    + rewrite !append_cons in Heq. injection Heq as -> Heq.
      f_equal. by apply IH.
Qed.

(** C2, as amended: for the default prefix [clawatch:], which is the one
    the parser's pattern spells out, the session key derived from a
    fifteen-digit IMEI parses back to that IMEI, both as it is and
    under the [session:] alias. *)
Theorem session_key_roundtrip_default (i : string) :
  is_imei i = true ->
  parseImeiFromSessionKey (getSessionKey DEFAULT_SESSION_PREFIX i) = Some i /\
  parseImeiFromSessionKey ("session:" +:+ getSessionKey DEFAULT_SESSION_PREFIX i) = Some i.
Proof.
  intros Hi. unfold is_imei in Hi.
  unfold getSessionKey, DEFAULT_SESSION_PREFIX. split.
  - change ("clawatch:" +:+ i) with (String "c" ("lawatch:" +:+ i)).
    unfold parseImeiFromSessionKey.
    change (strip_prefix "session:" (String "c" ("lawatch:" +:+ i))) with (@None string).
    change (String "c" ("lawatch:" +:+ i)) with ("clawatch:" +:+ i).
    by apply match_clawatch_imei_append.
  - change ("session:" +:+ "clawatch:" +:+ i)
      with (String "s" ("ession:" +:+ "clawatch:" +:+ i)).
    unfold parseImeiFromSessionKey.
    change (String "s" ("ession:" +:+ "clawatch:" +:+ i))
      with ("session:" +:+ "clawatch:" +:+ i).
    rewrite strip_prefix_append.
    by rewrite match_clawatch_imei_append.
Qed.

Lemma session_key_roundtrip_default_witness :
  is_imei "860000035452456" = true /\
  parseImeiFromSessionKey (getSessionKey DEFAULT_SESSION_PREFIX "860000035452456")
    = Some "860000035452456" /\
  parseImeiFromSessionKey
    ("session:" +:+ getSessionKey DEFAULT_SESSION_PREFIX "860000035452456")
    = Some "860000035452456".
Proof.
  assert (Hi : is_imei "860000035452456" = true) by (vm_compute; reflexivity).
  split; [exact Hi|].
  exact (session_key_roundtrip_default "860000035452456" Hi).
Defined.

(** C2 as stated fails for a configured prefix other than [clawatch:]:
    with the prefix [watch:] (the runtime's own fallback) the key derived
    from a fifteen-digit IMEI does not parse. *)
Lemma session_key_roundtrip_counterexample :
  is_imei "860000035452456" = true /\
  getSessionKey "watch:" "860000035452456" = "watch:860000035452456" /\
  parseImeiFromSessionKey (getSessionKey "watch:" "860000035452456") = None.
Proof. evaluate. Qed.

(** The round trip of C2 holds for no other prefix. *)
Lemma session_key_roundtrip_only_default (p i : string) :
  is_imei i = true ->
  parseImeiFromSessionKey (getSessionKey p i) = Some i ->
  parseImeiFromSessionKey ("session:" +:+ getSessionKey p i) = Some i ->
  p = DEFAULT_SESSION_PREFIX.
Proof.
  intros Hi Hplain Halias. unfold getSessionKey in *.
  apply parseImeiFromSessionKey_Some in Hplain as [_ [Hp|Hp]].
  - by apply append_cancel_r in Hp.
  - change ("session:clawatch:" +:+ i) with (("session:clawatch:") +:+ i) in Hp.
    apply append_cancel_r in Hp. subst p.
    exfalso. revert Halias.
    change ("session:" +:+ "session:clawatch:" +:+ i)
      with (String "s" ("ession:" +:+ "session:clawatch:" +:+ i)).
    unfold parseImeiFromSessionKey.
    change (String "s" ("ession:" +:+ "session:clawatch:" +:+ i))
      with ("session:" +:+ "session:clawatch:" +:+ i).
    rewrite strip_prefix_append.
    change (match_clawatch_imei ("session:clawatch:" +:+ i)) with (@None string).
    change (match_clawatch_imei ("session:" +:+ "session:clawatch:" +:+ i))
      with (@None string).
    done.
Qed.

(** ** Reasoning about connector methods *)

Section Keeps.
Context {B : Type} (f : ClawatchConnector -> B).

Lemma keeps_ret {A} (a : A) : keeps f (cret a).
Proof. by intros c. Qed.

Lemma keeps_throw {A} (e : Thrown) : keeps f (@cthrow A e).
Proof. by intros c. Qed.

Lemma keeps_lift {A} (r : Result A) : keeps f (clift r).
Proof. by intros c. Qed.

Lemma keeps_emit (e : Effect) : keeps f (emit e).
Proof. by intros c. Qed.

Lemma keeps_get : keeps f cget.
Proof. by intros c. Qed.

Lemma keeps_modify (g : ClawatchConnector -> ClawatchConnector) :
  (forall c, f (g c) = f c) -> keeps f (cmodify g).
Proof. intros Hg c. apply Hg. Qed.

Lemma keeps_bind {A C} (m : CM A) (k : A -> CM C) :
  keeps f m -> (forall a, keeps f (k a)) -> keeps f (cbind m k).
Proof.
  intros Hm Hk c. specialize (Hm c).
  unfold cbind, state_of in *.
  destruct (m c) as [[[a|e] c1] e1]; simpl in *; [|done].
  specialize (Hk a c1). unfold state_of in Hk.
  destruct (k a c1) as [[r c2] e2]; simpl in *. congruence.
Qed.

Lemma keeps_try {A} (m : CM A) (h : Thrown -> CM A) :
  keeps f m -> (forall e, keeps f (h e)) -> keeps f (ctry m h).
Proof.
  intros Hm Hh c. specialize (Hm c).
  unfold ctry, state_of in *.
  destruct (m c) as [[[a|e] c1] e1]; simpl in *; [done|].
  specialize (Hh e c1). unfold state_of in Hh.
  destruct (h e c1) as [[r c2] e2]; simpl in *. congruence.
Qed.

End Keeps.

Ltac keeps_step :=
  first
    [ apply keeps_ret | apply keeps_emit | apply keeps_get | apply keeps_lift
    | apply keeps_throw
    | apply keeps_modify; intros []; reflexivity
    | apply keeps_bind; [|intros ?]
    | apply keeps_try; [|intros ?] ].

Ltac keeps_auto := repeat (keeps_step; try done).

Lemma keeps_settle {B} (f : ClawatchConnector -> B) k st :
  (forall g c, f (update_attempt k g c) = f c) -> keeps f (settle k st).
Proof.
  intros Hf. unfold settle. apply keeps_bind; [apply keeps_get|]. intros c.
  destruct (promise <$> attempts c !! k) as [[]|];
    [apply keeps_bind; [apply keeps_modify; intros; apply Hf | intros; apply keeps_emit]
    |apply keeps_ret..].
Qed.

Lemma backoff_fields_update_attempt k g c :
  backoff_fields (update_attempt k g c) = backoff_fields c.
Proof. by destruct c. Qed.

Lemma keeps_backoff_clearTimeout k : keeps backoff_fields (clearTimeout k).
Proof. apply keeps_modify. intros. apply backoff_fields_update_attempt. Qed.

Lemma keeps_backoff_settle k st : keeps backoff_fields (settle k st).
Proof. apply keeps_settle. intros. apply backoff_fields_update_attempt. Qed.

Lemma keeps_backoff_stopPing : keeps backoff_fields stopPing.
Proof.
  unfold stopPing. apply keeps_bind; [apply keeps_get|]. intros c.
  destruct (pingInterval c); keeps_auto.
Qed.

Lemma keeps_backoff_startPing : keeps backoff_fields startPing.
Proof.
  unfold startPing. apply keeps_bind; [apply keeps_backoff_stopPing|].
  intros _. keeps_auto.
Qed.

Lemma keeps_backoff_send frame : keeps backoff_fields (send frame).
Proof.
  unfold send. apply keeps_bind; [apply keeps_get|]. intros c.
  destruct (ws c); [case_decide|]; keeps_auto.
Qed.

Lemma keeps_backoff_onRegistered ks watches :
  keeps backoff_fields (callbacks_onRegistered ks watches).
Proof.
  induction ks as [|k ks IH]; simpl; [apply keeps_emit|].
  apply keeps_bind; [apply keeps_backoff_clearTimeout|intros _].
  apply keeps_bind; [apply keeps_backoff_startPing|intros _].
  apply keeps_bind; [apply IH|intros _].
  apply keeps_backoff_settle.
Qed.

Lemma keeps_backoff_onError ks code message id :
  keeps backoff_fields (callbacks_onError ks code message id).
Proof.
  induction ks as [|k ks IH]; simpl; [apply keeps_emit|].
  apply keeps_bind; [apply keeps_backoff_clearTimeout|intros _].
  apply keeps_bind; [apply IH|intros _].
  destruct (fatal_code code); [apply keeps_backoff_settle|apply keeps_ret].
Qed.

Lemma keeps_backoff_handleFrame frame : keeps backoff_fields (handleFrame frame).
Proof.
  unfold handleFrame. apply keeps_bind; [apply keeps_get|]. intros c.
  destruct frame;
    try (destruct (has_onDebug c); keeps_auto; fail);
    try (destruct (has_onControlAck c); keeps_auto; fail);
    try apply keeps_emit.
  - apply keeps_backoff_onRegistered.
  - apply keeps_backoff_onError.
Qed.

(** ** Reconnect backoff *)

Lemma constructed_new url token r d a :
  constructed (new_ClawatchConnector url token r d a).
Proof. by repeat split. Qed.

Lemma constructed_keeps (c c' : ClawatchConnector) :
  backoff_fields c' = backoff_fields c -> constructed c -> constructed c'.
Proof. unfold backoff_fields, constructed. intros [= ? -> -> ->]. done. Qed.

Lemma onclose_schedules (c : ClawatchConnector) (k : nat) :
  maxReconnectAttempts c = 0 -> has_onReconnect c = true ->
  scheduled_delays (effects_of (onclose k c)) = [reconnect_delay c] /\
  backoff_fields (state_of (onclose k c))
  = (reconnectAttempts c + 1, maxReconnectAttempts c, baseReconnectMs c,
     maxReconnectMs c, true).
Proof.
  intros Hmax Hre. destruct c as [w t u hr hd ha wr pi ra mra b mx at_].
  simpl in *. subst mra hr.
  by destruct pi.
Qed.

Lemma reconnect_delay_constructed (c : ClawatchConnector) (m : nat) :
  constructed c -> reconnectAttempts c = Z.of_nat m ->
  reconnect_delay c = backoff_schedule m.
Proof.
  intros (_ & Hb & Hm) Hra. unfold reconnect_delay, backoff_schedule.
  by rewrite Hb, Hm, Hra.
Qed.

Lemma close_delays_schedule (ks : list nat) (c : ClawatchConnector) (m : nat) :
  constructed c -> has_onReconnect c = true -> reconnectAttempts c = Z.of_nat m ->
  close_delays ks c = (fun n => backoff_schedule (m + n)) <$> seq 0 (length ks).
Proof.
  revert c m. induction ks as [|k ks IH]; intros c m Hc Hre Hra; [done|].
  destruct (onclose_schedules c k) as [Hd Hf]; [apply Hc | done |].
  cbn [close_delays]. rewrite Hd.
  cbn [length seq fmap list_fmap app]. f_equal.
  - rewrite Nat.add_0_r. by apply reconnect_delay_constructed.
  - unfold backoff_fields in Hf. injection Hf as Hra' Hmra' Hb' Hmx' Hre'.
    rewrite (IH _ (S m)).
    + rewrite <- (fmap_S_seq 0), <- list_fmap_compose.
      apply list_fmap_ext. intros _ n _. simpl. f_equal. lia.
    + destruct Hc as (? & ? & ?). repeat split; congruence.
    + done.
    + lia.
Qed.

Lemma backoff_schedule_mono (i j : nat) :
  (i <= j)%nat -> backoff_schedule i <= backoff_schedule j.
Proof.
  intros Hij. unfold backoff_schedule.
  apply Z.min_le_compat_r. apply Z.mul_le_mono_nonneg_l; [lia|].
  apply Z.pow_le_mono_r; lia.
Qed.

Lemma backoff_schedule_cap (n : nat) : backoff_schedule n <= 300000.
Proof. unfold backoff_schedule. lia. Qed.

Lemma backoff_schedule_base : backoff_schedule 0 = 1000.
Proof. reflexivity. Qed.

Lemma onopen_resets (c : ClawatchConnector) (k : nat) :
  backoff_fields (state_of (onopen k c))
  = (0, maxReconnectAttempts c, baseReconnectMs c, maxReconnectMs c, has_onReconnect c).
Proof.
  destruct c as [w t u hr hd ha wr pi ra mra b mx at_].
  unfold onopen, send, clearTimeout, cbind, cmodify, cget, state_of, backoff_fields.
  simpl. destruct w as [j|]; simpl; [|done].
  by case_decide.
Qed.

Lemma after_frames_backoff (fs : list Frame) (c : ClawatchConnector) :
  backoff_fields (after_frames fs c) = backoff_fields c.
Proof.
  revert c. induction fs as [|f fs IH]; intros c; [done|].
  change (after_frames (f :: fs) c)
    with (after_frames fs (state_of (handleFrame f c))).
  rewrite IH. apply keeps_backoff_handleFrame.
Qed.

(** What a connector does by itself, when [connect()] is called again on
    it after each close: after a transport open (and whatever frames
    follow it, the Registered frame among them) the attempt counter is
    zero, and the
    [n]-th consecutive close from there, counting from zero, schedules the
    reconnect hook after [min (1000 * 2^n) 300000] milliseconds; these
    delays never decrease from one close to the next and never exceed
    300000; the first of them is the base of 1000. The same schedule
    applies to a connector whose counter is zero for any other reason,
    such as a new one. *)
Theorem reconnect_backoff (c : ClawatchConnector) (k : nat)
    (frames : list Frame) (ks : list nat) :
  constructed c -> has_onReconnect c = true ->
  let opened := state_of (onopen k c) in
  let ds := close_delays ks (after_frames frames opened) in
  reconnectAttempts opened = 0 /\
  ds = backoff_schedule <$> seq 0 (length ks) /\
  (forall n d, ds !! n = Some d -> d = Z.min (1000 * 2 ^ Z.of_nat n) 300000) /\
  (forall i j di dj, (i <= j)%nat -> ds !! i = Some di -> ds !! j = Some dj -> di <= dj) /\
  (forall d, d ∈ ds -> d <= 300000) /\
  (forall k', close_delays [k'] (after_frames frames opened) = [1000]) /\
  (reconnectAttempts c = 0 ->
   close_delays ks c = backoff_schedule <$> seq 0 (length ks)).
Proof.
  intros Hc Hre opened ds.
  pose proof (onopen_resets c k) as Hopen. fold opened in Hopen.
  assert (Hreg : backoff_fields (after_frames frames opened)
                 = (0, maxReconnectAttempts c, baseReconnectMs c,
                    maxReconnectMs c, has_onReconnect c)).
  { by rewrite after_frames_backoff. }
  assert (Hc' : constructed (after_frames frames opened)).
  { destruct Hc as (? & ? & ?). unfold backoff_fields in Hreg.
    injection Hreg as ? ? ? ? ?. repeat split; congruence. }
  assert (Hre' : has_onReconnect (after_frames frames opened) = true).
  { unfold backoff_fields in Hreg. injection Hreg as ? ? ? ? ?. congruence. }
  assert (Hra' : reconnectAttempts (after_frames frames opened) = Z.of_nat 0).
  { unfold backoff_fields in Hreg. by injection Hreg as ? ? ? ? ?. }
  assert (Hds : ds = backoff_schedule <$> seq 0 (length ks)).
  { unfold ds. by rewrite (close_delays_schedule ks _ 0). }
  split; [|split; [|split; [|split; [|split; [|split]]]]].
  - unfold backoff_fields in Hopen. by injection Hopen as ? ? ? ? ?.
  - done.
  - intros n d. rewrite Hds, list_lookup_fmap.
    intros Hn. apply fmap_Some in Hn as (n' & Hn' & ->).
    apply lookup_seq in Hn' as [-> _]. done.
  - intros i j di dj Hij. rewrite Hds, !list_lookup_fmap.
    intros Hi Hj.
    apply fmap_Some in Hi as (i' & Hi' & ->). apply lookup_seq in Hi' as [-> _].
    apply fmap_Some in Hj as (j' & Hj' & ->). apply lookup_seq in Hj' as [-> _].
    by apply backoff_schedule_mono.
  - intros d. rewrite Hds. intros Hd.
    apply list_elem_of_fmap in Hd as (n & -> & _). apply backoff_schedule_cap.
  - intros k'. by rewrite (close_delays_schedule [k'] _ 0).
  - intros Hra. by rewrite (close_delays_schedule ks c 0).
Qed.

Lemma reconnect_backoff_witness :
  constructed sample_connector /\ has_onReconnect sample_connector = true /\
  close_delays [0; 0; 0; 0; 0; 0; 0; 0; 0; 0; 0]%nat
    (after_frames [RegisteredFrame []] (state_of (onopen 0 sample_connector)))
  = [1000; 2000; 4000; 8000; 16000; 32000; 64000; 128000; 256000; 300000; 300000].
Proof.
  split; [by repeat split|]. split; [reflexivity|].
  exact (proj1 (proj2
    (reconnect_backoff sample_connector 0 [RegisteredFrame []]
       [0; 0; 0; 0; 0; 0; 0; 0; 0; 0; 0]%nat
       (conj eq_refl (conj eq_refl eq_refl)) eq_refl))).
Defined.

(** The runtime's hook does not call [connect()] again on the connector
    whose socket closed: [attemptReconnect] constructs a new connector, whose
    counter starts at zero. Here the first connection opens and closes, the
    reconnect timer fires, and the second connector's socket fails before it
    opens: its close event schedules the hook after 1000 ms again. *)
Example runtime_reconnects_with_new_connector :
  timers (@run sample_platform
            [socket 0 (ev_close 0); timer_fires 0; socket 1 (ev_error 0);
             socket 1 (ev_close 0)] sample_connected)
  = [{| delay := 1000; callback := cb_manual_reconnect |};
     {| delay := 2000; callback := cb_retry_reconnect |};
     {| delay := 1000; callback := cb_onReconnect |}] /\
  (fun x => reconnectAttempts x.1) <$>
    heap (@run sample_platform
            [socket 0 (ev_close 0); timer_fires 0; socket 1 (ev_error 0);
             socket 1 (ev_close 0)] sample_connected)
  = [1; 1].
Proof. evaluate. Qed.

(** Three closes in a row, the reconnect timer firing after each: the
    timer set by every one of them has a delay of 1000 ms. *)
Example consecutive_closes_schedule_the_base :
  timers (@run sample_platform [socket 0 (ev_close 0)] sample_connected)
  = [{| delay := 1000; callback := cb_onReconnect |}] /\
  timers (@run sample_platform
            [socket 0 (ev_close 0); timer_fires 0; socket 1 (ev_close 0)]
            sample_connected)
  = [{| delay := 1000; callback := cb_onReconnect |}] /\
  timers (@run sample_platform
            [socket 0 (ev_close 0); timer_fires 0; socket 1 (ev_close 0);
             timer_fires 0; socket 2 (ev_close 0)]
            sample_connected)
  = [{| delay := 1000; callback := cb_onReconnect |}].
Proof. evaluate. Qed.

Example sample_open_state :
  ws sample_open = Some 0%nat /\ Connector_isConnected sample_open = true /\
  attempts sample_open = [{| sock := Some OPEN; timeout := false; promise := Pending |}].
Proof. evaluate. Qed.

(** ** Frames that fail to decode *)

Lemma callbacks_onError_nonfatal (ks : list nat) (code : option string)
    (message : string) (id : option string) (c : ClawatchConnector) :
  fatal_code code = false ->
  callbacks_onError ks code message id c
  = (Returned tt, clear_timeouts ks c, [Call (onError code message id)]).
Proof.
  intros Hcode. revert c. induction ks as [|k ks IH]; intros c; [done|].
  cbn [callbacks_onError]. unfold cbind at 1. unfold clearTimeout at 1, cmodify at 1.
  unfold cbind at 1. rewrite IH, Hcode. done.
Qed.

Lemma fmap_alter_same {A B} (g : A -> B) (f : A -> A) (k : nat) (l : list A) :
  (forall a, g (f a) = g a) -> g <$> alter f k l = g <$> l.
Proof.
  intros Hg. apply list_eq. intros i.
  rewrite !list_lookup_fmap, list_lookup_alter.
  case_decide; [subst i|done].
  destruct (l !! k); simpl; [by rewrite Hg|done].
Qed.

Lemma transport_view_update_timeout k v c :
  transport_view (update_attempt k (set_timeout v) c) = transport_view c.
Proof.
  destruct c as [w t u hr hd ha wr pi ra mra b mx ats].
  unfold transport_view, update_attempt. simpl.
  by rewrite !fmap_alter_same.
Qed.

Lemma transport_view_clear_timeouts ks c :
  transport_view (clear_timeouts ks c) = transport_view c.
Proof.
  revert c. induction ks as [|k ks IH]; intros c; [done|].
  change (clear_timeouts (k :: ks) c)
    with (clear_timeouts ks (update_attempt k (set_timeout false) c)).
  by rewrite IH, transport_view_update_timeout.
Qed.

Lemma sock_state_view (c : ClawatchConnector) (k : nat) :
  sock_state c k = mjoin ((sock <$> attempts c) !! k).
Proof.
  unfold sock_state. rewrite list_lookup_fmap.
  by destruct (attempts c !! k).
Qed.

Lemma isConnected_view (c c' : ClawatchConnector) :
  transport_view c' = transport_view c ->
  Connector_isConnected c' = Connector_isConnected c.
Proof.
  unfold transport_view. intros [= Hws Hsock _ _].
  unfold Connector_isConnected, ws_readyState. rewrite Hws.
  destruct (ws c) as [k|]; [|done]. simpl.
  by rewrite !sock_state_view, Hsock.
Qed.

(** C7: a wire payload that [JSON.parse] rejects makes the message handler
    return normally, invoke the error callback exactly once, with code
    [invalid_frame], and do nothing else to the outside; the socket handle,
    every socket's state, every promise and the heartbeat stay as they
    were, so the connection is not closed. *)
Theorem invalid_json_is_nonfatal `{Platform} (c : ClawatchConnector)
    (k : nat) (data : string) (e : Thrown) :
  JSON_parse data = Threw e ->
  let r := onmessage k data c in
  result_of r = Returned tt /\
  effects_of r = [Call (onError (Some "invalid_frame") "Invalid JSON from server" None)] /\
  transport_view (state_of r) = transport_view c /\
  Connector_isConnected (state_of r) = Connector_isConnected c.
Proof.
  intros Hparse r.
  assert (Hr : r = (Returned tt, clear_timeouts (wrappers c) c,
                    [Call (onError (Some "invalid_frame") "Invalid JSON from server" None)])).
  { unfold r, onmessage, ctry, cbind at 1, clift. rewrite Hparse.
    unfold cbind, cget. by rewrite callbacks_onError_nonfatal. }
  rewrite Hr. unfold result_of, effects_of, state_of. simpl.
  split; [done|]. split; [done|].
  split; [apply transport_view_clear_timeouts|].
  apply isConnected_view, transport_view_clear_timeouts.
Qed.

Lemma invalid_json_is_nonfatal_witness :
  @JSON_parse sample_platform "not json" = Threw (JsError "Unexpected token in JSON" None) /\
  result_of (@onmessage sample_platform 0 "not json" sample_open) = Returned tt /\
  effects_of (@onmessage sample_platform 0 "not json" sample_open)
  = [Call (onError (Some "invalid_frame") "Invalid JSON from server" None)] /\
  transport_view (state_of (@onmessage sample_platform 0 "not json" sample_open))
  = transport_view sample_open /\
  Connector_isConnected (state_of (@onmessage sample_platform 0 "not json" sample_open))
  = Connector_isConnected sample_open.
Proof.
  assert (Hparse : @JSON_parse sample_platform "not json"
                   = Threw (JsError "Unexpected token in JSON" None)).
  { vm_compute. reflexivity. }
  split; [exact Hparse|].
  exact (@invalid_json_is_nonfatal sample_platform sample_open 0 "not json"
           (JsError "Unexpected token in JSON" None) Hparse).
Defined.

(** ** Disconnecting *)

Lemma Connector_disconnect_spec (c : ClawatchConnector) :
  result_of (Connector_disconnect c) = Returned tt /\
  effects_of (Connector_disconnect c) = [] /\
  pingInterval (state_of (Connector_disconnect c)) = false /\
  ws (state_of (Connector_disconnect c)) = None /\
  Connector_isConnected (state_of (Connector_disconnect c)) = false /\
  (forall k, ws c = Some k ->
     sock_state (state_of (Connector_disconnect c)) k = close_state <$> sock_state c k) /\
  (forall k, ws c ≠ Some k ->
     sock_state (state_of (Connector_disconnect c)) k = sock_state c k).
Proof.
  destruct c as [w t u hr hd ha wr pi ra mra b mx ats].
  assert (Hclose : forall k,
    (alter (fun a => set_sock (close_state <$> sock a) a) k ats !! k) ≫= sock
    = close_state <$> (ats !! k ≫= sock)).
  { intros k. rewrite list_lookup_alter_eq. by destruct (ats !! k) as [[[]]|]. }
  assert (Hother : forall j k, j ≠ k ->
    (alter (fun a => set_sock (close_state <$> sock a) a) j ats !! k) ≫= sock
    = ats !! k ≫= sock).
  { intros j k Hjk. by rewrite list_lookup_alter_ne. }
  destruct pi, w as [j|]; unfold Connector_isConnected, sock_state;
    (repeat split; try done);
    intros k Hk; simpl in *; simplify_eq; auto.
Qed.

Lemma on_connector_disconnect `{Platform} (w : World) (c : nat) :
  on_connector c Connector_disconnect w
  = match heap w !! c with
    | Some (cn, o) =>
        (Some (Returned tt),
         set_heap (<[c := (state_of (Connector_disconnect cn), o)]> (heap w)) w)
    | None => (None, w)
    end.
Proof.
  unfold on_connector. destruct (heap w !! c) as [[cn o]|]; [|done].
  destruct (Connector_disconnect_spec cn) as (Hr & He & _).
  unfold result_of, effects_of, state_of in *.
  destruct (Connector_disconnect cn) as [[r cn'] es]. simpl in *. by subst.
Qed.

Lemma disconnect_spec `{Platform} (w : World) :
  (disconnect w).1 = Returned tt /\
  disconnecting (disconnect w).2 = true /\
  connector (disconnect w).2 = None /\
  pairedWatches (disconnect w).2 = [] /\
  sessionKeyToImei (disconnect w).2 = ∅ /\
  isConnected (disconnect w).2 = false.
Proof.
  pose proof (on_connector_disconnect (set_disconnecting true w)) as Hon.
  unfold disconnect, isConnected. simpl in *.
  destruct (connector w) as [c|]; simpl; [|done].
  rewrite (Hon c). by destruct (heap w !! c) as [[cn o]|].
Qed.

(** C8: [disconnect()] never throws, on the connector or on the runtime,
    whatever the state (never connected, connected, already disconnected);
    after one or more calls in a row [isConnected()] is false; each call on
    a connector leaves the heartbeat timer stopped and the socket handle
    cleared, and has closed the socket the handle pointed to, if any. *)
Theorem disconnect_idempotent_safe `{Platform} (c : ClawatchConnector)
    (w : World) (n : nat) :
  let c' := Nat.iter (S n) (fun c => state_of (Connector_disconnect c)) c in
  let w' := Nat.iter (S n) (fun w => (disconnect w).2) w in
  (forall c0, result_of (Connector_disconnect c0) = Returned tt) /\
  (forall w0, (disconnect w0).1 = Returned tt) /\
  Connector_isConnected c' = false /\
  isConnected w' = false /\
  pingInterval c' = false /\ ws c' = None /\
  (forall c0 k, ws c0 = Some k ->
     sock_state (state_of (Connector_disconnect c0)) k = close_state <$> sock_state c0 k) /\
  state_of (Connector_disconnect c') = c' /\
  connector w' = None.
Proof.
  intros c' w'.
  set (c1 := Nat.iter n (fun c => state_of (Connector_disconnect c)) c).
  set (w1 := Nat.iter n (fun w => (disconnect w).2) w).
  assert (Hc : c' = state_of (Connector_disconnect c1)) by done.
  assert (Hw : w' = (disconnect w1).2) by done.
  destruct (Connector_disconnect_spec c1) as (_ & _ & Hpi & Hws & Hcon & _).
  rewrite <- Hc in Hpi, Hws, Hcon.
  split; [intros c0; apply Connector_disconnect_spec|].
  split; [intros w0; apply disconnect_spec|].
  split; [done|]. split; [rewrite Hw; apply disconnect_spec|].
  split; [done|]. split; [done|].
  split; [intros c0; apply Connector_disconnect_spec|].
  split; [|rewrite Hw; apply disconnect_spec].
  destruct c' as [w0 t u hr hd ha wr pi ra mra b mx ats].
  simpl in Hpi, Hws. by subst.
Qed.

Example disconnect_never_connected (cfg : ClawatchConfig) :
  @disconnect sample_platform (createClawatchRuntime cfg)
  = (Returned tt, set_disconnecting true (createClawatchRuntime cfg)).
Proof. reflexivity. Qed.

(** ** The roster *)

Lemma run_effects_app `{Platform} (c : nat) (es1 es2 : list Effect) (w : World) :
  run_effects c (es1 ++ es2) w = run_effects c es2 (run_effects c es1 w).
Proof. apply foldl_app. Qed.

Lemma connect_settled_roster (c k : nat) (st : PromiseState) (w : World) :
  pairedWatches (connect_settled c k st w) = pairedWatches w.
Proof.
  unfold connect_settled, doConnect_rejected, log, add_timer.
  repeat case_match; done.
Qed.

Lemma run_settled_roster `{Platform} (c : nat) (es : list Effect) (w : World) :
  Forall is_settled es -> pairedWatches (run_effects c es w) = pairedWatches w.
Proof.
  intros Hes. revert w. induction Hes as [|e es He _ IH]; intros w; [done|].
  change (run_effects c (e :: es) w) with (run_effects c es (run_effect c e w)).
  rewrite IH. destruct e; try done. apply connect_settled_roster.
Qed.

Lemma settle_shape (k : nat) (st : PromiseState) (c : ClawatchConnector) :
  exists c' es, settle k st c = (Returned tt, c', es) /\ Forall is_settled es.
Proof.
  unfold settle, cbind, cget.
  destruct (promise <$> attempts c !! k) as [[]|]; simpl; eauto.
  do 2 eexists. split; [done|]. by repeat constructor.
Qed.

Lemma startPing_shape (c : ClawatchConnector) :
  startPing c = (Returned tt, set_pingInterval true c, []).
Proof. by destruct c as [w t u hr hd ha wr [] ra mra b mx ats]. Qed.

Lemma callbacks_onRegistered_shape (ks : list nat) (watches : list WatchInfo)
    (c : ClawatchConnector) :
  exists c' ss,
    callbacks_onRegistered ks watches c
    = (Returned tt, c', Call (onRegistered watches) :: ss) /\ Forall is_settled ss.
Proof.
  revert c. induction ks as [|k ks IH]; intros c.
  - by exists c, [].
  - cbn [callbacks_onRegistered]. unfold cbind at 1, clearTimeout at 1, cmodify at 1.
    unfold cbind at 1. rewrite startPing_shape.
    unfold cbind at 1.
    destruct (IH (set_pingInterval true (update_attempt k (set_timeout false) c)))
      as (c1 & ss & -> & Hss).
    destruct (settle_shape k Fulfilled c1) as (c2 & es & Hs & Hes).
    unfold resolve. rewrite Hs. simpl.
    exists c2, (ss ++ es). split; [done|]. by apply Forall_app.
Qed.

Lemma roster_copy (watches : list WatchInfo) :
  (fun x => {| wi_imei := wi_imei x; wi_label := wi_label x |}) <$> watches = watches.
Proof. induction watches as [|[] ? IH]; [done|]. simpl. by f_equal. Qed.

Lemma receive_registered `{Platform} (w : World) (c : nat) (watches : list WatchInfo) :
  is_Some (heap w !! c) ->
  pairedWatches (receive c (RegisteredFrame watches) w) = watches.
Proof.
  intros [[cn o] Hc]. unfold receive, on_connector. rewrite Hc.
  unfold handleFrame, cbind at 1, cget.
  destruct (callbacks_onRegistered_shape (wrappers cn) watches cn)
    as (c' & ss & -> & Hss).
  cbn [snd app].
  rewrite (run_effects_app c [Call (onRegistered watches)] ss).
  rewrite run_settled_roster by done.
  simpl. apply roster_copy.
Qed.

Lemma receive_unbound `{Platform} (w : World) (c : nat) (imei : string)
    (reason : option string) :
  is_Some (heap w !! c) ->
  pairedWatches (receive c (UnboundFrame imei reason) w)
  = filter (fun x => wi_imei x ≠ imei) (pairedWatches w).
Proof. intros [[cn o] Hc]. unfold receive, on_connector. by rewrite Hc. Qed.

(** Effects never touch the closure variables [connector] and
    [disconnecting], nor the connector objects. *)
Lemma run_effect_frame `{Platform} (c : nat) (e : Effect) (w : World) :
  heap (run_effect c e w) = heap w /\
  connector (run_effect c e w) = connector w /\
  disconnecting (run_effect c e w) = disconnecting w /\
  config (run_effect c e w) = config w.
Proof.
  destruct e as [[]| | |]; try done.
  unfold run_effect, connect_settled, doConnect_rejected, log, add_timer.
  repeat case_match; done.
Qed.

Lemma run_effects_frame `{Platform} (c : nat) (es : list Effect) (w : World) :
  heap (run_effects c es w) = heap w /\
  connector (run_effects c es w) = connector w /\
  disconnecting (run_effects c es w) = disconnecting w /\
  config (run_effects c es w) = config w.
Proof.
  revert w. induction es as [|e es IH]; intros w; [done|].
  change (run_effects c (e :: es) w) with (run_effects c es (run_effect c e w)).
  destruct (IH (run_effect c e w)) as (-> & -> & -> & ->).
  apply run_effect_frame.
Qed.

Lemma on_connector_heap `{Platform} {A} (c : nat) (m : CM A) (w : World)
    (cn : ClawatchConnector) (o : Origin) :
  heap w !! c = Some (cn, o) ->
  heap (on_connector c m w).2 = <[c := (state_of (m cn), o)]> (heap w) /\
  connector (on_connector c m w).2 = connector w /\
  disconnecting (on_connector c m w).2 = disconnecting w.
Proof.
  intros Hc. unfold on_connector, state_of. rewrite Hc.
  destruct (m cn) as [[r cn'] es]. cbn [snd fst].
  destruct (run_effects_frame c es (set_heap (<[c:=(cn', o)]> (heap w)) w))
    as (-> & -> & -> & _).
  done.
Qed.

Lemma receive_heap `{Platform} (w : World) (c : nat) (frame : Frame) :
  is_Some (heap w !! c) -> is_Some (heap (receive c frame w) !! c).
Proof.
  intros [[cn o] Hc]. unfold receive.
  destruct (on_connector_heap c (handleFrame frame) w cn o Hc) as (-> & _).
  rewrite list_lookup_insert_eq; [done|]. by eapply lookup_lt_Some.
Qed.

Lemma filter_all {A} (P : A -> Prop) `{forall x, Decision (P x)} (l : list A) :
  (forall x, x ∈ l -> P x) -> filter P l = l.
Proof.
  induction l as [|a l IH]; intros Hall; [done|].
  rewrite filter_cons_True by (apply Hall; left).
  f_equal. apply IH. intros x Hx. apply Hall. by right.
Qed.

(** C6: a Registered frame makes the roster exactly the watches it
    carries, whatever it was; an Unbound frame removes the entries with the
    given IMEI and nothing else, and leaves the roster as it is when no
    entry has that IMEI; a Registered frame with the one watch
    860000035452456 followed by an Unbound frame for it leaves the roster
    empty. *)
Theorem roster_maintenance `{Platform} (w : World) (c : nat)
    (watches : list WatchInfo) (imei : string) (reason : option string) :
  is_Some (heap w !! c) ->
  pairedWatches (receive c (RegisteredFrame watches) w) = watches /\
  pairedWatches (receive c (UnboundFrame imei reason) w)
    = filter (fun x => wi_imei x ≠ imei) (pairedWatches w) /\
  (forall x, x ∈ pairedWatches (receive c (UnboundFrame imei reason) w) <->
             x ∈ pairedWatches w /\ wi_imei x ≠ imei) /\
  ((forall x, x ∈ pairedWatches w -> wi_imei x ≠ imei) ->
   pairedWatches (receive c (UnboundFrame imei reason) w) = pairedWatches w) /\
  pairedWatches
    (receive c (UnboundFrame "860000035452456" reason)
       (receive c (RegisteredFrame [{| wi_imei := "860000035452456"; wi_label := None |}]) w))
  = [].
Proof.
  intros Hc.
  split; [by apply receive_registered|].
  split; [by apply receive_unbound|].
  split; [|split].
  - intros x. rewrite receive_unbound by done.
    rewrite list_elem_of_filter. tauto.
  - intros Hno. rewrite receive_unbound by done.
    by apply filter_all.
  - rewrite receive_unbound by (by apply receive_heap).
    rewrite receive_registered by done. reflexivity.
Qed.

Lemma roster_maintenance_witness :
  is_Some (heap sample_connected !! 0%nat) /\
  pairedWatches
    (@receive sample_platform 0
       (RegisteredFrame [{| wi_imei := "860000035452456"; wi_label := None |}])
       sample_connected)
  = [{| wi_imei := "860000035452456"; wi_label := None |}] /\
  pairedWatches
    (@receive sample_platform 0 (UnboundFrame "860000035452456" None)
       (@receive sample_platform 0
          (RegisteredFrame [{| wi_imei := "860000035452456"; wi_label := None |}])
          sample_connected))
  = [].
Proof.
  assert (Hc : is_Some (heap sample_connected !! 0%nat)).
  { vm_compute. by eexists. }
  split; [exact Hc|].
  pose proof (@roster_maintenance sample_platform sample_connected 0
                [{| wi_imei := "860000035452456"; wi_label := None |}]
                "860000035452456" None Hc) as (Hreg & _ & _ & _ & Hboth).
  split; [exact Hreg | exact Hboth].
Defined.

Example sample_registered_state :
  pairedWatches sample_registered = [{| wi_imei := sample_imei; wi_label := None |}] /\
  isConnected sample_registered = true /\
  wire sample_registered
  = [(0, 0, RegisterFrame "token" "openclaw-clawatch" "0.1.22")]%nat /\
  outcomes sample_registered = [Returned tt].
Proof. evaluate. Qed.

(** ** Sending *)

Lemma isConnected_open_socket (w : World) :
  isConnected w = true <-> is_Some (open_socket w).
Proof.
  unfold isConnected, open_socket, Connector_isConnected, ws_readyState.
  destruct (connector w) as [c|]; simpl; [|by split; [|intros []]].
  destruct (heap w !! c) as [[cn o]|]; simpl; [|by split; [|intros []]].
  destruct (ws cn) as [k|]; simpl.
  - case_decide as Hk.
    + rewrite Hk. by split.
    + split; [|by intros []].
      intros Hd%bool_decide_eq_true.
      destruct (sock_state cn k); simpl in *; congruence.
  - by split; [|intros []].
Qed.

Lemma isConnected_false_open_socket (w : World) :
  isConnected w = false <-> open_socket w = None.
Proof.
  pose proof (isConnected_open_socket w) as Hw.
  destruct (isConnected w), (open_socket w) as [p|].
  - done.
  - destruct (proj1 Hw eq_refl). done.
  - destruct Hw as [_ Hw]. by discriminate Hw.
  - done.
Qed.

Lemma set_heap_same (w : World) (c : nat) (x : ClawatchConnector * Origin) :
  heap w !! c = Some x -> set_heap (<[c := x]> (heap w)) w = w.
Proof. intros Hc. rewrite list_insert_id by done. by destruct w. Qed.

(** [connector?.send(frame)] puts the frame on the open socket of the
    current connector and does nothing when there is none. *)
Lemma connector_send_spec `{Platform} (frame : Frame) (w : World) :
  connector_send frame w
  = match open_socket w with
    | Some (c, k) => set_wire (wire w ++ [(c, k, frame)]) w
    | None => w
    end.
Proof.
  unfold connector_send, open_socket, on_connector.
  destruct (connector w) as [c|]; simpl; [|done].
  destruct (heap w !! c) as [[cn o]|] eqn:Hc; simpl; [|done].
  unfold send, cbind, cget. destruct (ws cn) as [k|]; simpl.
  - case_decide; simpl; unfold run_effects; simpl; by rewrite set_heap_same.
  - unfold run_effects. simpl. by rewrite set_heap_same.
Qed.

Lemma paired_existsb (imei : string) (l : list WatchInfo) :
  existsb (fun x => bool_decide (wi_imei x = imei)) l = true
  <-> exists x, x ∈ l /\ wi_imei x = imei.
Proof.
  rewrite existsb_exists. split; intros (x & Hx & Hi); exists x.
  - by rewrite list_elem_of_In, <- (bool_decide_eq_true (wi_imei x = imei)).
  - by rewrite <- list_elem_of_In, (bool_decide_eq_true (wi_imei x = imei)).
Qed.

Lemma sendPush_disconnected `{Platform} (w : World) (now : Z) (rnd imei text : string) :
  isConnected w = false ->
  sendPush now rnd imei text w = (Threw (JsError "Clawatch not connected" None), w).
Proof. intros Hw. unfold sendPush. by rewrite Hw. Qed.

Lemma sendPush_unpaired `{Platform} (w : World) (now : Z) (rnd imei text : string) :
  isConnected w = true ->
  (forall x, x ∈ pairedWatches w -> wi_imei x ≠ imei) ->
  sendPush now rnd imei text w
  = (Threw (JsError ("IMEI " +:+ imei +:+ " not paired") None), w).
Proof.
  intros Hw Hno. unfold sendPush. rewrite Hw. simpl.
  destruct (existsb _ (pairedWatches w)) eqn:Hex; [|done].
  apply paired_existsb in Hex as (x & Hx & Hi). by destruct (Hno x Hx).
Qed.

Lemma sendPush_paired `{Platform} (w : World) (now : Z) (rnd imei text : string) :
  isConnected w = true ->
  (exists x, x ∈ pairedWatches w /\ wi_imei x = imei) ->
  exists c k,
    open_socket w = Some (c, k) /\
    sendPush now rnd imei text w
    = (Returned tt,
       set_wire (wire w ++ [(c, k, PushFrame (fresh_id "push" now rnd) imei text)]) w).
Proof.
  intros Hw Hex. unfold sendPush. rewrite Hw. simpl.
  apply paired_existsb in Hex. rewrite Hex. simpl.
  apply isConnected_open_socket in Hw as [[c k] Hck].
  exists c, k. split; [done|]. by rewrite connector_send_spec, Hck.
Qed.

Lemma append_cancel_l (p s t : string) : p +:+ s = p +:+ t -> s = t.
Proof.
  induction p as [|c p IH]; [done|].
  rewrite !append_cons. intros [= Heq]. by apply IH.
Qed.

Lemma pretty_N_go_digits (x : N) (s : string) :
  all_digits s = true -> all_digits (pretty_N_go x s) = true.
Proof.
  revert s. induction (N.lt_wf_0 x) as [x _ IH]; intros s Hs.
  destruct (decide (x = 0%N)) as [->|Hx]; [by rewrite pretty_N_go_0|].
  rewrite pretty_N_go_step by lia. apply IH; [apply N.div_lt; lia|].
  simpl. rewrite Hs, andb_true_r.
  unfold pretty_N_char. by repeat case_match.
Qed.

Lemma pretty_Z_digits (z : Z) : 0 <= z -> all_digits (pretty z) = true.
Proof.
  intros Hz. destruct z as [|p|p]; [done| |lia].
  unfold pretty, pretty_Z, pretty, pretty_positive, pretty, pretty_N.
  case_decide; [done|]. by apply pretty_N_go_digits.
Qed.

(** Two texts of digits, each followed by a dash: where the first dash
    stands decides both parts. *)
Lemma digits_dash_split (a a' r r' : string) :
  all_digits a = true -> all_digits a' = true ->
  a +:+ "-" +:+ r = a' +:+ "-" +:+ r' -> a = a' /\ r = r'.
Proof.
  revert a'. induction a as [|c a IH]; intros [|c' a'] Ha Ha' Heq;
    simpl in Heq, Ha, Ha'.
  - injection Heq as Hr. by subst.
  - injection Heq as Hc _. subst c'. by apply andb_prop in Ha' as [? _].
  - injection Heq as Hc _. subst c. by apply andb_prop in Ha as [? _].
  - injection Heq as Hc Heq. subst c'.
    apply andb_prop in Ha as [_ Ha]. apply andb_prop in Ha' as [_ Ha'].
    by destruct (IH a' Ha Ha' Heq) as [-> ->].
Qed.

(** The identifier of a call determines the clock value the call read and
    the digits it drew. *)
Lemma fresh_id_inj (tag : string) (now now' : Z) (rnd rnd' : string) :
  0 <= now -> 0 <= now' ->
  fresh_id tag now rnd = fresh_id tag now' rnd' ->
  now = now' /\ String.substring 2 7 rnd = String.substring 2 7 rnd'.
Proof.
  intros Hn Hn' Heq. unfold fresh_id in Heq.
  apply append_cancel_l in Heq. simpl in Heq. injection Heq as Heq.
  apply digits_dash_split in Heq as [Hp Hr]; [|by apply pretty_Z_digits..].
  split; [|done]. by apply (inj pretty).
Qed.

(** C4: [sendPush] throws at once, leaving the runtime and the wire as
    they were, when the session is not connected and when it is connected
    but no roster entry has the IMEI; after a Registered frame that carries
    the IMEI, on a connected session, the same call returns and puts
    exactly one frame on the open socket: a Push frame with that IMEI,
    the text and the identifier made from this call's clock reading and
    random draw. The identifier is fresh: another call carries the same
    one only if it reads the same clock value and draws the same digits. *)
Theorem sendPush_preconditions `{Platform} (w : World) (now : Z)
    (rnd imei text : string) :
  (isConnected w = false ->
   sendPush now rnd imei text w = (Threw (JsError "Clawatch not connected" None), w)) /\
  (isConnected w = true ->
   (forall x, x ∈ pairedWatches w -> wi_imei x ≠ imei) ->
   sendPush now rnd imei text w
   = (Threw (JsError ("IMEI " +:+ imei +:+ " not paired") None), w)) /\
  (forall c watches,
     is_Some (heap w !! c) ->
     imei ∈ wi_imei <$> watches ->
     let w1 := receive c (RegisteredFrame watches) w in
     isConnected w1 = true ->
     exists c' k,
       open_socket w1 = Some (c', k) /\
       sendPush now rnd imei text w1
       = (Returned tt,
          set_wire (wire w1 ++ [(c', k, PushFrame (fresh_id "push" now rnd) imei text)]) w1)) /\
  (forall now' rnd',
     0 <= now -> 0 <= now' ->
     fresh_id "push" now rnd = fresh_id "push" now' rnd' ->
     now = now' /\ String.substring 2 7 rnd = String.substring 2 7 rnd').
Proof.
  split; [apply sendPush_disconnected|].
  split; [apply sendPush_unpaired|].
  split; [|intros now' rnd'; apply fresh_id_inj].
  intros c watches Hc Hin w1 Hw1.
  apply sendPush_paired; [done|].
  unfold w1. rewrite receive_registered by done.
  apply list_elem_of_fmap in Hin as (x & -> & Hx). by exists x.
Qed.

Lemma sendPush_preconditions_witness :
  isConnected sample_idle = false /\
  isConnected sample_connected = true /\
  (forall x, x ∈ pairedWatches sample_connected -> wi_imei x ≠ sample_imei) /\
  is_Some (heap sample_connected !! 0%nat) /\
  sample_imei ∈ wi_imei <$> [{| wi_imei := sample_imei; wi_label := None |}] /\
  isConnected
    (@receive sample_platform 0
       (RegisteredFrame [{| wi_imei := sample_imei; wi_label := None |}])
       sample_connected) = true /\
  @sendPush sample_platform 1700000000000 "0.4fzyo82mvyr" sample_imei "stand up" sample_idle
  = (Threw (JsError "Clawatch not connected" None), sample_idle) /\
  @sendPush sample_platform 1700000000000 "0.4fzyo82mvyr" sample_imei "stand up"
    sample_connected
  = (Threw (JsError ("IMEI " +:+ sample_imei +:+ " not paired") None), sample_connected) /\
  exists c k,
    open_socket
      (@receive sample_platform 0
         (RegisteredFrame [{| wi_imei := sample_imei; wi_label := None |}])
         sample_connected) = Some (c, k) /\
    @sendPush sample_platform 1700000000000 "0.4fzyo82mvyr" sample_imei "stand up"
      (@receive sample_platform 0
         (RegisteredFrame [{| wi_imei := sample_imei; wi_label := None |}])
         sample_connected)
    = (Returned tt,
       set_wire
         (wire (@receive sample_platform 0
                  (RegisteredFrame [{| wi_imei := sample_imei; wi_label := None |}])
                  sample_connected)
          ++ [(c, k, PushFrame (fresh_id "push" 1700000000000 "0.4fzyo82mvyr")
                       sample_imei "stand up")])
         (@receive sample_platform 0
            (RegisteredFrame [{| wi_imei := sample_imei; wi_label := None |}])
            sample_connected)).
Proof.
  assert (Hidle : isConnected sample_idle = false) by (vm_compute; reflexivity).
  assert (Hconn : isConnected sample_connected = true) by (vm_compute; reflexivity).
  assert (Hempty : pairedWatches sample_connected = []) by (vm_compute; reflexivity).
  assert (Hnone : forall x, x ∈ pairedWatches sample_connected -> wi_imei x ≠ sample_imei).
  { rewrite Hempty. intros x Hx. inversion Hx. }
  assert (Hc : is_Some (heap sample_connected !! 0%nat)).
  { vm_compute. by eexists. }
  assert (Hin : sample_imei ∈ wi_imei <$> [{| wi_imei := sample_imei; wi_label := None |}]).
  { left. }
  assert (Hreg : isConnected
                   (@receive sample_platform 0
                      (RegisteredFrame [{| wi_imei := sample_imei; wi_label := None |}])
                      sample_connected) = true) by (vm_compute; reflexivity).
  pose proof (@sendPush_preconditions sample_platform sample_idle
                1700000000000 "0.4fzyo82mvyr" sample_imei "stand up") as (H1 & _ & _).
  pose proof (@sendPush_preconditions sample_platform sample_connected
                1700000000000 "0.4fzyo82mvyr" sample_imei "stand up") as (_ & H2 & H3 & _).
  split; [exact Hidle|]. split; [exact Hconn|]. split; [exact Hnone|].
  split; [exact Hc|]. split; [exact Hin|]. split; [exact Hreg|].
  split; [exact (H1 Hidle)|]. split; [exact (H2 Hconn Hnone)|].
  exact (H3 0%nat [{| wi_imei := sample_imei; wi_label := None |}] Hc Hin Hreg).
Defined.

Example sendPush_sample_frame :
  wire (@sendPush sample_platform 1700000000000 "0.4fzyo82mvyr" sample_imei "stand up"
          sample_registered).2
  = [(0%nat, 0%nat, RegisterFrame "token" "openclaw-clawatch" "0.1.22");
     (0%nat, 0%nat, PushFrame "push-1700000000000-4fzyo82" sample_imei "stand up")].
Proof. evaluate. Qed.

(** ** Control commands and IMEI shapes *)

Lemma sendControl_disconnected `{Platform} (w : World) (now : Z)
    (rnd action imei : string) (params : option (list (string * number))) :
  isConnected w = false ->
  sendControl now rnd action imei params w = (Returned tt, w).
Proof.
  intros Hw%isConnected_false_open_socket. unfold sendControl.
  by rewrite connector_send_spec, Hw.
Qed.

(** C5, as amended: while the session is disconnected [sendControl] puts
    no frame on the wire, and its promise is fulfilled, not rejected;
    [sendPush] throws at once, before any frame is sent, when the session
    is disconnected and when the IMEI is not in the roster, hence for every
    IMEI that is not fifteen digits as long as the roster holds only
    fifteen-digit IMEIs. *)
Theorem send_rejections `{Platform} (w : World) (now : Z)
    (rnd action imei text : string) (params : option (list (string * number))) :
  (isConnected w = false ->
   sendControl now rnd action imei params w = (Returned tt, w)) /\
  (isConnected w = false ->
   sendPush now rnd imei text w = (Threw (JsError "Clawatch not connected" None), w)) /\
  (is_imei imei = false ->
   Forall (fun x => is_imei (wi_imei x) = true) (pairedWatches w) ->
   exists e, sendPush now rnd imei text w = (Threw e, w)).
Proof.
  split; [apply sendControl_disconnected|].
  split; [apply sendPush_disconnected|].
  intros Hbad Hroster.
  destruct (isConnected w) eqn:Hw.
  - eexists. apply sendPush_unpaired; [done|].
    intros x Hx Heq. rewrite Forall_forall in Hroster.
    specialize (Hroster x Hx). congruence.
  - eexists. by apply sendPush_disconnected.
Qed.

Lemma send_rejections_witness :
  isConnected sample_idle = false /\
  is_imei "12345" = false /\
  Forall (fun x => is_imei (wi_imei x) = true) (pairedWatches sample_registered) /\
  @sendControl sample_platform 1700000000000 "0.4fzyo82mvyr" "unpair" sample_imei None
    sample_idle
  = (Returned tt, sample_idle) /\
  exists e,
    @sendPush sample_platform 1700000000000 "0.4fzyo82mvyr" "12345" "stand up"
      sample_registered
    = (Threw e, sample_registered).
Proof.
  assert (Hidle : isConnected sample_idle = false) by (vm_compute; reflexivity).
  assert (Hbad : is_imei "12345" = false) by (vm_compute; reflexivity).
  assert (Hlist : pairedWatches sample_registered
                  = [{| wi_imei := sample_imei; wi_label := None |}]).
  { vm_compute. reflexivity. }
  assert (Hroster : Forall (fun x => is_imei (wi_imei x) = true)
                      (pairedWatches sample_registered)).
  { rewrite Hlist. apply Forall_cons. split; [vm_compute; reflexivity|constructor]. }
  pose proof (@send_rejections sample_platform sample_idle 1700000000000
                "0.4fzyo82mvyr" "unpair" sample_imei "" None) as (H1 & _ & _).
  pose proof (@send_rejections sample_platform sample_registered 1700000000000
                "0.4fzyo82mvyr" "unpair" "12345" "stand up" None) as (_ & _ & H3).
  split; [exact Hidle|]. split; [exact Hbad|]. split; [exact Hroster|].
  split; [exact (H1 Hidle)|exact (H3 Hbad Hroster)].
Defined.

(** C5 as stated fails twice: on a disconnected session [sendControl] does
    not reject, its promise is fulfilled; and on a connected session a
    control command with the IMEI [12345], which is not fifteen digits,
    is put on the wire. *)
Lemma send_rejections_counterexample :
  isConnected sample_idle = false /\
  (@sendControl sample_platform 1700000000000 "0.4fzyo82mvyr" "unpair" sample_imei None
     sample_idle).1
  = Returned tt /\
  is_imei "12345" = false /\
  @sendControl sample_platform 1700000000000 "0.4fzyo82mvyr" "set_interval" "12345"
    (Some [("intervalSec", 60)]) sample_registered
  = (Returned tt,
     set_wire
       (wire sample_registered
        ++ [(0%nat, 0%nat,
             ControlFrame "ctrl-1700000000000-4fzyo82" "set_interval" "12345"
               (Some [("intervalSec", 60)]))])
       sample_registered).
Proof. evaluate. Qed.

(** ** Replies to inbound messages *)

Lemma receive_message `{Platform} (w : World) (c : nat) (m i t : string)
    (ts : option number) (cmd : option bool) (ctx : option MessageContext) :
  is_Some (heap w !! c) ->
  handlerCalls (receive c (InboundMessageFrame m i t ts cmd ctx) w)
  = handlerCalls w ++
      [{| hc_msgId := m; hc_imei := i; hc_text := t;
          hc_sessionKey := getSessionKey (default "watch:" (sessionKeyPrefix (config w))) i;
          hc_context := ctx |}].
Proof.
  intros [[cn o] Hc]. unfold receive, on_connector. rewrite Hc.
  unfold handleFrame, cbind, cget, run_effects. by destruct (has_onDebug cn).
Qed.

Lemma handler_then_wire `{Platform} (hc : HandlerCall) (r : string) (w : World) :
  wire (handler_then hc r w)
  = match open_socket w with
    | Some (c, k) => wire w ++ [(c, k, ReplyFrame (hc_msgId hc) r true)]
    | None => wire w
    end.
Proof.
  unfold handler_then. rewrite connector_send_spec.
  change (open_socket (log _ w)) with (open_socket w).
  by destruct (open_socket w) as [[c k]|].
Qed.

Lemma handler_catch_wire `{Platform} (hc : HandlerCall) (err : Thrown) (w : World) :
  wire (handler_catch hc err w)
  = match open_socket w with
    | Some (c, k) =>
        wire w ++ [(c, k, ErrorFrame (Some "agent_error") (errMsg_of err) (Some (hc_msgId hc)))]
    | None => wire w
    end.
Proof.
  unfold handler_catch. rewrite connector_send_spec.
  change (open_socket (log _ w)) with (open_socket w).
  by destruct (open_socket w) as [[c k]|].
Qed.

(** C1, as amended: an inbound Message frame with id [m] makes the runtime
    call the injected handler once, with [m], the IMEI and the text. When
    that call resolves with [r] while the current connector has an open
    socket, exactly one frame goes on that socket, the Reply frame with id
    [m], text [r] and [done = true], and no Error frame; when it rejects
    with an error whose message is [e], exactly one frame goes out, the
    Error frame with id [m], code [agent_error] and message [e], and no
    Reply frame. When there is no open socket at that moment, nothing is
    sent. *)
Theorem reply_correlation `{Platform} (w : World) (c : nat) (m i t : string)
    (ts : option number) (cmd : option bool) (ctx : option MessageContext) :
  is_Some (heap w !! c) ->
  exists hc,
    handlerCalls (receive c (InboundMessageFrame m i t ts cmd ctx) w)
    = handlerCalls w ++ [hc] /\
    hc_msgId hc = m /\ hc_imei hc = i /\ hc_text hc = t /\
    forall (w' : World) (r e : string) (stack : option string),
      match open_socket w' with
      | Some (c', k) =>
          wire (handler_then hc r w') = wire w' ++ [(c', k, ReplyFrame m r true)] /\
          wire (handler_catch hc (JsError e stack) w')
          = wire w' ++ [(c', k, ErrorFrame (Some "agent_error") e (Some m))]
      | None =>
          wire (handler_then hc r w') = wire w' /\
          wire (handler_catch hc (JsError e stack) w') = wire w'
      end.
Proof.
  intros Hc. eexists. split; [by apply receive_message|].
  repeat split. intros w' r e stack.
  rewrite handler_then_wire, handler_catch_wire.
  by destruct (open_socket w') as [[c' k]|].
Qed.

Lemma reply_correlation_witness :
  is_Some (heap sample_registered !! 0%nat) /\
  open_socket sample_registered = Some (0%nat, 0%nat) /\
  exists hc,
    handlerCalls
      (@receive sample_platform 0
         (InboundMessageFrame "m1" "860000035452456" "hello" None None None)
         sample_registered)
    = handlerCalls sample_registered ++ [hc] /\
    hc_msgId hc = "m1" /\
    wire (@handler_then sample_platform hc "hi there" sample_registered)
    = wire sample_registered ++ [(0%nat, 0%nat, ReplyFrame "m1" "hi there" true)] /\
    wire (@handler_catch sample_platform hc (JsError "boom" None) sample_registered)
    = wire sample_registered
      ++ [(0%nat, 0%nat, ErrorFrame (Some "agent_error") "boom" (Some "m1"))].
Proof.
  assert (Hc : is_Some (heap sample_registered !! 0%nat)).
  { vm_compute. by eexists. }
  assert (Hopen : open_socket sample_registered = Some (0%nat, 0%nat)).
  { vm_compute. reflexivity. }
  split; [exact Hc|]. split; [exact Hopen|].
  destruct (@reply_correlation sample_platform sample_registered 0
              "m1" "860000035452456" "hello" None None None Hc)
    as (hc & Hcalls & Hid & _ & _ & Hsend).
  exists hc. split; [exact Hcalls|]. split; [exact Hid|].
  pose proof (Hsend sample_registered "hi there" "boom" None) as Hs.
  rewrite Hopen in Hs. exact Hs.
Defined.

(** C1 as stated fails when the transport has closed by the time the
    handler settles: the message [m1] arrives, the socket closes, the
    handler then resolves with [hi there] (or rejects with [boom]), and
    the only frame ever sent is the Register frame of the handshake. *)
Lemma reply_correlation_counterexample :
  hc_msgId <$> handlerCalls sample_received = ["m1"] /\
  isConnected sample_received = true /\
  isConnected sample_dropped = false /\
  wire (@run sample_platform [handler_resolves 0 "hi there"] sample_dropped)
  = [(0%nat, 0%nat, RegisterFrame "token" "openclaw-clawatch" "0.1.22")] /\
  wire (@run sample_platform [handler_rejects 0 (JsError "boom" None)] sample_dropped)
  = [(0%nat, 0%nat, RegisterFrame "token" "openclaw-clawatch" "0.1.22")].
Proof. evaluate. Qed.

(** ** The reconnect hook after [disconnect()] *)

Lemma on_connector_frame `{Platform} {A} (c : nat) (m : CM A) (w : World) :
  connector (on_connector c m w).2 = connector w /\
  disconnecting (on_connector c m w).2 = disconnecting w /\
  length (heap (on_connector c m w).2) = length (heap w).
Proof.
  destruct (heap w !! c) as [[cn o]|] eqn:Hc.
  - destruct (on_connector_heap c m w cn o Hc) as (-> & -> & ->).
    by rewrite length_insert.
  - unfold on_connector. by rewrite Hc.
Qed.

Lemma connector_send_frame `{Platform} (frame : Frame) (w : World) :
  connector (connector_send frame w) = connector w /\
  disconnecting (connector_send frame w) = disconnecting w /\
  heap (connector_send frame w) = heap w.
Proof.
  rewrite connector_send_spec. by destruct (open_socket w) as [[c k]|].
Qed.

Lemma attemptReconnect_disconnecting `{Platform} (w : World) :
  disconnecting w = true ->
  attemptReconnect w = w /\ manual_reconnect w = w /\ retry_reconnect w = w.
Proof.
  intros Hd. unfold manual_reconnect, retry_reconnect, attemptReconnect.
  by rewrite Hd.
Qed.

Lemma run_timer_disconnecting `{Platform} (cb : TimerCallback) (w : World) :
  disconnecting w = true -> run_timer cb w = w.
Proof.
  intros Hd. destruct (attemptReconnect_disconnecting w Hd) as (? & ? & ?).
  by destruct cb.
Qed.

Lemma step_keeps_disconnected `{Platform} (ev : Event) (w : World) :
  ev ≠ api_connect ->
  disconnecting w = true -> connector w = None ->
  disconnecting (step ev w) = true /\ connector (step ev w) = None /\
  length (heap (step ev w)) = length (heap w).
Proof.
  intros Hev Hd Hc. destruct ev; try done; simpl.
  - pose proof (disconnect_spec w) as (_ & ? & ? & _).
    split; [done|]. split; [done|].
    unfold disconnect. rewrite Hc. done.
  - unfold sendReply.
    destruct (connector_send_frame (ReplyFrame id text done) w) as (-> & -> & ->). done.
  - destruct (connector_send_frame
                (ControlFrame (fresh_id "ctrl" now rnd) action imei params) w)
      as (-> & -> & ->). done.
  - unfold sendPush. destruct (negb (isConnected w)); [done|].
    destruct (negb _); [done|]. simpl.
    destruct (connector_send_frame
                (PushFrame (fresh_id "push" now rnd) imei text) w) as (-> & -> & ->). done.
  - destruct (on_connector_frame c (deliver e) w) as (-> & -> & ->). done.
  - destruct (timers w !! n) as [t|]; [|done].
    by rewrite run_timer_disconnecting.
  - destruct (handlerCalls w !! n) as [hc|]; [|done].
    unfold handler_then.
    destruct (connector_send_frame (ReplyFrame (hc_msgId hc) replyText true)
                (log (info ("Clawatch sending reply: id=" +:+ hc_msgId hc +:+ " imei="
                       +:+ hc_imei hc +:+ " text=" +:+ slice_0_50 replyText) []) w))
      as (-> & -> & ->). done.
  - destruct (handlerCalls w !! n) as [hc|]; [|done].
    unfold handler_catch.
    destruct (connector_send_frame
                (ErrorFrame (Some "agent_error") (errMsg_of err) (Some (hc_msgId hc)))
                (log (error ("Clawatch message error: " +:+ errMsg_of err) [errStack_of err]) w))
      as (-> & -> & ->). done.
Qed.

Lemma run_keeps_disconnected `{Platform} (evs : list Event) (w : World) :
  Forall (fun ev => ev ≠ api_connect) evs ->
  disconnecting w = true -> connector w = None ->
  disconnecting (run evs w) = true /\ connector (run evs w) = None /\
  length (heap (run evs w)) = length (heap w).
Proof.
  intros Hevs. revert w. induction Hevs as [|ev evs Hev _ IH]; intros w Hd Hc; [done|].
  destruct (step_keeps_disconnected ev w Hev Hd Hc) as (Hd' & Hc' & Hl').
  destruct (IH (step ev w) Hd' Hc') as (? & ? & Hl).
  change (run (ev :: evs) w) with (run evs (step ev w)).
  repeat split; [done..|]. by rewrite Hl.
Qed.

(** C9: [disconnect()] sets the flag and clears the connector reference;
    from then on, whatever else happens to the runtime short of a new
    [connect()] call, the flag stays set, the reference stays null and no
    connector is constructed; and in every such state the reconnect hook,
    the manual fallback and the delayed retry, run any number of times in
    any order, return the runtime exactly as they found it. *)
Theorem reconnect_hook_noop_after_disconnect `{Platform} (w0 : World)
    (evs : list Event) (hooks : list TimerCallback) :
  Forall (fun ev => ev ≠ api_connect) evs ->
  let w := run evs (disconnect w0).2 in
  disconnecting w = true /\ connector w = None /\
  length (heap w) = length (heap w0) /\
  attemptReconnect w = w /\ manual_reconnect w = w /\ retry_reconnect w = w /\
  foldl (fun w cb => run_timer cb w) w hooks = w.
Proof.
  intros Hevs w.
  pose proof (disconnect_spec w0) as (_ & Hd0 & Hc0 & _).
  destruct (run_keeps_disconnected evs _ Hevs Hd0 Hc0) as (Hd & Hc & Hl).
  fold w in Hd, Hc, Hl.
  destruct (attemptReconnect_disconnecting w Hd) as (Ha & Hm & Hr).
  repeat split; try done.
  - rewrite Hl. destruct (on_connector_frame
      (default 0%nat (connector w0)) Connector_disconnect (set_disconnecting true w0))
      as (_ & _ & Hlen).
    unfold disconnect. simpl. destruct (connector w0); simpl in *; [|done].
    exact Hlen.
  - induction hooks as [|cb hooks IH]; [done|].
    simpl. by rewrite run_timer_disconnecting.
Qed.

Lemma reconnect_hook_noop_after_disconnect_witness :
  Forall (fun ev => ev ≠ api_connect) [socket 0 (ev_close 0); timer_fires 0] /\
  disconnecting
    (@run sample_platform [socket 0 (ev_close 0); timer_fires 0]
       (@disconnect sample_platform sample_registered).2) = true /\
  connector
    (@run sample_platform [socket 0 (ev_close 0); timer_fires 0]
       (@disconnect sample_platform sample_registered).2) = None /\
  length (heap (@run sample_platform [socket 0 (ev_close 0); timer_fires 0]
                  (@disconnect sample_platform sample_registered).2))
  = length (heap sample_registered) /\
  @attemptReconnect sample_platform
    (@run sample_platform [socket 0 (ev_close 0); timer_fires 0]
       (@disconnect sample_platform sample_registered).2)
  = @run sample_platform [socket 0 (ev_close 0); timer_fires 0]
      (@disconnect sample_platform sample_registered).2 /\
  @manual_reconnect sample_platform
    (@run sample_platform [socket 0 (ev_close 0); timer_fires 0]
       (@disconnect sample_platform sample_registered).2)
  = @run sample_platform [socket 0 (ev_close 0); timer_fires 0]
      (@disconnect sample_platform sample_registered).2 /\
  @retry_reconnect sample_platform
    (@run sample_platform [socket 0 (ev_close 0); timer_fires 0]
       (@disconnect sample_platform sample_registered).2)
  = @run sample_platform [socket 0 (ev_close 0); timer_fires 0]
      (@disconnect sample_platform sample_registered).2 /\
  foldl (fun w cb => @run_timer sample_platform cb w)
    (@run sample_platform [socket 0 (ev_close 0); timer_fires 0]
       (@disconnect sample_platform sample_registered).2)
    [cb_onReconnect; cb_manual_reconnect; cb_retry_reconnect]
  = @run sample_platform [socket 0 (ev_close 0); timer_fires 0]
      (@disconnect sample_platform sample_registered).2.
Proof.
  assert (Hevs : Forall (fun ev => ev ≠ api_connect)
                   [socket 0 (ev_close 0); timer_fires 0]).
  { by repeat constructor. }
  split; [exact Hevs|].
  exact (@reconnect_hook_noop_after_disconnect sample_platform sample_registered
           [socket 0 (ev_close 0); timer_fires 0]
           [cb_onReconnect; cb_manual_reconnect; cb_retry_reconnect] Hevs).
Defined.

(** The close event of the socket that [disconnect()] closed still
    schedules the hook, on the old connector; the hook then finds the flag
    set and does nothing. *)
Example close_after_disconnect :
  timers (@disconnect sample_platform sample_registered).2 = [] /\
  timers (@run sample_platform [socket 0 (ev_close 0)]
            (@disconnect sample_platform sample_registered).2)
  = [{| delay := 1000; callback := cb_onReconnect |}] /\
  timers sample_after_disconnect = [] /\
  length (heap sample_after_disconnect) = 1%nat /\
  logs sample_after_disconnect = logs (@disconnect sample_platform sample_registered).2.
Proof. evaluate. Qed.

(** ** The connect timeout and the promise of [connect()] *)

Section Invariant.
Context {P : ClawatchConnector -> Prop}.

Lemma inv_ret {A} (a : A) : invariant P (cret a).
Proof. by intros c. Qed.

Lemma inv_lift {A} (r : Result A) : invariant P (clift r).
Proof. by intros c. Qed.

Lemma inv_emit (e : Effect) : invariant P (emit e).
Proof. by intros c. Qed.

Lemma inv_modify (g : ClawatchConnector -> ClawatchConnector) :
  (forall c, P c -> P (g c)) -> invariant P (cmodify g).
Proof. intros Hg c. apply Hg. Qed.

Lemma inv_bind {A B} (m : CM A) (f : A -> CM B) :
  invariant P m -> (forall a, invariant P (f a)) -> invariant P (cbind m f).
Proof.
  intros Hm Hf c Hc. specialize (Hm c Hc).
  unfold cbind, state_of in *.
  destruct (m c) as [[[a|e] c1] e1]; simpl in *; [|done].
  specialize (Hf a c1 Hm). unfold state_of in Hf.
  by destruct (f a c1) as [[r c2] e2].
Qed.

Lemma inv_get_bind {B} (f : ClawatchConnector -> CM B) :
  (forall c, P c -> P (state_of (f c c))) -> invariant P (cbind cget f).
Proof.
  intros Hf c Hc. specialize (Hf c Hc).
  unfold cbind, cget, state_of in *. simpl.
  by destruct (f c c) as [[r c2] e2].
Qed.

Lemma inv_try {A} (m : CM A) (h : Thrown -> CM A) :
  invariant P m -> (forall e, invariant P (h e)) -> invariant P (ctry m h).
Proof.
  intros Hm Hh c Hc. specialize (Hm c Hc).
  unfold ctry, state_of in *.
  destruct (m c) as [[[a|e] c1] e1]; simpl in *; [done|].
  specialize (Hh e c1 Hm). unfold state_of in Hh.
  by destruct (h e c1) as [[r c2] e2].
Qed.

End Invariant.

Section AttemptInvariant.
Context `{Platform}.
Variable Q : Attempt -> Prop.
Variable k : nat.
(** [lenient]: settling the promise of an attempt cannot break [Q]. *)
Variable lenient : Prop.
Hypothesis Q_sock : forall a v, Q a -> Q (set_sock v a).
Hypothesis Q_timeout : forall a, Q a -> Q (set_timeout false a).
Hypothesis Q_timer_off : forall a, Q a -> timeout a = false.
Hypothesis Q_promise : lenient -> forall a st, Q a -> Q (set_promise st a).

Local Abbreviation Pk := (attempt_is Q k).

Lemma Pk_same_attempts (c c' : ClawatchConnector) :
  attempts c' = attempts c -> Pk c -> Pk c'.
Proof. intros Heq (a & Ha & HQ). exists a. by rewrite Heq. Qed.

Lemma Pk_update (j : nat) (f : Attempt -> Attempt) (c : ClawatchConnector) :
  (j ≠ k \/ forall a, Q a -> Q (f a)) -> Pk c -> Pk (update_attempt j f c).
Proof.
  intros Hf (a & Ha & HQ). unfold attempt_is, update_attempt. simpl.
  destruct (decide (j = k)) as [->|Hne].
  - exists (f a). rewrite list_lookup_alter_eq, Ha. split; [done|].
    destruct Hf as [|Hf]; [done|by apply Hf].
  - exists a. by rewrite list_lookup_alter_ne.
Qed.

Lemma Pk_append (l : list Attempt) (c : ClawatchConnector) :
  Pk c -> Pk (set_attempts (attempts c ++ l) c).
Proof.
  intros (a & Ha & HQ). exists a. split; [|done].
  simpl. by apply lookup_app_l_Some.
Qed.

Lemma inv_field (g : ClawatchConnector -> ClawatchConnector) :
  (forall c, attempts (g c) = attempts c) -> invariant Pk (cmodify g).
Proof. intros Hg. apply inv_modify. intros c. by apply Pk_same_attempts. Qed.

Lemma inv_clearTimeout (j : nat) : invariant Pk (clearTimeout j).
Proof. apply inv_modify. intros c. apply Pk_update. right. apply Q_timeout. Qed.

Lemma inv_ws_close (j : nat) : invariant Pk (ws_close j).
Proof. apply inv_modify. intros c. apply Pk_update. right. intros a. apply Q_sock. Qed.

Lemma inv_set_sock_state (j : nat) (s : ReadyState) : invariant Pk (set_sock_state j s).
Proof. apply inv_modify. intros c. apply Pk_update. right. intros a. apply Q_sock. Qed.

Lemma inv_settle (j : nat) (st : PromiseState) :
  lenient \/ j ≠ k -> invariant Pk (settle j st).
Proof.
  intros Hj. unfold settle. apply inv_get_bind. intros c Hc.
  destruct (promise <$> attempts c !! j) as [[]|]; try done.
  apply inv_bind; [|intros _; apply inv_emit | done].
  apply inv_modify. intros c'. apply Pk_update.
  destruct Hj as [Hl|Hne]; [right|by left].
  intros a. by apply Q_promise.
Qed.

Lemma inv_stopPing : invariant Pk stopPing.
Proof.
  unfold stopPing. apply inv_get_bind. intros c Hc.
  destruct (pingInterval c); [|done]. by apply (inv_field (set_pingInterval false)).
Qed.

Lemma inv_startPing : invariant Pk startPing.
Proof.
  unfold startPing. apply inv_bind; [apply inv_stopPing|intros _].
  by apply (inv_field (set_pingInterval true)).
Qed.

Lemma inv_send (frame : Frame) : invariant Pk (send frame).
Proof.
  unfold send. apply inv_get_bind. intros c Hc.
  destruct (ws c); [|done]. by case_decide.
Qed.

Lemma inv_ping_tick : invariant Pk ping_tick.
Proof.
  unfold ping_tick. apply inv_get_bind. intros c Hc.
  case_decide; [|done]. by apply inv_send.
Qed.

Lemma inv_scheduleReconnect : invariant Pk scheduleReconnect.
Proof.
  unfold scheduleReconnect. apply inv_get_bind. intros c Hc.
  destruct (_ && _); [done|].
  apply (inv_bind (P := Pk)); [|intros _; apply inv_emit | done].
  by apply inv_field.
Qed.

Lemma inv_disconnect : invariant Pk Connector_disconnect.
Proof.
  unfold Connector_disconnect. apply inv_bind; [apply inv_stopPing|intros _].
  apply inv_get_bind. intros c Hc.
  destruct (ws c) as [j|]; [|done].
  apply (inv_bind (P := Pk)); [apply inv_ws_close | intros _ | done].
  by apply (inv_field (set_ws None)).
Qed.

Lemma inv_onRegistered (ks : list nat) (watches : list WatchInfo) :
  lenient -> invariant Pk (callbacks_onRegistered ks watches).
Proof.
  intros Hl. induction ks as [|j ks IH]; [apply inv_emit|].
  cbn [callbacks_onRegistered].
  apply inv_bind; [apply inv_clearTimeout|intros _].
  apply inv_bind; [apply inv_startPing|intros _].
  apply inv_bind; [apply IH|intros _].
  apply inv_settle. by left.
Qed.

Lemma inv_onError (ks : list nat) (code : option string) (message : string)
    (id : option string) :
  lenient \/ fatal_code code = false ->
  invariant Pk (callbacks_onError ks code message id).
Proof.
  intros Hl. induction ks as [|j ks IH]; [apply inv_emit|].
  cbn [callbacks_onError].
  apply inv_bind; [apply inv_clearTimeout|intros _].
  apply inv_bind; [apply IH|intros _].
  destruct (fatal_code code) eqn:Hcode; [|apply inv_ret].
  apply inv_settle. destruct Hl as [Hl|Hl]; [by left|done].
Qed.

Lemma inv_handleFrame (frame : Frame) :
  lenient \/ settling_frame frame = false -> invariant Pk (handleFrame frame).
Proof.
  intros Hl. unfold handleFrame. apply inv_get_bind. intros c Hc.
  destruct frame; simpl in Hl;
    try (by destruct (has_onDebug c));
    try (by destruct (has_onControlAck c)); try done.
  - apply inv_onRegistered; [|done]. by destruct Hl.
  - by apply inv_onError.
Qed.

Lemma inv_onmessage (j : nat) (data : string) :
  lenient \/ match JSON_parse data with
             | Returned frame => settling_frame frame
             | Threw _ => false
             end = false ->
  invariant Pk (onmessage j data).
Proof.
  intros Hl. unfold onmessage. apply inv_try.
  - unfold clift, cbind. intros c Hc. unfold state_of.
    destruct (JSON_parse data) as [frame|e]; [|done].
    pose proof (inv_handleFrame frame Hl c Hc) as Hf. unfold state_of in Hf.
    by destruct (handleFrame frame c) as [[r c'] es].
  - intros e. apply inv_get_bind. intros c Hc.
    apply inv_onError; [by right|done].
Qed.

Lemma inv_onopen (j : nat) : invariant Pk (onopen j).
Proof.
  unfold onopen. apply inv_bind; [apply inv_clearTimeout|intros _].
  apply inv_bind; [by apply (inv_field (set_reconnectAttempts 0))|intros _].
  apply inv_get_bind. intros c Hc. by apply inv_send.
Qed.

Lemma inv_onclose (j : nat) : invariant Pk (onclose j).
Proof.
  unfold onclose. apply inv_bind; [apply inv_stopPing|intros _].
  apply inv_bind; [by apply (inv_field (set_ws None))|intros _].
  apply inv_get_bind. intros c Hc.
  destruct (has_onReconnect c); [|done]. by apply inv_scheduleReconnect.
Qed.

Lemma inv_onerror (j : nat) : lenient \/ j ≠ k -> invariant Pk (onerror j).
Proof.
  intros Hl. unfold onerror. apply inv_bind; [apply inv_clearTimeout|intros _].
  by apply inv_settle.
Qed.

Lemma inv_connect_timeout (j : nat) :
  lenient \/ j ≠ k -> invariant Pk (connect_timeout j).
Proof.
  intros Hl. unfold connect_timeout. apply inv_get_bind. intros c Hc.
  case_decide; [|done].
  apply (inv_bind (P := Pk)); [| intros _; by apply inv_settle | done].
  destruct (ws c); [apply inv_ws_close|apply inv_ret].
Qed.

Lemma inv_connect : invariant Pk connect.
Proof.
  unfold connect. apply inv_get_bind. intros c Hc.
  destruct (WebSocket_new (url c)) as [[]|err].
  - apply (inv_bind (P := Pk)); [|intros _; apply inv_ret|done].
    apply inv_modify. intros c' Hc'.
    apply (Pk_same_attempts
             (set_attempts (attempts c' ++ [{| sock := Some CONNECTING; timeout := true;
                                               promise := Pending |}]) c')); [done|].
    by apply Pk_append.
  - assert (Hlen : length (attempts c) ≠ k).
    { destruct Hc as (a & Ha & _). apply lookup_lt_Some in Ha. lia. }
    apply (inv_bind (P := Pk)); [| |done].
    + apply inv_modify. intros c' _.
      destruct Hc as (a & Ha & HQ). exists a. split; [|done].
      simpl. by apply lookup_app_l_Some.
    + intros _. apply inv_bind; [|intros _; apply inv_ret].
      apply inv_settle. by right.
Qed.

Lemma inv_deliver (e : SocketEvent) :
  lenient \/ decides k (host e) = false -> invariant Pk (deliver e).
Proof.
  intros Hl. unfold deliver. apply inv_get_bind. intros c Hc.
  destruct e as [j|j data|j|j|j|].
  - destruct (decide (sock_state c j = Some CONNECTING)); [|done].
    apply (inv_bind (P := Pk)); [apply inv_set_sock_state|intros _; apply inv_onopen|done].
  - destruct (decide (sock_state c j = Some OPEN)); [|done].
    by apply inv_onmessage.
  - destruct (decide (is_Some (sock_state c j))); [|done].
    apply (inv_bind (P := Pk)); [apply inv_set_sock_state|intros _; apply inv_onclose|done].
  - destruct (decide (is_Some (sock_state c j))); [|done].
    apply (inv_bind (P := Pk)); [apply inv_set_sock_state|intros _|done].
    apply inv_onerror. destruct Hl as [Hl|Hl]; [by left|right].
    simpl in Hl. by apply bool_decide_eq_false in Hl.
  - destruct (decide (timeout <$> attempts c !! j = Some true)) as [Harmed|]; [|done].
    assert (Hjk : j ≠ k).
    { intros ->. destruct Hc as (a & Ha & HQ). rewrite Ha in Harmed.
      simpl in Harmed. apply Q_timer_off in HQ. congruence. }
    apply (inv_bind (P := Pk)); [|intros _|done].
    + apply inv_modify. intros c'. apply Pk_update. by left.
    + apply inv_connect_timeout. by right.
  - destruct (pingInterval c); [|done]. by apply inv_ping_tick.
Qed.

Lemma inv_react (s : Stimulus) :
  lenient \/ decides k s = false -> invariant Pk (react s).
Proof.
  intros Hl. destruct s as [e| | |frame|]; simpl.
  - by apply inv_deliver.
  - apply inv_bind; [apply inv_connect|intros _; apply inv_ret].
  - apply inv_disconnect.
  - apply inv_send.
  - apply inv_scheduleReconnect.
Qed.

Lemma inv_react_all (ss : list Stimulus) (c : ClawatchConnector) :
  lenient \/ Forall (fun s => decides k s = false) ss ->
  Pk c -> Pk (react_all ss c).
Proof.
  revert c. induction ss as [|s ss IH]; intros c Hl Hc; [done|].
  change (react_all (s :: ss) c) with (react_all ss (state_of (react s c))).
  apply IH.
  - destruct Hl as [Hl|Hl]; [by left|right]. by inversion Hl.
  - apply inv_react; [|done].
    destruct Hl as [Hl|Hl]; [by left|right]. by inversion Hl.
Qed.

End AttemptInvariant.

Lemma clear_timeouts_lookup (ks : list nat) (c : ClawatchConnector) (k : nat) :
  attempts (clear_timeouts ks c) !! k
  = (fun a => if decide (k ∈ ks) then set_timeout false a else a) <$> attempts c !! k.
Proof.
  revert c. induction ks as [|j ks IH]; intros c.
  - simpl. by destruct (attempts c !! k).
  - change (clear_timeouts (j :: ks) c)
      with (clear_timeouts ks (update_attempt j (set_timeout false) c)).
    rewrite IH. unfold update_attempt. simpl.
    destruct (decide (j = k)) as [->|Hne].
    + rewrite list_lookup_alter_eq.
      destruct (attempts c !! k) as [a|]; [|done]. simpl.
      rewrite (decide_True (P := k ∈ k :: ks)) by left.
      by destruct (decide (k ∈ ks)).
    + rewrite list_lookup_alter_ne by done.
      destruct (attempts c !! k) as [a|]; [|done]. simpl.
      destruct (decide (k ∈ ks)) as [Hin|Hnin].
      * by rewrite decide_True by (by right).
      * rewrite decide_False; [done|].
        intros Hin. apply elem_of_cons in Hin as [->|]; done.
Qed.

(** C10, as amended: when the error callback fires with a code other than
    [invalid_token] and [unauthorized] while the promise of a [connect()]
    call is pending, the 15 s timer of that call is cancelled and the
    promise stays pending; whatever happens to the connector afterwards,
    the timer stays cancelled, so its callback cannot run and the promise
    cannot be rejected by timeout; and the promise stays pending as long
    as no message brings a Registered frame or a fatal authentication
    Error frame and the socket of that call reports no error. *)
Theorem connect_promise_after_nonfatal_error `{Platform} (c : ClawatchConnector)
    (k : nat) (code : option string) (message : string) (id : option string)
    (ss : list Stimulus) :
  k ∈ wrappers c ->
  promise <$> attempts c !! k = Some Pending ->
  fatal_code code = false ->
  let c1 := state_of (callbacks_onError (wrappers c) code message id c) in
  let c2 := react_all ss c1 in
  timeout <$> attempts c1 !! k = Some false /\
  promise <$> attempts c1 !! k = Some Pending /\
  timeout <$> attempts c2 !! k = Some false /\
  react (host (ev_timeout k)) c2 = (Returned tt, c2, []) /\
  (Forall (fun s => decides k s = false) ss ->
   promise <$> attempts c2 !! k = Some Pending).
Proof.
  intros Hk Hpending Hcode c1 c2.
  assert (Hc1 : c1 = clear_timeouts (wrappers c) c).
  { unfold c1. by rewrite callbacks_onError_nonfatal. }
  destruct (attempts c !! k) as [a|] eqn:Ha; [|done].
  injection Hpending as Hpending.
  assert (Ha1 : attempts c1 !! k = Some (set_timeout false a)).
  { rewrite Hc1, clear_timeouts_lookup, Ha. simpl. by rewrite decide_True. }
  assert (Hboth : attempt_is (fun a => timeout a = false /\ promise a = Pending) k c1).
  { exists (set_timeout false a). by split. }
  assert (Htimer : attempt_is (fun a => timeout a = false) k c2).
  { apply (inv_react_all (fun a => timeout a = false) k True); try done.
    - by left.
    - exists (set_timeout false a). by split. }
  destruct Htimer as (a2 & Ha2 & Ht2).
  split; [rewrite Ha1; reflexivity|].
  split; [rewrite Ha1; simpl; by rewrite Hpending|].
  split; [rewrite Ha2; simpl; by rewrite Ht2|].
  split.
  - simpl. unfold deliver, cbind, cget. simpl.
    rewrite Ha2. simpl. rewrite Ht2. by rewrite decide_False.
  - intros Hquiet.
    assert (Hp : attempt_is (fun a => timeout a = false /\ promise a = Pending) k c2).
    { apply (inv_react_all (fun a => timeout a = false /\ promise a = Pending) k False).
      - intros a0 v [Ht Hp']. split; [exact Ht|exact Hp'].
      - intros a0 [Ht Hp']. split; [reflexivity|exact Hp'].
      - intros a0 [Ht _]. exact Ht.
      - intros [].
      - right. exact Hquiet.
      - exact Hboth. }
    destruct Hp as (a3 & Ha3 & _ & Hp3).
    rewrite Ha3. simpl. by rewrite Hp3.
Qed.

Lemma connect_promise_after_nonfatal_error_witness :
  (0%nat ∈ wrappers sample_open) /\
  promise <$> attempts sample_open !! 0%nat = Some Pending /\
  fatal_code (Some "invalid_frame") = false /\
  Forall (fun s => @decides sample_platform 0 s = false) sample_quiet_stimuli /\
  timeout <$>
    attempts (state_of (callbacks_onError (wrappers sample_open) (Some "invalid_frame")
                          "Invalid JSON from server" None sample_open)) !! 0%nat
  = Some false /\
  promise <$>
    attempts (state_of (callbacks_onError (wrappers sample_open) (Some "invalid_frame")
                          "Invalid JSON from server" None sample_open)) !! 0%nat
  = Some Pending /\
  timeout <$>
    attempts
      (@react_all sample_platform sample_quiet_stimuli
         (state_of (callbacks_onError (wrappers sample_open) (Some "invalid_frame")
                      "Invalid JSON from server" None sample_open))) !! 0%nat
  = Some false /\
  @react sample_platform (host (ev_timeout 0))
    (@react_all sample_platform sample_quiet_stimuli
       (state_of (callbacks_onError (wrappers sample_open) (Some "invalid_frame")
                    "Invalid JSON from server" None sample_open)))
  = (Returned tt,
     @react_all sample_platform sample_quiet_stimuli
       (state_of (callbacks_onError (wrappers sample_open) (Some "invalid_frame")
                    "Invalid JSON from server" None sample_open)),
     []) /\
  promise <$>
    attempts
      (@react_all sample_platform sample_quiet_stimuli
         (state_of (callbacks_onError (wrappers sample_open) (Some "invalid_frame")
                      "Invalid JSON from server" None sample_open))) !! 0%nat
  = Some Pending.
Proof.
  assert (Hw : wrappers sample_open = [0%nat]) by (vm_compute; reflexivity).
  assert (Hin : 0%nat ∈ wrappers sample_open) by (rewrite Hw; left).
  assert (Hp : promise <$> attempts sample_open !! 0%nat = Some Pending).
  { vm_compute. reflexivity. }
  assert (Hcode : fatal_code (Some "invalid_frame") = false) by (vm_compute; reflexivity).
  assert (Hquiet : Forall (fun s => @decides sample_platform 0 s = false)
                     sample_quiet_stimuli).
  { unfold sample_quiet_stimuli.
    repeat (apply Forall_cons; split; [vm_compute; reflexivity|]). constructor. }
  destruct (@connect_promise_after_nonfatal_error sample_platform sample_open 0
              (Some "invalid_frame") "Invalid JSON from server" None
              sample_quiet_stimuli Hin Hp Hcode)
    as (H1 & H2 & H3 & H4 & H5).
  split; [exact Hin|]. split; [exact Hp|]. split; [exact Hcode|].
  split; [exact Hquiet|].
  split; [exact H1|]. split; [exact H2|]. split; [exact H3|]. split; [exact H4|].
  exact (H5 Hquiet).
Defined.

(** C10 as stated fails: after the error callback has fired with the
    non-fatal code [invalid_frame], an error event of the socket rejects
    the promise of [connect()], although no message has brought a
    Registered frame or a fatal authentication Error frame. *)
Lemma connect_promise_counterexample :
  effects_of (@react sample_platform (host (ev_message 0 "not json")) sample_open)
  = [Call (onError (Some "invalid_frame") "Invalid JSON from server" None)] /\
  fatal_code (Some "invalid_frame") = false /\
  timeout <$> attempts sample_heard !! 0%nat = Some false /\
  promise <$> attempts sample_heard !! 0%nat = Some Pending /\
  Forall (fun s => @brings_settling_frame sample_platform s = false) [host (ev_error 0)] /\
  promise <$> attempts (@react_all sample_platform [host (ev_error 0)] sample_heard)
                !! 0%nat
  = Some (Rejected (JsError "WebSocket error" None)).
Proof.
  repeat match goal with |- _ /\ _ => split end; try (vm_compute; reflexivity).
  apply Forall_cons. split; [vm_compute; reflexivity|constructor].
Qed.

(* ===================================================================== *)
(** * Further properties of the connector *)
(* ===================================================================== *)

(** ** Properties kept by everything that can happen to a connector

    A property of the connector object that each assignment in
    [connector.ts] keeps is kept by every event and every method call. *)

Lemma state_of_modify_bind {B} (g : ClawatchConnector -> ClawatchConnector)
    (f : unit -> CM B) (c : ClawatchConnector) :
  state_of (cbind (cmodify g) f c) = state_of (f tt (g c)).
Proof.
  unfold cbind, cmodify, state_of. simpl. by destruct (f tt (g c)) as [[r c'] es].
Qed.

Section ReactInvariant.
Context `{Platform}.
Variable P : ClawatchConnector -> Prop.
Hypothesis P_clear : forall j c, P c -> P (update_attempt j (set_timeout false) c).
Hypothesis P_close : forall j c,
  P c -> P (update_attempt j (fun a => set_sock (close_state <$> sock a) a) c).
Hypothesis P_state : forall j s c,
  is_Some (sock_state c j) ->
  P c -> P (update_attempt j (fun a => set_sock (Some s) a) c).
Hypothesis P_settle : forall j st, invariant P (settle j st).
Hypothesis P_handle : forall c, P c -> P (set_ws None c).
Hypothesis P_ping : forall b c, P c -> P (set_pingInterval b c).
Hypothesis P_reset : forall c, P c -> P (set_reconnectAttempts 0 c).
Hypothesis P_count : forall c,
  P c -> P (set_reconnectAttempts (reconnectAttempts c + 1) c).
Hypothesis P_socket : forall c,
  P c ->
  P (set_wrappers (length (attempts c) :: wrappers c)
       (set_ws (Some (length (attempts c)))
          (set_attempts
             (attempts c ++ [{| sock := Some CONNECTING; timeout := true;
                                promise := Pending |}]) c))).
Hypothesis P_no_socket : forall c,
  P c ->
  P (set_attempts
       (attempts c ++ [{| sock := None; timeout := false; promise := Pending |}]) c).

Lemma ri_stopPing : invariant P stopPing.
Proof.
  unfold stopPing. apply inv_get_bind. intros c Hc.
  destruct (pingInterval c); [by apply P_ping|done].
Qed.

Lemma ri_startPing : invariant P startPing.
Proof.
  unfold startPing. apply inv_bind; [apply ri_stopPing|intros _].
  apply inv_modify. apply P_ping.
Qed.

Lemma ri_send (frame : Frame) : invariant P (send frame).
Proof.
  unfold send. apply inv_get_bind. intros c Hc.
  destruct (ws c) as [j|]; [|done].
  by destruct (decide (sock_state c j = Some OPEN)).
Qed.

Lemma ri_ping_tick : invariant P ping_tick.
Proof.
  unfold ping_tick. apply inv_get_bind. intros c Hc.
  destruct (decide (ws_readyState c = Some OPEN)); [|done].
  by apply ri_send.
Qed.

Lemma ri_scheduleReconnect : invariant P scheduleReconnect.
Proof.
  unfold scheduleReconnect. apply inv_get_bind. intros c Hc.
  destruct (_ && _); [done|]. by apply P_count.
Qed.

Lemma ri_disconnect : invariant P Connector_disconnect.
Proof.
  unfold Connector_disconnect. apply inv_bind; [apply ri_stopPing|intros _].
  apply inv_get_bind. intros c Hc.
  destruct (ws c) as [j|]; [|done].
  apply P_handle. by apply P_close.
Qed.

Lemma ri_onRegistered (ks : list nat) (watches : list WatchInfo) :
  invariant P (callbacks_onRegistered ks watches).
Proof.
  induction ks as [|j ks IH]; [apply inv_emit|].
  cbn [callbacks_onRegistered].
  apply inv_bind; [apply inv_modify, P_clear|intros _].
  apply inv_bind; [apply ri_startPing|intros _].
  apply inv_bind; [apply IH|intros _].
  apply P_settle.
Qed.

Lemma ri_onError (ks : list nat) (code : option string) (message : string)
    (id : option string) :
  invariant P (callbacks_onError ks code message id).
Proof.
  induction ks as [|j ks IH]; [apply inv_emit|].
  cbn [callbacks_onError].
  apply inv_bind; [apply inv_modify, P_clear|intros _].
  apply inv_bind; [apply IH|intros _].
  destruct (fatal_code code); [apply P_settle|apply inv_ret].
Qed.

Lemma ri_handleFrame (frame : Frame) : invariant P (handleFrame frame).
Proof.
  unfold handleFrame. apply inv_get_bind. intros c Hc.
  destruct frame;
    try (by destruct (has_onDebug c));
    try (by destruct (has_onControlAck c)); try done.
  - by apply ri_onRegistered.
  - by apply ri_onError.
Qed.

Lemma ri_onmessage (j : nat) (data : string) : invariant P (onmessage j data).
Proof.
  unfold onmessage. apply inv_try.
  - unfold clift, cbind. intros c Hc. unfold state_of.
    destruct (JSON_parse data) as [frame|e]; [|done].
    pose proof (ri_handleFrame frame c Hc) as Hf. unfold state_of in Hf.
    by destruct (handleFrame frame c) as [[r c'] es].
  - intros e. apply inv_get_bind. intros c Hc. by apply ri_onError.
Qed.

Lemma ri_onopen (j : nat) : invariant P (onopen j).
Proof.
  unfold onopen. apply inv_bind; [apply inv_modify, P_clear|intros _].
  apply inv_bind; [apply inv_modify, P_reset|intros _].
  apply inv_get_bind. intros c Hc. by apply ri_send.
Qed.

Lemma ri_onclose (j : nat) : invariant P (onclose j).
Proof.
  unfold onclose. apply inv_bind; [apply ri_stopPing|intros _].
  apply inv_bind; [apply inv_modify, P_handle|intros _].
  apply inv_get_bind. intros c Hc.
  destruct (has_onReconnect c); [|done]. by apply ri_scheduleReconnect.
Qed.

Lemma ri_onerror (j : nat) : invariant P (onerror j).
Proof.
  unfold onerror. apply inv_bind; [apply inv_modify, P_clear|intros _].
  apply P_settle.
Qed.

Lemma ri_connect_timeout (j : nat) : invariant P (connect_timeout j).
Proof.
  unfold connect_timeout. apply inv_get_bind. intros c Hc.
  destruct (decide (ws_readyState c = Some CONNECTING)); [|done].
  apply (inv_bind (P := P)); [|intros _; apply P_settle|done].
  destruct (ws c) as [i|]; [apply inv_modify, P_close|apply inv_ret].
Qed.

Lemma ri_connect : invariant P connect.
Proof.
  unfold connect. apply inv_get_bind. intros c Hc.
  destruct (WebSocket_new (url c)) as [[]|err].
  - by apply P_socket.
  - rewrite state_of_modify_bind.
    apply (inv_bind (P := P)); [apply P_settle|intros _; apply inv_ret|].
    by apply P_no_socket.
Qed.

Lemma ri_deliver (e : SocketEvent) : invariant P (deliver e).
Proof.
  unfold deliver. apply inv_get_bind. intros c Hc.
  destruct e as [j|j data|j|j|j|].
  - destruct (decide (sock_state c j = Some CONNECTING)) as [Hs|]; [|done].
    unfold set_sock_state. rewrite state_of_modify_bind.
    apply ri_onopen. apply P_state; [by rewrite Hs|done].
  - destruct (decide (sock_state c j = Some OPEN)); [|done].
    by apply ri_onmessage.
  - destruct (decide (is_Some (sock_state c j))); [|done].
    unfold set_sock_state. rewrite state_of_modify_bind.
    apply ri_onclose. by apply P_state.
  - destruct (decide (is_Some (sock_state c j))); [|done].
    unfold set_sock_state. rewrite state_of_modify_bind.
    apply ri_onerror. by apply P_state.
  - destruct (decide (timeout <$> attempts c !! j = Some true)); [|done].
    rewrite state_of_modify_bind.
    apply ri_connect_timeout. by apply P_clear.
  - destruct (pingInterval c); [|done]. by apply ri_ping_tick.
Qed.

Lemma ri_react (s : Stimulus) : invariant P (react s).
Proof.
  destruct s as [e| | |frame|]; simpl.
  - apply ri_deliver.
  - apply inv_bind; [apply ri_connect|intros _; apply inv_ret].
  - apply ri_disconnect.
  - apply ri_send.
  - apply ri_scheduleReconnect.
Qed.

Lemma ri_react_all (ss : list Stimulus) (c : ClawatchConnector) :
  P c -> P (react_all ss c).
Proof.
  revert c. induction ss as [|s ss IH]; intros c Hc; [done|].
  change (react_all (s :: ss) c) with (react_all ss (state_of (react s c))).
  apply IH. by apply ri_react.
Qed.

End ReactInvariant.



(** ** Every close is followed by a reconnect *)

Lemma onclose_effects (c : ClawatchConnector) (k : nat) :
  maxReconnectAttempts c = 0 -> has_onReconnect c = true ->
  effects_of (onclose k c) = [SetTimeout_onReconnect (reconnect_delay c)].
Proof.
  intros Hmax Hre. destruct c as [w t u hr hd ha wr pi ra mra b mx at_].
  simpl in *. subst mra hr. by destruct pi.
Qed.

Lemma reconnect_delay_bounds (c : ClawatchConnector) :
  constructed c -> 0 <= reconnectAttempts c ->
  1000 <= reconnect_delay c <= 300000.
Proof.
  intros (_ & Hb & Hm) Hra. unfold reconnect_delay. rewrite Hb, Hm.
  assert (0 < 2 ^ reconnectAttempts c) by (apply Z.pow_pos_nonneg; lia).
  lia.
Qed.

(** A connector constructed with a reconnect hook never gives up: in every
    state it can reach, whatever events and calls came before, the attempt
    ceiling is zero (no limit), and a close event schedules the hook
    exactly once, after a delay between the base of 1 s and the cap of
    5 min. *)
Theorem reconnect_always_scheduled `{Platform} (url token : string)
    (dbg ack : bool) (ss : list Stimulus) (k : nat) :
  let c := react_all ss (new_ClawatchConnector url token true dbg ack) in
  maxReconnectAttempts c = 0 /\
  baseReconnectMs c = 1000 /\ maxReconnectMs c = 300000 /\
  0 <= reconnectAttempts c /\
  effects_of (onclose k c) = [SetTimeout_onReconnect (reconnect_delay c)] /\
  1000 <= reconnect_delay c <= 300000.
Proof.
  intros c.
  assert (Hinv : constructed c /\ 0 <= reconnectAttempts c /\ has_onReconnect c = true).
  { apply (ri_react_all
             (fun c => constructed c /\ 0 <= reconnectAttempts c
                       /\ has_onReconnect c = true)); try done.
    - intros j st c' Hc'.
      pose proof (keeps_backoff_settle j st c') as Hk.
      unfold backoff_fields in Hk. injection Hk as Hk1 Hk2 Hk3 Hk4 Hk5.
      destruct Hc' as ((? & ? & ?) & ? & ?).
      unfold constructed. rewrite Hk1, Hk2, Hk3, Hk4, Hk5. done.
    - intros c' ((? & ? & ?) & ? & ?). repeat split; try done.
    - intros c' ((? & ? & ?) & ? & ?). repeat split; try done. simpl. lia. }
  destruct Hinv as (Hc & Hra & Hre).
  destruct Hc as (Hmax & Hb & Hm).
  split; [done|]. split; [done|]. split; [done|]. split; [done|].
  split; [by apply onclose_effects|].
  by apply reconnect_delay_bounds.
Qed.

(** ** What a connector puts on the wire *)

Section Emits.
Context {E : Effect -> Prop}.

Lemma emits_ret {A} (a : A) : emits E (cret a).
Proof. intros c. constructor. Qed.

Lemma emits_lift {A} (r : Result A) : emits E (clift r).
Proof. intros c. constructor. Qed.

Lemma emits_modify (g : ClawatchConnector -> ClawatchConnector) : emits E (cmodify g).
Proof. intros c. constructor. Qed.

Lemma emits_emit (e : Effect) : E e -> emits E (emit e).
Proof. intros He c. by repeat constructor. Qed.

Lemma emits_bind {A B} (m : CM A) (f : A -> CM B) :
  emits E m -> (forall a, emits E (f a)) -> emits E (cbind m f).
Proof.
  intros Hm Hf c. specialize (Hm c). unfold cbind, effects_of in *.
  destruct (m c) as [[[a|e] c1] e1]; simpl in *; [|done].
  specialize (Hf a c1). unfold effects_of in Hf.
  destruct (f a c1) as [[r c2] e2]; simpl in *. by apply Forall_app.
Qed.

Lemma emits_get_bind {B} (f : ClawatchConnector -> CM B) :
  (forall c, emits E (f c)) -> emits E (cbind cget f).
Proof. intros Hf. apply emits_bind; [intros c; constructor|done]. Qed.

Lemma emits_try {A} (m : CM A) (h : Thrown -> CM A) :
  emits E m -> (forall e, emits E (h e)) -> emits E (ctry m h).
Proof.
  intros Hm Hh c. specialize (Hm c). unfold ctry, effects_of in *.
  destruct (m c) as [[[a|e] c1] e1]; simpl in *; [done|].
  specialize (Hh e c1). unfold effects_of in Hh.
  destruct (h e c1) as [[r c2] e2]; simpl in *. by apply Forall_app.
Qed.

End Emits.

Lemma no_frame_settle (j : nat) (st : PromiseState) : emits no_frame (settle j st).
Proof.
  unfold settle. apply emits_get_bind. intros c.
  destruct (promise <$> attempts c !! j) as [[]|]; try apply emits_ret.
  apply emits_bind; [apply emits_modify|intros _; by apply emits_emit].
Qed.

Lemma no_frame_stopPing : emits no_frame stopPing.
Proof.
  unfold stopPing. apply emits_get_bind. intros c.
  destruct (pingInterval c); [apply emits_modify|apply emits_ret].
Qed.

Lemma no_frame_startPing : emits no_frame startPing.
Proof.
  unfold startPing.
  apply emits_bind; [apply no_frame_stopPing|intros _; apply emits_modify].
Qed.

Lemma no_frame_scheduleReconnect : emits no_frame scheduleReconnect.
Proof.
  unfold scheduleReconnect. apply emits_get_bind. intros c.
  destruct (_ && _); [apply emits_ret|].
  apply emits_bind; [apply emits_modify|intros _; by apply emits_emit].
Qed.

Lemma no_frame_disconnect : emits no_frame Connector_disconnect.
Proof.
  unfold Connector_disconnect.
  apply emits_bind; [apply no_frame_stopPing|intros _].
  apply emits_get_bind. intros c. destruct (ws c); [|apply emits_ret].
  apply emits_bind; [apply emits_modify|intros _; apply emits_modify].
Qed.

Lemma no_frame_onRegistered (ks : list nat) (watches : list WatchInfo) :
  emits no_frame (callbacks_onRegistered ks watches).
Proof.
  induction ks as [|j ks IH]; [by apply emits_emit|].
  cbn [callbacks_onRegistered].
  apply emits_bind; [apply emits_modify|intros _].
  apply emits_bind; [apply no_frame_startPing|intros _].
  apply emits_bind; [apply IH|intros _]. apply no_frame_settle.
Qed.

Lemma no_frame_onError (ks : list nat) (code : option string) (message : string)
    (id : option string) :
  emits no_frame (callbacks_onError ks code message id).
Proof.
  induction ks as [|j ks IH]; [by apply emits_emit|].
  cbn [callbacks_onError].
  apply emits_bind; [apply emits_modify|intros _].
  apply emits_bind; [apply IH|intros _].
  destruct (fatal_code code); [apply no_frame_settle|apply emits_ret].
Qed.

Lemma no_frame_handleFrame (frame : Frame) : emits no_frame (handleFrame frame).
Proof.
  unfold handleFrame. apply emits_get_bind. intros c.
  destruct frame;
    try (destruct (has_onDebug c); [by apply emits_emit|apply emits_ret]);
    try (destruct (has_onControlAck c); [by apply emits_emit|apply emits_ret]);
    try (by apply emits_emit).
  - apply no_frame_onRegistered.
  - apply no_frame_onError.
  - apply emits_bind; [|intros _; by apply emits_emit].
    destruct (has_onDebug c); [by apply emits_emit|apply emits_ret].
Qed.

Lemma no_frame_onmessage `{Platform} (j : nat) (data : string) :
  emits no_frame (onmessage j data).
Proof.
  unfold onmessage. apply emits_try.
  - apply emits_bind; [apply emits_lift|intros frame; apply no_frame_handleFrame].
  - intros e. apply emits_get_bind. intros c. apply no_frame_onError.
Qed.

Lemma no_frame_onclose (j : nat) : emits no_frame (onclose j).
Proof.
  unfold onclose. apply emits_bind; [apply no_frame_stopPing|intros _].
  apply emits_bind; [apply emits_modify|intros _].
  apply emits_get_bind. intros c.
  destruct (has_onReconnect c); [apply no_frame_scheduleReconnect|apply emits_ret].
Qed.

Lemma no_frame_onerror (j : nat) : emits no_frame (onerror j).
Proof.
  unfold onerror. apply emits_bind; [apply emits_modify|intros _; apply no_frame_settle].
Qed.

Lemma no_frame_connect_timeout (j : nat) : emits no_frame (connect_timeout j).
Proof.
  unfold connect_timeout. apply emits_get_bind. intros c.
  destruct (decide _); [|apply emits_ret].
  apply emits_bind; [|intros _; apply no_frame_settle].
  destruct (ws c); [apply emits_modify|apply emits_ret].
Qed.

Lemma no_frame_connect `{Platform} : emits no_frame connect.
Proof.
  unfold connect. apply emits_get_bind. intros c.
  destruct (WebSocket_new (url c)) as [[]|err].
  - apply emits_bind; [apply emits_modify|intros _; apply emits_ret].
  - apply emits_bind; [apply emits_modify|intros _].
    apply emits_bind; [apply no_frame_settle|intros _; apply emits_ret].
Qed.

Lemma no_frame_absurd {A} (m : CM A) (c : ClawatchConnector) (k : nat) (f : Frame) :
  emits no_frame m -> WsSend k f ∈ effects_of (m c) -> False.
Proof.
  intros Hm Hin. specialize (Hm c). rewrite Forall_forall in Hm.
  exact (Hm _ Hin).
Qed.

Lemma send_spec (frame : Frame) (c : ClawatchConnector) :
  state_of (send frame c) = c /\
  forall k f, WsSend k f ∈ effects_of (send frame c) ->
              ws c = Some k /\ sock_state c k = Some OPEN /\ f = frame.
Proof.
  unfold send, cbind, cget, state_of, effects_of. simpl.
  destruct (ws c) as [j|]; simpl.
  - destruct (decide (sock_state c j = Some OPEN)) as [Hs|]; simpl.
    + split; [done|]. intros k f Hin.
      apply list_elem_of_singleton in Hin. by simplify_eq.
    + split; [done|]. intros k f Hin. inversion Hin.
  - split; [done|]. intros k f Hin. inversion Hin.
Qed.

Lemma cbind_modify {B} (g : ClawatchConnector -> ClawatchConnector)
    (f : unit -> CM B) (c : ClawatchConnector) :
  cbind (cmodify g) f c = f tt (g c).
Proof. unfold cbind, cmodify. by destruct (f tt (g c)) as [[r c'] es]. Qed.

Lemma cbind_get {B} (f : ClawatchConnector -> CM B) (c : ClawatchConnector) :
  cbind cget f c = f c c.
Proof. unfold cbind, cget. by destruct (f c c) as [[r c'] es]. Qed.

Lemma deliver_open_spec `{Platform} (c : ClawatchConnector) (j : nat) :
  sock_state c j = Some CONNECTING ->
  let c3 := set_reconnectAttempts 0
              (update_attempt j (set_timeout false)
                 (update_attempt j (fun a => set_sock (Some OPEN) a) c)) in
  state_of (deliver (ev_open j) c) = c3 /\
  effects_of (deliver (ev_open j) c)
  = effects_of (send (RegisterFrame (token c) "openclaw-clawatch" PLUGIN_VERSION) c3).
Proof.
  intros Hs c3.
  assert (Heq : deliver (ev_open j) c
                = send (RegisterFrame (token c) "openclaw-clawatch" PLUGIN_VERSION) c3).
  { unfold deliver. rewrite cbind_get, decide_True by done.
    unfold set_sock_state, onopen, clearTimeout.
    by rewrite !cbind_modify, cbind_get. }
  rewrite Heq. split; [|done]. apply send_spec.
Qed.

(** A connector puts a frame on a socket only when that socket is its
    current one and is open; and on its own it sends only the Register
    frame, with its token, when a socket opens, and a Ping frame at a
    heartbeat tick. Everything else on the wire was passed to [send]. *)
Theorem frames_only_on_open_socket `{Platform} (s : Stimulus)
    (c : ClawatchConnector) (k : nat) (f : Frame) :
  WsSend k f ∈ effects_of (react s c) ->
  ws (state_of (react s c)) = Some k /\
  sock_state (state_of (react s c)) k = Some OPEN /\
  ((exists j, s = host (ev_open j) /\
              f = RegisterFrame (token c) "openclaw-clawatch" PLUGIN_VERSION) \/
   (s = host ev_ping /\ f = PingFrame) \/
   s = call_send f).
Proof.
  intros Hin. destruct s as [e| | |frame|]; simpl in *.
  - destruct e as [j|j data|j|j|j|].
    + destruct (decide (sock_state c j = Some CONNECTING)) as [Hs|Hs].
      * destruct (deliver_open_spec c j Hs) as [Hst Hef].
        rewrite Hst. rewrite Hef in Hin.
        apply send_spec in Hin as (Hws & Hopen & ->).
        split; [done|]. split; [done|]. left. by exists j.
      * unfold deliver, cbind, cget, effects_of in Hin. simpl in Hin.
        rewrite decide_False in Hin by done. inversion Hin.
    + exfalso. revert Hin. unfold deliver, cbind at 1, cget.
      destruct (decide (sock_state c j = Some OPEN)).
      * intros Hin. eapply (no_frame_absurd (onmessage j data) c); [|].
        { apply no_frame_onmessage. }
        unfold effects_of in *. simpl in Hin.
        destruct (onmessage j data c) as [[r c'] es]. exact Hin.
      * simpl. intros Hin. inversion Hin.
    + exfalso. eapply (no_frame_absurd (deliver (ev_close j)) c); [|exact Hin].
      unfold deliver. apply emits_get_bind. intros c0.
      destruct (decide _); [|apply emits_ret].
      apply emits_bind; [apply emits_modify|intros _; apply no_frame_onclose].
    + exfalso. eapply (no_frame_absurd (deliver (ev_error j)) c); [|exact Hin].
      unfold deliver. apply emits_get_bind. intros c0.
      destruct (decide _); [|apply emits_ret].
      apply emits_bind; [apply emits_modify|intros _; apply no_frame_onerror].
    + exfalso. eapply (no_frame_absurd (deliver (ev_timeout j)) c); [|exact Hin].
      unfold deliver. apply emits_get_bind. intros c0.
      destruct (decide _); [|apply emits_ret].
      apply emits_bind; [apply emits_modify|intros _; apply no_frame_connect_timeout].
    + assert (Heq : deliver ev_ping c
                    = if pingInterval c
                      then if decide (ws_readyState c = Some OPEN)
                           then send PingFrame c else cret tt c
                      else cret tt c).
      { unfold deliver. rewrite cbind_get. destruct (pingInterval c); [|done].
        unfold ping_tick. rewrite cbind_get. by destruct (decide _). }
      rewrite Heq in *. clear Heq.
      destruct (pingInterval c); [|inversion Hin].
      destruct (decide (ws_readyState c = Some OPEN)); [|inversion Hin].
      pose proof (send_spec PingFrame c) as [Hst Hsend]. rewrite Hst.
      apply Hsend in Hin as (? & ? & ->).
      split; [done|]. split; [done|]. right. by left.
  - exfalso. eapply (no_frame_absurd (connect ;;; cret tt)%cm c); [|exact Hin].
    apply emits_bind; [apply no_frame_connect|intros _; apply emits_ret].
  - exfalso. by eapply (no_frame_absurd Connector_disconnect c); [apply no_frame_disconnect|].
  - pose proof (send_spec frame c) as [Hst Hsend]. rewrite Hst.
    apply Hsend in Hin as (? & ? & ->).
    split; [done|]. split; [done|]. right. by right.
  - exfalso. by eapply (no_frame_absurd scheduleReconnect c);
      [apply no_frame_scheduleReconnect|].
Qed.

Lemma frames_only_on_open_socket_witness :
  WsSend 0 (RegisterFrame "token" "openclaw-clawatch" "0.1.22")
    ∈ effects_of (@react sample_platform (host (ev_open 0)) sample_connecting) /\
  ws (state_of (@react sample_platform (host (ev_open 0)) sample_connecting)) = Some 0%nat /\
  sock_state (state_of (@react sample_platform (host (ev_open 0)) sample_connecting)) 0
  = Some OPEN /\
  ((exists j, host (ev_open 0) = host (ev_open j) /\
              RegisterFrame "token" "openclaw-clawatch" "0.1.22"
              = RegisterFrame (token sample_connecting) "openclaw-clawatch" PLUGIN_VERSION) \/
   (host (ev_open 0) = host ev_ping /\
    RegisterFrame "token" "openclaw-clawatch" "0.1.22" = PingFrame) \/
   host (ev_open 0) = call_send (RegisterFrame "token" "openclaw-clawatch" "0.1.22")).
Proof.
  assert (Hin : WsSend 0 (RegisterFrame "token" "openclaw-clawatch" "0.1.22")
                  ∈ effects_of (@react sample_platform (host (ev_open 0)) sample_connecting)).
  { vm_compute. left. }
  split; [exact Hin|].
  exact (@frames_only_on_open_socket sample_platform (host (ev_open 0))
           sample_connecting 0 (RegisterFrame "token" "openclaw-clawatch" "0.1.22") Hin).
Defined.

(** ** The Registered frame *)

Lemma set_attempts_same (c : ClawatchConnector) : set_attempts (attempts c) c = c.
Proof. by destruct c. Qed.

Lemma settle_state (k : nat) (st : PromiseState) (c : ClawatchConnector) :
  state_of (settle k st c) = update_attempt k (settle_attempt st) c.
Proof.
  unfold settle. rewrite cbind_get.
  destruct (attempts c !! k) as [a|] eqn:Ha; simpl.
  - destruct (promise a) eqn:Hp.
    + rewrite cbind_modify. unfold emit, state_of, update_attempt. simpl.
      f_equal. apply list_alter_ext; [|done].
      intros a' Ha'. assert (a' = a) by congruence. subst a'.
      unfold settle_attempt. by rewrite Hp.
    + unfold cret, state_of, update_attempt. simpl.
      rewrite (list_alter_ext (settle_attempt st) id (attempts c) (attempts c)); [|
        intros a' Ha'; assert (a' = a) by congruence; subst a';
        unfold settle_attempt; by rewrite Hp | done].
      rewrite list_alter_id by done. by rewrite set_attempts_same.
    + unfold cret, state_of, update_attempt. simpl.
      rewrite (list_alter_ext (settle_attempt st) id (attempts c) (attempts c)); [|
        intros a' Ha'; assert (a' = a) by congruence; subst a';
        unfold settle_attempt; by rewrite Hp | done].
      rewrite list_alter_id by done. by rewrite set_attempts_same.
  - unfold cret, state_of, update_attempt. simpl.
    rewrite (list_alter_ext (settle_attempt st) id (attempts c) (attempts c)); [|
      intros a' Ha'; congruence | done].
    rewrite list_alter_id by done. by rewrite set_attempts_same.
Qed.

Lemma callbacks_onRegistered_state (ks : list nat) (watches : list WatchInfo)
    (c : ClawatchConnector) :
  state_of (callbacks_onRegistered ks watches c) = registered_state ks c.
Proof.
  revert c. induction ks as [|k ks IH]; intros c; [done|].
  cbn [callbacks_onRegistered registered_state].
  unfold clearTimeout. rewrite cbind_modify.
  unfold cbind at 1. rewrite startPing_shape.
  specialize (IH (set_pingInterval true (update_attempt k (set_timeout false) c))).
  destruct (callbacks_onRegistered_shape ks watches
              (set_pingInterval true (update_attempt k (set_timeout false) c)))
    as (c1 & ss & Hshape & _).
  unfold cbind. rewrite Hshape in *. unfold state_of in IH. simpl in IH. subst c1.
  pose proof (settle_state k Fulfilled
                (registered_state ks
                   (set_pingInterval true (update_attempt k (set_timeout false) c))))
    as Hs.
  unfold resolve, state_of in *.
  destruct (settle k Fulfilled _) as [[r c2] es]. simpl in *. done.
Qed.

Lemma registered_state_fields (ks : list nat) (c : ClawatchConnector) :
  ws (registered_state ks c) = ws c /\
  wrappers (registered_state ks c) = wrappers c /\
  backoff_fields (registered_state ks c) = backoff_fields c /\
  pingInterval (registered_state ks c)
  = match ks with [] => pingInterval c | _ => true end.
Proof.
  revert c. induction ks as [|k ks IH]; intros c; [done|].
  cbn [registered_state].
  destruct (IH (set_pingInterval true (update_attempt k (set_timeout false) c)))
    as (Hw & Hwr & Hb & Hp).
  split; [simpl; by rewrite Hw|].
  split; [simpl; by rewrite Hwr|].
  split; [unfold backoff_fields in *; simpl in *; by rewrite Hb|].
  simpl. rewrite Hp. by destruct ks.
Qed.

Lemma registered_state_lookup (ks : list nat) (c : ClawatchConnector) (j : nat) :
  attempts (registered_state ks c) !! j
  = (if decide (j ∈ ks) then registered_attempt else id) <$> attempts c !! j.
Proof.
  revert c. induction ks as [|k ks IH]; intros c.
  - simpl. by destruct (attempts c !! j).
  - cbn [registered_state]. unfold update_attempt at 1. simpl.
    rewrite list_lookup_alter.
    destruct (decide (k = j)) as [->|Hne].
    + rewrite IH. unfold update_attempt. simpl. rewrite list_lookup_alter_eq.
      rewrite (decide_True (P := j ∈ j :: ks)) by left.
      destruct (attempts c !! j) as [[s t p]|]; [|done]. simpl.
      destruct (decide (j ∈ ks)); by destruct p.
    + rewrite IH. unfold update_attempt. simpl.
      rewrite list_lookup_alter_ne by done.
      destruct (decide (j ∈ ks)) as [Hin|Hnin].
      * by rewrite decide_True by (by right).
      * rewrite decide_False; [done|].
        intros Hin. apply elem_of_cons in Hin as [->|]; done.
Qed.

(** A Registered frame settles every [connect()] call of the connector
    that got as far as a socket: its 15 s timer is cleared and its promise,
    if still pending, is fulfilled (a promise already settled keeps its
    state); the heartbeat timer is set; the socket handle and the other
    attempts are left alone; and the frame's watches are handed to
    [onRegistered] exactly once. *)
Theorem registered_settles_connect (c : ClawatchConnector)
    (watches : list WatchInfo) (k : nat) :
  k ∈ wrappers c ->
  let r := handleFrame (RegisteredFrame watches) c in
  result_of r = Returned tt /\
  attempts (state_of r) !! k = registered_attempt <$> attempts c !! k /\
  (forall j, j ∉ wrappers c -> attempts (state_of r) !! j = attempts c !! j) /\
  pingInterval (state_of r) = true /\
  ws (state_of r) = ws c /\
  exists ss, effects_of r = Call (onRegistered watches) :: ss /\ Forall is_settled ss.
Proof.
  intros Hk r.
  assert (Hr : r = callbacks_onRegistered (wrappers c) watches c).
  { unfold r, handleFrame. by rewrite cbind_get. }
  rewrite Hr.
  destruct (callbacks_onRegistered_shape (wrappers c) watches c)
    as (c' & ss & Hshape & Hss).
  pose proof (callbacks_onRegistered_state (wrappers c) watches c) as Hst.
  destruct (registered_state_fields (wrappers c) c) as (Hw & _ & _ & Hp).
  rewrite Hshape in *. unfold state_of, result_of, effects_of in *. simpl in *.
  subst c'.
  split; [done|]. split.
  { by rewrite registered_state_lookup, decide_True. }
  split.
  { intros j Hj. rewrite registered_state_lookup, decide_False by done.
    by destruct (attempts c !! j). }
  split.
  { rewrite Hp. destruct (wrappers c); [inversion Hk|done]. }
  split; [done|]. by exists ss.
Qed.

Lemma registered_settles_connect_witness :
  (0%nat ∈ wrappers sample_open) /\
  result_of (handleFrame (RegisteredFrame [{| wi_imei := sample_imei; wi_label := None |}])
               sample_open) = Returned tt /\
  attempts (state_of (handleFrame
                        (RegisteredFrame [{| wi_imei := sample_imei; wi_label := None |}])
                        sample_open)) !! 0%nat
  = registered_attempt <$> attempts sample_open !! 0%nat /\
  pingInterval (state_of (handleFrame
                            (RegisteredFrame [{| wi_imei := sample_imei; wi_label := None |}])
                            sample_open)) = true.
Proof.
  assert (Hw : wrappers sample_open = [0%nat]) by (vm_compute; reflexivity).
  assert (Hin : 0%nat ∈ wrappers sample_open) by (rewrite Hw; left).
  split; [exact Hin|].
  destruct (registered_settles_connect sample_open
              [{| wi_imei := sample_imei; wi_label := None |}] 0 Hin)
    as (H1 & H2 & _ & H4 & _).
  split; [exact H1|]. split; [exact H2|exact H4].
Defined.

(** ** How the promise of [connect()] comes out *)

Lemma connect_new_socket `{Platform} (url token : string) (r d a : bool) :
  WebSocket_new url = Returned tt ->
  connect (new_ClawatchConnector url token r d a)
  = (Returned 0%nat,
     set_wrappers [0%nat]
       (set_ws (Some 0%nat)
          (set_attempts [{| sock := Some CONNECTING; timeout := true; promise := Pending |}]
             (new_ClawatchConnector url token r d a))),
     []).
Proof.
  intros Hurl. unfold connect. rewrite cbind_get. simpl. rewrite Hurl.
  by rewrite cbind_modify.
Qed.

(** A first [connect()] on a new connector, when the [WebSocket]
    constructor accepts the URL, returns a pending promise with its 15 s
    timer set and sends nothing. From there: the open event sends exactly
    the Register frame with the token and clears the timer; a fatal
    authentication Error frame after the open rejects the promise with the
    frame's message; and the error handler of the socket, whatever
    [readyState] the host has given the socket when it calls the handler,
    clears the timer and rejects with the transport error. *)
Theorem connect_outcomes `{Platform} (url token : string) (r d a : bool)
    (code : option string) (message : string) (id : option string) :
  WebSocket_new url = Returned tt ->
  fatal_code code = true ->
  let c1 := state_of (connect (new_ClawatchConnector url token r d a)) in
  let c2 := state_of (deliver (ev_open 0) c1) in
  result_of (connect (new_ClawatchConnector url token r d a)) = Returned 0%nat /\
  effects_of (connect (new_ClawatchConnector url token r d a)) = [] /\
  attempts c1 = [{| sock := Some CONNECTING; timeout := true; promise := Pending |}] /\
  ws c1 = Some 0%nat /\
  effects_of (deliver (ev_open 0) c1)
  = [WsSend 0 (RegisterFrame token "openclaw-clawatch" PLUGIN_VERSION)] /\
  attempts c2 = [{| sock := Some OPEN; timeout := false; promise := Pending |}] /\
  effects_of (handleFrame (ErrorFrame code message id) c2)
  = [Call (onError code message id); Settled 0 (Rejected (JsError message None))] /\
  attempts (state_of (handleFrame (ErrorFrame code message id) c2))
  = [{| sock := Some OPEN; timeout := false;
        promise := Rejected (JsError message None) |}] /\
  (forall s : ReadyState,
     effects_of (onerror 0 (state_of (set_sock_state 0 s c1)))
     = [Settled 0 (Rejected (JsError "WebSocket error" None))] /\
     attempts (state_of (onerror 0 (state_of (set_sock_state 0 s c1))))
     = [{| sock := Some s; timeout := false;
           promise := Rejected (JsError "WebSocket error" None) |}]).
Proof.
  intros Hurl Hcode c1 c2.
  assert (Hc1 : c1 = set_wrappers [0%nat]
                       (set_ws (Some 0%nat)
                          (set_attempts
                             [{| sock := Some CONNECTING; timeout := true;
                                 promise := Pending |}]
                             (new_ClawatchConnector url token r d a)))).
  { unfold c1. by rewrite connect_new_socket. }
  rewrite connect_new_socket by done.
  split; [done|]. split; [done|].
  assert (Hc2 : c2 = set_wrappers [0%nat]
                       (set_ws (Some 0%nat)
                          (set_attempts
                             [{| sock := Some OPEN; timeout := false;
                                 promise := Pending |}]
                             (new_ClawatchConnector url token r d a)))).
  { unfold c2. rewrite Hc1. reflexivity. }
  split; [by rewrite Hc1|]. split; [by rewrite Hc1|].
  split; [rewrite Hc1; reflexivity|].
  split; [by rewrite Hc2|].
  assert (Herr : handleFrame (ErrorFrame code message id) c2
                 = (Returned tt,
                    set_wrappers [0%nat]
                      (set_ws (Some 0%nat)
                         (set_attempts
                            [{| sock := Some OPEN; timeout := false;
                                promise := Rejected (JsError message None) |}]
                            (new_ClawatchConnector url token r d a))),
                    [Call (onError code message id);
                     Settled 0 (Rejected (JsError message None))])).
  { rewrite Hc2. unfold handleFrame. rewrite cbind_get. simpl.
    unfold clearTimeout. rewrite cbind_modify. unfold cbind, emit. simpl.
    rewrite Hcode. reflexivity. }
  rewrite Herr.
  split; [done|]. split; [done|].
  rewrite Hc1. intros s. split; reflexivity.
Qed.

Lemma connect_outcomes_witness :
  @WebSocket_new sample_platform "wss://relay.example/connect" = Returned tt /\
  fatal_code (Some "invalid_token") = true /\
  effects_of
    (@deliver sample_platform (ev_open 0)
       (state_of (@connect sample_platform
                    (new_ClawatchConnector "wss://relay.example/connect" "token"
                       true true false))))
  = [WsSend 0 (RegisterFrame "token" "openclaw-clawatch" PLUGIN_VERSION)] /\
  effects_of
    (handleFrame (ErrorFrame (Some "invalid_token") "bad token" None)
       (state_of
          (@deliver sample_platform (ev_open 0)
             (state_of (@connect sample_platform
                          (new_ClawatchConnector "wss://relay.example/connect" "token"
                             true true false))))))
  = [Call (onError (Some "invalid_token") "bad token" None);
     Settled 0 (Rejected (JsError "bad token" None))].
Proof.
  assert (Hurl : @WebSocket_new sample_platform "wss://relay.example/connect"
                 = Returned tt) by (vm_compute; reflexivity).
  assert (Hcode : fatal_code (Some "invalid_token") = true) by (vm_compute; reflexivity).
  split; [exact Hurl|]. split; [exact Hcode|].
  destruct (@connect_outcomes sample_platform "wss://relay.example/connect" "token"
              true true false (Some "invalid_token") "bad token" None Hurl Hcode)
    as (_ & _ & _ & _ & H5 & _ & H7 & _).
  split; [exact H5|exact H7].
Defined.

(* ===================================================================== *)
(** * Further properties of the runtime *)
(* ===================================================================== *)

(** ** Session-key bookkeeping *)

Lemma receive_message_keys `{Platform} (w : World) (c : nat) (m i t : string)
    (ts : option number) (cmd : option bool) (ctx : option MessageContext) :
  is_Some (heap w !! c) ->
  sessionKeyToImei (receive c (InboundMessageFrame m i t ts cmd ctx) w)
  = <["session:" +:+ getSessionKey (default "watch:" (sessionKeyPrefix (config w))) i := i]>
      (<[getSessionKey (default "watch:" (sessionKeyPrefix (config w))) i := i]>
         (sessionKeyToImei w)).
Proof.
  intros [[cn o] Hc]. unfold receive, on_connector. rewrite Hc.
  unfold handleFrame, cbind, cget, run_effects. by destruct (has_onDebug cn).
Qed.

(** After an inbound message from a device the runtime answers
    [getImeiFromSessionKey] with that device's IMEI for the derived session
    key and for its [session:] alias, and answers as before for every other
    key; after [disconnect()] it answers null for every key. *)
Theorem session_key_bookkeeping `{Platform} (w : World) (c : nat) (m i t : string)
    (ts : option number) (cmd : option bool) (ctx : option MessageContext)
    (key : string) :
  is_Some (heap w !! c) ->
  let w1 := receive c (InboundMessageFrame m i t ts cmd ctx) w in
  let sk := getSessionKey (default "watch:" (sessionKeyPrefix (config w))) i in
  getImeiFromSessionKey sk w1 = Some i /\
  getImeiFromSessionKey ("session:" +:+ sk) w1 = Some i /\
  (key ≠ sk -> key ≠ "session:" +:+ sk ->
   getImeiFromSessionKey key w1 = getImeiFromSessionKey key w) /\
  getImeiFromSessionKey key (disconnect w1).2 = None.
Proof.
  intros Hc w1 sk. unfold getImeiFromSessionKey, w1.
  rewrite receive_message_keys by done. fold sk.
  split; [|split; [|split]].
  - rewrite lookup_insert. case_decide; [done|]. by rewrite lookup_insert_eq.
  - by rewrite lookup_insert_eq.
  - intros Hk1 Hk2. by rewrite !lookup_insert_ne.
  - destruct (disconnect_spec
                (receive c (InboundMessageFrame m i t ts cmd ctx) w))
      as (_ & _ & _ & _ & -> & _).
    apply lookup_empty.
Qed.

Lemma session_key_bookkeeping_witness :
  is_Some (heap sample_registered !! 0%nat) /\
  getImeiFromSessionKey
    (getSessionKey (default "watch:" (sessionKeyPrefix (config sample_registered)))
       sample_imei)
    (@receive sample_platform 0
       (InboundMessageFrame "m1" sample_imei "hello" None None None) sample_registered)
  = Some sample_imei /\
  getImeiFromSessionKey
    ("session:" +:+
     getSessionKey (default "watch:" (sessionKeyPrefix (config sample_registered)))
       sample_imei)
    (@receive sample_platform 0
       (InboundMessageFrame "m1" sample_imei "hello" None None None) sample_registered)
  = Some sample_imei.
Proof.
  assert (Hc : is_Some (heap sample_registered !! 0%nat)).
  { vm_compute. by eexists. }
  split; [exact Hc|].
  destruct (@session_key_bookkeeping sample_platform sample_registered 0
              "m1" sample_imei "hello" None None None "" Hc) as (H1 & H2 & _).
  split; [exact H1|exact H2].
Defined.

(** ** Connecting without a token *)

(** On a runtime whose configuration has no API token, [connect()] rejects
    with the "No apiToken" error without constructing a connector, opening
    a socket, sending or scheduling anything; the reconnect hook, when the
    runtime is not disconnecting, drops the connector reference, constructs
    nothing and schedules one retry after 2 s. *)
Theorem connect_requires_token `{Platform} (w : World) :
  apiToken (config w) = None ->
  outcomes (Runtime_connect w)
  = outcomes w ++
      [Threw (JsError
                "No apiToken. Run: openclaw clawatch login <countryCode> <phoneNumber>"
                None)] /\
  heap (Runtime_connect w) = heap w /\
  connector (Runtime_connect w) = connector w /\
  wire (Runtime_connect w) = wire w /\
  timers (Runtime_connect w) = timers w /\
  disconnecting (Runtime_connect w) = false /\
  (disconnecting w = false ->
   heap (attemptReconnect w) = heap w /\
   connector (attemptReconnect w) = None /\
   wire (attemptReconnect w) = wire w /\
   timers (attemptReconnect w)
   = timers w ++ [{| delay := 2000; callback := cb_retry_reconnect |}]).
Proof.
  intros Htok.
  unfold Runtime_connect, attemptReconnect, doConnect. simpl. rewrite Htok. simpl.
  do 6 (split; [reflexivity|]).
  intros Hd. rewrite Hd. simpl. rewrite ?Htok. simpl. rewrite ?Hd.
  do 3 (split; [reflexivity|]). reflexivity.
Qed.

Lemma connect_requires_token_witness :
  apiToken (config sample_signed_off) = None /\
  outcomes (@Runtime_connect sample_platform sample_signed_off)
  = outcomes sample_signed_off ++
      [Threw (JsError
                "No apiToken. Run: openclaw clawatch login <countryCode> <phoneNumber>"
                None)] /\
  heap (@Runtime_connect sample_platform sample_signed_off) = heap sample_signed_off.
Proof.
  assert (Htok : apiToken (config sample_signed_off) = None) by (vm_compute; reflexivity).
  split; [exact Htok|].
  destruct (@connect_requires_token sample_platform sample_signed_off Htok)
    as (H1 & H2 & _).
  split; [exact H1|exact H2].
Defined.

(** ** What goes on the wire *)

Lemma connect_settled_wire (c k : nat) (st : PromiseState) (w : World) :
  wire (connect_settled c k st w) = wire w.
Proof.
  unfold connect_settled, doConnect_rejected, log, add_timer.
  repeat case_match; done.
Qed.

Lemma connectorCallbacks_wire `{Platform} (cb : Callback) (w : World) :
  wire (connectorCallbacks cb w) = wire w.
Proof. by destruct cb. Qed.

Lemma run_effects_wire `{Platform} (c : nat) (es : list Effect) (w : World) :
  wire (run_effects c es w) = wire w ++ sent_frames c es.
Proof.
  revert w. induction es as [|e es IH]; intros w.
  - unfold run_effects. simpl. by rewrite app_nil_r.
  - change (run_effects c (e :: es) w) with (run_effects c es (run_effect c e w)).
    rewrite IH. destruct e as [cb|k f|d|k st]; simpl.
    + by rewrite connectorCallbacks_wire.
    + by rewrite <- app_assoc.
    + done.
    + by rewrite connect_settled_wire.
Qed.

Lemma on_connector_wire `{Platform} {A} (c : nat) (m : CM A) (w : World) :
  wire (on_connector c m w).2
  = wire w ++ match heap w !! c with
              | Some (cn, _) => sent_frames c (effects_of (m cn))
              | None => []
              end.
Proof.
  unfold on_connector, effects_of.
  destruct (heap w !! c) as [[cn o]|]; [|by rewrite app_nil_r].
  destruct (m cn) as [[r cn'] es]. simpl. by rewrite run_effects_wire.
Qed.

Lemma sent_frames_no_frame (c : nat) (es : list Effect) :
  Forall no_frame es -> sent_frames c es = [].
Proof.
  induction 1 as [|e es He _ IH]; [done|].
  unfold sent_frames in *. simpl. by destruct e.
Qed.

Lemma on_connector_quiet `{Platform} {A} (c : nat) (m : CM A) (w : World) :
  emits no_frame m -> wire (on_connector c m w).2 = wire w.
Proof.
  intros Hm. rewrite on_connector_wire.
  destruct (heap w !! c) as [[cn o]|]; [|by rewrite app_nil_r].
  by rewrite sent_frames_no_frame, app_nil_r.
Qed.

Lemma doConnect_rejected_wire (o : Origin) (err : Thrown) (w : World) :
  wire (doConnect_rejected o err w) = wire w.
Proof.
  unfold doConnect_rejected, log, add_timer. by repeat case_match.
Qed.

Lemma doConnect_wire `{Platform} (o : Origin) (w : World) :
  wire (doConnect o w) = wire w.
Proof.
  unfold doConnect. destruct (truthy_string (apiToken (config w))) as [tok|].
  - rewrite on_connector_quiet; [done|apply no_frame_connect].
  - by rewrite doConnect_rejected_wire.
Qed.

Lemma attemptReconnect_wire `{Platform} (w : World) :
  wire (attemptReconnect w) = wire w.
Proof.
  unfold attemptReconnect. destruct (disconnecting w); [done|].
  by rewrite doConnect_wire.
Qed.

Lemma run_timer_wire `{Platform} (cb : TimerCallback) (w : World) :
  wire (run_timer cb w) = wire w.
Proof.
  destruct cb; simpl.
  - apply attemptReconnect_wire.
  - unfold manual_reconnect. destruct (_ && _); [|done].
    by rewrite attemptReconnect_wire.
  - unfold retry_reconnect. destruct (negb _); [|done].
    apply attemptReconnect_wire.
Qed.

Lemma connector_send_wire `{Platform} (frame : Frame) (w : World) :
  wire (connector_send frame w) = wire w ++ on_open_socket w frame.
Proof.
  rewrite connector_send_spec. unfold on_open_socket.
  destruct (open_socket w) as [[c k]|]; [done|by rewrite app_nil_r].
Qed.

Lemma sock_state_after_open (cn : ClawatchConnector) (j k : nat) :
  is_Some (sock_state cn j) ->
  sock_state
    (set_reconnectAttempts 0
       (update_attempt j (set_timeout false)
          (update_attempt j (fun a => set_sock (Some OPEN) a) cn))) k
  = if decide (k = j) then Some OPEN else sock_state cn k.
Proof.
  intros [s Hs]. unfold sock_state, update_attempt in *. simpl.
  destruct (decide (k = j)) as [->|Hne].
  - rewrite !list_lookup_alter_eq. by destruct (attempts cn !! j).
  - by rewrite !list_lookup_alter_ne.
Qed.

Lemma deliver_frames `{Platform} (c : nat) (e : SocketEvent) (cn : ClawatchConnector) :
  sent_frames c (effects_of (deliver e cn))
  = match e with
    | ev_open j =>
        if decide (sock_state cn j = Some CONNECTING)
        then match ws cn with
             | Some k =>
                 if decide (k = j \/ sock_state cn k = Some OPEN)
                 then [(c, k, RegisterFrame (token cn) "openclaw-clawatch" PLUGIN_VERSION)]
                 else []
             | None => []
             end
        else []
    | ev_ping =>
        if pingInterval cn
        then match ws cn with
             | Some k =>
                 if decide (sock_state cn k = Some OPEN) then [(c, k, PingFrame)] else []
             | None => []
             end
        else []
    | _ => []
    end.
Proof.
  destruct e as [j|j data|j|j|j|].
  - destruct (decide (sock_state cn j = Some CONNECTING)) as [Hs|Hs].
    + destruct (deliver_open_spec cn j Hs) as [_ ->].
      unfold send. rewrite cbind_get.
      change (ws (set_reconnectAttempts 0 _)) with (ws cn).
      destruct (ws cn) as [k|]; [|done].
      rewrite sock_state_after_open by (by rewrite Hs).
      destruct (decide (k = j)) as [->|Hne].
      * rewrite decide_True by done. by rewrite decide_True by (by left).
      * destruct (decide (sock_state cn k = Some OPEN)).
        -- by rewrite decide_True by (by right).
        -- rewrite decide_False; [done|]. by intros [|].
    + unfold deliver. rewrite cbind_get. by rewrite decide_False.
  - apply sent_frames_no_frame. unfold deliver. rewrite cbind_get.
    destruct (decide _); [apply no_frame_onmessage|constructor].
  - apply sent_frames_no_frame. unfold deliver. rewrite cbind_get.
    destruct (decide _); [|constructor].
    apply (emits_bind (E := no_frame));
      [apply emits_modify|intros _; apply no_frame_onclose].
  - apply sent_frames_no_frame. unfold deliver. rewrite cbind_get.
    destruct (decide _); [|constructor].
    apply (emits_bind (E := no_frame));
      [apply emits_modify|intros _; apply no_frame_onerror].
  - apply sent_frames_no_frame. unfold deliver. rewrite cbind_get.
    destruct (decide _); [|constructor].
    apply (emits_bind (E := no_frame));
      [apply emits_modify|intros _; apply no_frame_connect_timeout].
  - unfold deliver. rewrite cbind_get.
    destruct (pingInterval cn); [|done].
    unfold ping_tick. rewrite cbind_get. unfold ws_readyState, send.
    destruct (ws cn) as [k|] eqn:Hws; simpl.
    + destruct (decide (sock_state cn k = Some OPEN)) as [Hs|Hs]; [|done].
      rewrite cbind_get, Hws. by rewrite decide_True.
    + done.
Qed.

Lemma wire_step `{Platform} (ev : Event) (w : World) :
  wire (step ev w) = wire w ++ step_frames ev w.
Proof.
  destruct ev as [| |id text done|now rnd action imei params|now rnd imei text
                  |c e|n|n replyText|n err]; simpl.
  - unfold Runtime_connect. rewrite doConnect_wire. by rewrite app_nil_r.
  - rewrite app_nil_r. unfold disconnect. simpl.
    destruct (connector w) as [c|]; [|done].
    rewrite on_connector_quiet; [done|apply no_frame_disconnect].
  - apply connector_send_wire.
  - apply connector_send_wire.
  - unfold sendPush. destruct (isConnected w) eqn:Hw; simpl.
    + destruct (existsb _ (pairedWatches w)); simpl.
      * apply connector_send_wire.
      * by rewrite app_nil_r.
    + apply isConnected_false_open_socket in Hw. unfold on_open_socket.
      rewrite Hw. destruct (existsb _ (pairedWatches w)); by rewrite app_nil_r.
  - rewrite on_connector_wire.
    destruct (heap w !! c) as [[cn o]|] eqn:Hc.
    + rewrite deliver_frames. by destruct e.
    + by destruct e.
  - rewrite app_nil_r. destruct (timers w !! n) as [t|]; [|done].
    by rewrite run_timer_wire.
  - destruct (handlerCalls w !! n) as [hc|]; [|by rewrite app_nil_r].
    unfold handler_then. by rewrite connector_send_wire.
  - destruct (handlerCalls w !! n) as [hc|]; [|by rewrite app_nil_r].
    unfold handler_catch. by rewrite connector_send_wire.
Qed.

Lemma step_frames_length `{Platform} (ev : Event) (w : World) :
  (length (step_frames ev w) <= 1)%nat.
Proof.
  assert (Hopen : forall f, (length (on_open_socket w f) <= 1)%nat).
  { intros f. unfold on_open_socket. destruct (open_socket w) as [[c k]|]; simpl; lia. }
  destruct ev as [| |id text done|now rnd action imei params|now rnd imei text
                  |c e|n|n replyText|n err]; simpl; try lia; try apply Hopen.
  - destruct (existsb _ _); [apply Hopen|simpl; lia].
  - destruct e; simpl; try lia; repeat case_match; simpl; lia.
  - destruct (handlerCalls w !! n); [apply Hopen|simpl; lia].
  - destruct (handlerCalls w !! n); [apply Hopen|simpl; lia].
Qed.

(** Every event adds at most one frame to what the runtime has sent, and
    never removes one. The frame is: the Register frame when a socket
    opens, a Ping at a heartbeat tick, the Reply, Control or Push frame of
    the API call, the Reply or Error frame of a settled handler; and it is
    sent only if a socket is open to carry it. Nothing is sent by
    [connect()], by [disconnect()], by a timer, or in the course of
    handling an inbound frame, a close or an error of a socket. *)
Theorem wire_after_step `{Platform} (ev : Event) (evs : list Event) (w : World) :
  wire (step ev w) = wire w ++ step_frames ev w /\
  (length (step_frames ev w) <= 1)%nat /\
  wire w `prefix_of` wire (run evs w) /\
  (forall c k data, step_frames (socket c (ev_message k data)) w = []) /\
  (forall c k, step_frames (socket c (ev_close k)) w = []) /\
  (forall n, step_frames (timer_fires n) w = []) /\
  step_frames api_connect w = [] /\ step_frames api_disconnect w = [].
Proof.
  split; [apply wire_step|]. split; [apply step_frames_length|].
  split; [|done].
  revert w. induction evs as [|e evs IH]; intros w; [done|].
  change (run (e :: evs) w) with (run evs (step e w)).
  etrans; [|apply IH]. rewrite wire_step. by apply prefix_app_r.
Qed.

(** ** Reconnecting *)

Lemma insert_snoc {A} (l : list A) (x y : A) :
  <[length l := y]> (l ++ [x]) = l ++ [y].
Proof.
  rewrite insert_app_r_alt by lia. by rewrite Nat.sub_diag.
Qed.

Lemma truthy_string_Some (x : option string) (s : string) :
  truthy_string x = Some s <-> x = Some s /\ s ≠ "".
Proof.
  destruct x as [t|]; simpl; [|by split; [|intros []]].
  case_bool_decide as Ht; split.
  - done.
  - intros [[= ->] Hs]. done.
  - intros [= ->]. done.
  - by intros [[= ->] _].
Qed.

Lemma attemptReconnect_spec `{Platform} (w : World) (tok : string) :
  disconnecting w = false ->
  apiToken (config w) = Some tok ->
  tok ≠ "" ->
  WebSocket_new (wsUrl (config w)) = Returned tt ->
  attemptReconnect w
  = set_heap (heap w ++ [(connecting_connector (wsUrl (config w)) tok,
                          from_attemptReconnect)])
      (set_connector (Some (length (heap w)))
         (log (info "Clawatch: reconnecting after disconnect..." []) w)).
Proof.
  intros Hd Htok Hne Hurl.
  assert (Htr : truthy_string (apiToken (config w)) = Some tok).
  { apply truthy_string_Some. by split. }
  unfold attemptReconnect. rewrite Hd. unfold doConnect. simpl. rewrite Htr.
  unfold on_connector. simpl. rewrite list_lookup_middle by done.
  rewrite connect_new_socket by done.
  unfold run_effects. simpl. by rewrite insert_snoc.
Qed.

Lemma close_of_connecting `{Platform} (url tok : string) :
  deliver (ev_close 0) (connecting_connector url tok)
  = (Returned tt,
     set_reconnectAttempts 1
       (set_ws None
          (set_attempts [{| sock := Some CLOSED; timeout := true; promise := Pending |}]
             (connecting_connector url tok))),
     [SetTimeout_onReconnect 1000]).
Proof. reflexivity. Qed.

Lemma error_of_connecting `{Platform} (url tok : string) :
  deliver (ev_error 0) (connecting_connector url tok)
  = (Returned tt,
     set_attempts [{| sock := Some CLOSED; timeout := false;
                      promise := Rejected (JsError "WebSocket error" None) |}]
       (connecting_connector url tok),
     [Settled 0 (Rejected (JsError "WebSocket error" None))]).
Proof. reflexivity. Qed.

Lemma close_after_error `{Platform} (url tok : string) :
  effects_of
    (deliver (ev_close 0)
       (set_attempts [{| sock := Some CLOSED; timeout := false;
                         promise := Rejected (JsError "WebSocket error" None) |}]
          (connecting_connector url tok)))
  = [SetTimeout_onReconnect 1000].
Proof. reflexivity. Qed.

(** C3: through the runtime the schedule of the claim does not come
    about. The reconnect hook does not call [connect()] again on the
    connector whose socket closed, as the comment on [onReconnect] asks
    its implementor to: it constructs a new connector, whose attempt
    counter is zero. So once the hook has run, the close of the new
    connector's socket schedules the hook after 1000 ms again, whatever
    the counters of the earlier connectors have reached, both when the
    close event comes alone and when the error event of a failed
    connection comes first. Closes that follow one another without an
    open between them are each followed by a delay of 1000 ms, where the
    claim has [min (1000 * 2^n) 300000] for the [n]-th of them, which is
    more from the second on. *)
Theorem reconnect_delay_restarts `{Platform} (w : World) (tok : string) :
  disconnecting w = false ->
  apiToken (config w) = Some tok ->
  tok ≠ "" ->
  WebSocket_new (wsUrl (config w)) = Returned tt ->
  let w1 := attemptReconnect w in
  let c := length (heap w) in
  connector w1 = Some c /\
  (reconnectAttempts ∘ fst) <$> heap w1 !! c = Some 0 /\
  (forall c0 x, heap w !! c0 = Some x -> heap w1 !! c0 = Some x) /\
  timers (step (socket c (ev_close 0)) w1)
  = timers w ++ [{| delay := 1000; callback := cb_onReconnect |}] /\
  timers (run [socket c (ev_error 0); socket c (ev_close 0)] w1)
  = timers w ++ [{| delay := 1000; callback := cb_manual_reconnect |};
                 {| delay := 2000; callback := cb_retry_reconnect |};
                 {| delay := 1000; callback := cb_onReconnect |}] /\
  (forall n, (1 <= n)%nat -> 1000 < Z.min (1000 * 2 ^ Z.of_nat n) 300000).
Proof.
  intros Hd Htok Hne Hurl w1 c.
  unfold w1. rewrite (attemptReconnect_spec w tok Hd Htok Hne Hurl). fold c.
  set (cn := connecting_connector (wsUrl (config w)) tok).
  split; [done|].
  split; [simpl; unfold c; by rewrite list_lookup_middle|].
  split; [intros c0 x Hx; simpl; by apply lookup_app_l_Some|].
  split; [|split].
  - unfold step, on_connector. simpl. unfold c. rewrite list_lookup_middle by done.
    fold cn. unfold cn at 1. rewrite close_of_connecting.
    unfold run_effects. simpl. reflexivity.
  - unfold run. simpl. unfold on_connector at 2. simpl.
    unfold c. rewrite list_lookup_middle by done.
    fold cn. unfold cn at 1. rewrite error_of_connecting.
    rewrite insert_snoc. unfold run_effects. simpl.
    unfold connect_settled. simpl. rewrite list_lookup_middle by done.
    simpl. rewrite ?Hd. simpl.
    unfold on_connector. simpl. rewrite ?Hd. simpl.
    rewrite list_lookup_middle by done.
    pose proof (close_after_error (wsUrl (config w)) tok) as Hclose.
    unfold effects_of in Hclose. fold cn in Hclose.
    destruct (deliver (ev_close 0) _) as [[r cn'] es]. simpl in Hclose. subst es.
    unfold run_effects. simpl. by rewrite <- !app_assoc.
  - intros n Hn. apply Z.min_glb_lt; [|lia].
    assert (2 ^ 1 <= 2 ^ Z.of_nat n) by (apply Z.pow_le_mono_r; lia). lia.
Qed.

Lemma reconnect_delay_restarts_witness :
  disconnecting sample_dropped = false /\
  apiToken (config sample_dropped) = Some "token" /\
  "token" ≠ "" /\
  @WebSocket_new sample_platform (wsUrl (config sample_dropped)) = Returned tt /\
  timers sample_dropped = [{| delay := 1000; callback := cb_onReconnect |}] /\
  timers (@step sample_platform (socket (length (heap sample_dropped)) (ev_close 0))
            (@attemptReconnect sample_platform sample_dropped))
  = timers sample_dropped ++ [{| delay := 1000; callback := cb_onReconnect |}].
Proof.
  assert (Hd : disconnecting sample_dropped = false) by (vm_compute; reflexivity).
  assert (Htok : apiToken (config sample_dropped) = Some "token")
    by (vm_compute; reflexivity).
  assert (Hne : "token" ≠ "") by discriminate.
  assert (Hurl : @WebSocket_new sample_platform (wsUrl (config sample_dropped))
                 = Returned tt) by (vm_compute; reflexivity).
  assert (Hts : timers sample_dropped = [{| delay := 1000; callback := cb_onReconnect |}])
    by (vm_compute; reflexivity).
  split; [exact Hd|]. split; [exact Htok|]. split; [exact Hne|].
  split; [exact Hurl|]. split; [exact Hts|].
  destruct (@reconnect_delay_restarts sample_platform sample_dropped "token"
              Hd Htok Hne Hurl) as (_ & _ & _ & Hclose & _).
  exact Hclose.
Defined.

(** When the hook runs on a runtime that is not disconnecting, has a
    non-empty token and a URL the [WebSocket] constructor accepts, it
    constructs a new connector, whose socket is connecting and whose
    attempt counter is zero, and makes it the current one. The connectors that existed before are
    left exactly as they were (the hook does not call [disconnect()] on the
    previous one), nothing is sent, and the roster and the session keys
    stay as they were until the next Registered frame. *)
Theorem reconnect_constructs_new_connector `{Platform} (w : World) (tok : string) :
  disconnecting w = false ->
  apiToken (config w) = Some tok ->
  tok ≠ "" ->
  WebSocket_new (wsUrl (config w)) = Returned tt ->
  let fresh := state_of (connect (new_ClawatchConnector (wsUrl (config w)) tok
                                    true true false)) in
  heap (attemptReconnect w) = heap w ++ [(fresh, from_attemptReconnect)] /\
  connector (attemptReconnect w) = Some (length (heap w)) /\
  reconnectAttempts fresh = 0 /\
  attempts fresh = [{| sock := Some CONNECTING; timeout := true; promise := Pending |}] /\
  isConnected (attemptReconnect w) = false /\
  pairedWatches (attemptReconnect w) = pairedWatches w /\
  sessionKeyToImei (attemptReconnect w) = sessionKeyToImei w /\
  wire (attemptReconnect w) = wire w /\
  timers (attemptReconnect w) = timers w.
Proof.
  intros Hd Htok Hne Hurl fresh.
  assert (Hst : fresh = connecting_connector (wsUrl (config w)) tok).
  { unfold fresh. by rewrite connect_new_socket. }
  rewrite (attemptReconnect_spec w tok Hd Htok Hne Hurl), <- Hst. simpl.
  split; [done|]. split; [done|].
  split; [by rewrite Hst|]. split; [by rewrite Hst|].
  split; [|done].
  unfold isConnected. simpl. rewrite list_lookup_middle by done.
  by rewrite Hst.
Qed.

Lemma reconnect_constructs_new_connector_witness :
  disconnecting sample_registered = false /\
  apiToken (config sample_registered) = Some "token" /\
  "token" ≠ "" /\
  @WebSocket_new sample_platform (wsUrl (config sample_registered)) = Returned tt /\
  connector (@attemptReconnect sample_platform sample_registered)
  = Some (length (heap sample_registered)) /\
  isConnected (@attemptReconnect sample_platform sample_registered) = false /\
  pairedWatches (@attemptReconnect sample_platform sample_registered)
  = pairedWatches sample_registered.
Proof.
  assert (Hd : disconnecting sample_registered = false) by (vm_compute; reflexivity).
  assert (Htok : apiToken (config sample_registered) = Some "token").
  { vm_compute. reflexivity. }
  assert (Hurl : @WebSocket_new sample_platform (wsUrl (config sample_registered))
                 = Returned tt) by (vm_compute; reflexivity).
  assert (Hne : "token" ≠ "") by discriminate.
  split; [exact Hd|]. split; [exact Htok|]. split; [exact Hne|]. split; [exact Hurl|].
  destruct (@reconnect_constructs_new_connector sample_platform sample_registered
              "token" Hd Htok Hne Hurl) as (_ & H2 & _ & _ & H5 & H6 & _).
  split; [exact H2|]. split; [exact H5|exact H6].
Defined.

(* ===================================================================== *)
(** * Resolving the configuration *)
(* ===================================================================== *)

Lemma find_truthy_nonempty (xs : list (option string)) (v : string) :
  find_truthy xs = Some v -> v ≠ "".
Proof.
  induction xs as [|[s|] xs IH]; simpl; [done| |done].
  case_bool_decide; [done|]. by intros [= <-].
Qed.

Lemma parse_default_key (i : string) :
  is_imei i = true ->
  parseImeiFromSessionKey (getSessionKey DEFAULT_SESSION_PREFIX i) = Some i /\
  parseImeiFromSessionKey ("session:" +:+ getSessionKey DEFAULT_SESSION_PREFIX i) = Some i.
Proof.
  intros Hi. unfold is_imei in Hi.
  unfold getSessionKey, DEFAULT_SESSION_PREFIX. split.
  - change ("clawatch:" +:+ i) with (String "c" ("lawatch:" +:+ i)).
    unfold parseImeiFromSessionKey.
    change (strip_prefix "session:" (String "c" ("lawatch:" +:+ i))) with (@None string).
    change (String "c" ("lawatch:" +:+ i)) with ("clawatch:" +:+ i).
    by apply match_clawatch_imei_append.
  - change ("session:" +:+ "clawatch:" +:+ i)
      with (String "s" ("ession:" +:+ "clawatch:" +:+ i)).
    unfold parseImeiFromSessionKey.
    change (String "s" ("ession:" +:+ "clawatch:" +:+ i))
      with ("session:" +:+ "clawatch:" +:+ i).
    rewrite strip_prefix_append.
    by rewrite match_clawatch_imei_append.
Qed.

Lemma resolveConfig_resolves (env : string -> option string) (raw : JsValue) :
  exists cfg,
    resolveConfig env raw = Some cfg /\
    apiUrl cfg ≠ "" /\
    (forall get s, raw = JsObject get -> get "apiUrl" = JsString s -> s ≠ "" ->
                   apiUrl cfg = s) /\
    apiToken cfg ≠ Some "" /\
    is_Some (agentId cfg) /\
    (exists p, sessionKeyPrefix cfg = Some p /\
               default "watch:" (sessionKeyPrefix cfg) = p) /\
    (enabled cfg = Some false <->
     exists get, raw = JsObject get /\ get "enabled" = JsBoolean false).
Proof.
  unfold resolveConfig.
  set (o := match raw with JsObject get => get | _ => fun _ => JsUndefined end).
  set (configured := match o "apiUrl" with JsString s => s | _ => "" end).
  set (resolved := if bool_decide (configured = "") then _ else configured).
  assert (Hres : resolved ≠ "").
  { unfold resolved. case_bool_decide as Hc; [|done].
    destruct (find_truthy _) as [v|] eqn:Hv; [|done].
    by apply find_truthy_nonempty in Hv. }
  rewrite bool_decide_eq_false_2 by done.
  eexists. split; [reflexivity|]. simpl.
  split; [done|]. split; [|split; [|split; [|split]]].
  - intros get s -> Hget Hs. unfold resolved, configured, o. rewrite Hget.
    by rewrite bool_decide_eq_false_2.
  - destruct (o "apiToken"); try done. case_bool_decide; congruence.
  - by eexists.
  - by eexists.
  - split.
    + intros [= He]. unfold o in He. destruct raw; simpl in He; try done.
      exists get. split; [done|].
      destruct (get "enabled") as [| |[]| | | |]; simpl in He; congruence.
    + intros (get & -> & Hget). unfold o. by rewrite Hget.
Qed.

(** [resolveConfig] never returns null, whatever the raw value and the
    environment: the resolved [apiUrl] is never empty, a configured
    non-empty string wins over the environment, an empty [apiToken] string
    counts as no token (so the runtime's test [!config.apiToken] sees a
    non-empty token or [undefined]), [agentId] and [sessionKeyPrefix] are
    always set (so the runtime's fallback prefix [watch:] is never used with
    a resolved configuration), and only the boolean [false] switches
    [enabled] off. *)
Theorem resolveConfig_never_null (env : string -> option string) (raw : JsValue) :
  exists cfg,
    resolveConfig env raw = Some cfg /\
    apiUrl cfg ≠ "" /\
    (forall get s, raw = JsObject get -> get "apiUrl" = JsString s -> s ≠ "" ->
                   apiUrl cfg = s) /\
    apiToken cfg ≠ Some "" /\
    is_Some (agentId cfg) /\
    (exists p, sessionKeyPrefix cfg = Some p /\
               default "watch:" (sessionKeyPrefix cfg) = p) /\
    (enabled cfg = Some false <->
     exists get, raw = JsObject get /\ get "enabled" = JsBoolean false).
Proof. apply resolveConfig_resolves. Qed.

(** A runtime created from a resolved configuration whose raw value names
    no [sessionKeyPrefix] hands the message handler a session key that
    [parseImeiFromSessionKey] maps back to the sending device, as it is and
    under the [session:] alias, for every fifteen-digit IMEI; and the
    runtime's own table agrees. *)
Theorem resolved_config_session_keys `{Platform} (env : string -> option string)
    (raw : JsValue) (cfg : ClawatchConfig) (w : World) (c : nat) (m i t : string)
    (ts : option number) (cmd : option bool) (ctx : option MessageContext) :
  resolveConfig env raw = Some cfg ->
  (forall get s, raw = JsObject get -> get "sessionKeyPrefix" ≠ JsString s) ->
  config w = cfg ->
  is_Some (heap w !! c) ->
  is_imei i = true ->
  let w1 := receive c (InboundMessageFrame m i t ts cmd ctx) w in
  exists hc,
    handlerCalls w1 = handlerCalls w ++ [hc] /\
    hc_imei hc = i /\
    parseImeiFromSessionKey (hc_sessionKey hc) = Some i /\
    parseImeiFromSessionKey ("session:" +:+ hc_sessionKey hc) = Some i /\
    getImeiFromSessionKey (hc_sessionKey hc) w1 = Some i.
Proof.
  intros Hcfg Hraw Hw Hc Hi w1.
  assert (Hp : sessionKeyPrefix cfg = Some DEFAULT_SESSION_PREFIX).
  { revert Hcfg. unfold resolveConfig. case_bool_decide; [done|].
    intros [= <-]. simpl. f_equal.
    destruct raw; try done. simpl.
    destruct (get "sessionKeyPrefix") eqn:Hget; try done.
    by destruct (Hraw get s eq_refl). }
  eexists. split; [by apply receive_message|]. simpl.
  rewrite Hw, Hp. simpl.
  destruct (parse_default_key i Hi) as [H1 H2].
  split; [done|]. split; [done|]. split; [done|].
  unfold getImeiFromSessionKey, w1. rewrite receive_message_keys by done.
  rewrite Hw, Hp. simpl.
  rewrite lookup_insert. case_decide; [done|]. by rewrite lookup_insert_eq.
Qed.

(* ===================================================================== *)
(** * The tools and the channel *)
(* ===================================================================== *)

Lemma sendPush_cases `{Platform} (w : World) (now : Z) (rnd imei text : string) :
  (isConnected w = false /\
   sendPush now rnd imei text w = (Threw (JsError "Clawatch not connected" None), w)) \/
  (isConnected w = true /\ (imei ∉ wi_imei <$> pairedWatches w) /\
   sendPush now rnd imei text w
   = (Threw (JsError ("IMEI " +:+ imei +:+ " not paired") None), w)) \/
  (exists c k,
     open_socket w = Some (c, k) /\ imei ∈ wi_imei <$> pairedWatches w /\
     sendPush now rnd imei text w
     = (Returned tt,
        set_wire (wire w ++ [(c, k, PushFrame (fresh_id "push" now rnd) imei text)]) w)).
Proof.
  destruct (isConnected w) eqn:Hw.
  - destruct (decide (imei ∈ wi_imei <$> pairedWatches w)) as [Hin|Hin].
    + right. right. pose proof Hin as Hin'.
      apply list_elem_of_fmap in Hin' as (x & Hi & Hx).
      destruct (sendPush_paired w now rnd imei text Hw) as (c & k & Hck & Hs);
        [by exists x|].
      by exists c, k.
    + right. left. split; [done|]. split; [done|].
      apply sendPush_unpaired; [done|].
      intros x Hx Hi. apply Hin. apply list_elem_of_fmap. by exists x.
  - left. split; [done|]. by apply sendPush_disconnected.
Qed.

(** The tool [clawatch_push] never throws. With no runtime it answers
    that Clawatch is not connected; with no IMEI to go by (none given and
    an empty roster, or the empty string given, whatever the roster) it
    answers that no watch is paired; otherwise it answers with the failure
    of [sendPush], the runtime unchanged, or puts one Push frame for the
    chosen IMEI on the open socket. The IMEI chosen when none is given is
    that of the first watch of the roster, which is paired. *)
Theorem clawatch_push_tool `{Platform} (now : Z) (rnd : string) (imei : option string)
    (text : string) (rt : World) :
  let chosen := from_option Some (wi_imei <$> head (pairedWatches rt)) imei in
  clawatch_push now rnd imei text None = ("Clawatch not connected.", None) /\
  (chosen = None \/ chosen = Some "" ->
   clawatch_push now rnd imei text (Some rt) = ("No paired watch.", Some rt)) /\
  (imei = None -> forall target, chosen = Some target ->
   target ∈ wi_imei <$> pairedWatches rt) /\
  (forall target, chosen = Some target -> target ≠ "" ->
   (isConnected rt = false ->
    clawatch_push now rnd imei text (Some rt)
    = ("Push failed: Clawatch not connected", Some rt)) /\
   (isConnected rt = true -> target ∉ wi_imei <$> pairedWatches rt ->
    clawatch_push now rnd imei text (Some rt)
    = ("Push failed: IMEI " +:+ target +:+ " not paired", Some rt)) /\
   (isConnected rt = true -> target ∈ wi_imei <$> pairedWatches rt ->
    exists c k,
      open_socket rt = Some (c, k) /\
      clawatch_push now rnd imei text (Some rt)
      = ("Pushed to " +:+ target +:+ ": " +:+ slice_0_50 text
         +:+ (if Nat.ltb 50 (utf16_length text) then ellipsis else ""),
         Some (set_wire
                 (wire rt ++ [(c, k, PushFrame (fresh_id "push" now rnd) target text)])
                 rt)))).
Proof.
  intros chosen. split; [reflexivity|].
  unfold clawatch_push, getPairedWatches. fold chosen.
  split; [|split].
  - by intros [->| ->].
  - intros -> target. unfold chosen. simpl.
    destruct (pairedWatches rt) as [|x l]; simpl; [done|].
    intros [= <-]. left.
  - intros target Hc Ht.
    assert (Htr : truthy_string chosen = Some target) by by apply truthy_string_Some.
    rewrite Htr.
    destruct (sendPush_cases rt now rnd target text)
      as [[Hd Hs]|[(Hd & Hn & Hs)|(c & k & Hck & Hin & Hs)]]; rewrite Hs.
    + split; [done|]. split; intros Hd'; congruence.
    + split; [congruence|]. split; [done|]. by intros _ Hin.
    + assert (Hd : isConnected rt = true).
      { apply isConnected_open_socket. by rewrite Hck. }
      split; [congruence|]. split; [by intros _ Hn|].
      intros _ _. by exists c, k.
Qed.

(** The echo of a pushed text counts code units: thirty letters with an
    accent are echoed whole, fifty-one letters are cut and marked. *)
Example clawatch_push_echo :
  (@clawatch_push sample_platform 1700000000000 "0.4fzyo82mvyr" None
     (joined (replicate 30 "é")) (Some sample_registered)).1
  = "Pushed to 860000035452456: " +:+ joined (replicate 30 "é") /\
  (@clawatch_push sample_platform 1700000000000 "0.4fzyo82mvyr" None
     (joined (replicate 51 "é")) (Some sample_registered)).1
  = "Pushed to 860000035452456: " +:+ joined (replicate 50 "é") +:+ ellipsis.
Proof. evaluate. Qed.

Lemma is_continuation_byte (x : N) :
  is_continuation (ascii_of_N (128 + x mod 64)) = true.
Proof.
  assert (Hx : (x mod 64 < 64)%N) by (apply N.mod_lt; lia).
  revert Hx. generalize (x mod 64)%N. intros n Hn.
  unfold is_continuation. rewrite N_ascii_embedding by lia.
  apply andb_true_intro. split; [apply N.leb_le|apply N.ltb_lt]; lia.
Qed.

Lemma high_surrogate_length (b0 b1 b2 b3 : ascii) :
  utf16_length (high_surrogate b0 b1 b2 b3) = 1%nat.
Proof.
  unfold high_surrogate. cbn [utf16_length].
  rewrite !is_continuation_byte. reflexivity.
Qed.

Lemma slice_units_length (n : nat) (s : string) :
  (utf16_length (slice_units n s) <= n)%nat.
Proof.
  revert n. induction s as [|c s IH]; intros n; [simpl; lia|].
  cbn [slice_units]. destruct (is_continuation c) eqn:Hc.
  - cbn [utf16_length]. rewrite Hc. apply IH.
  - destruct n as [|n]; [simpl; lia|].
    destruct (is_lead4 c) eqn:H4.
    + destruct n as [|n].
      * destruct s as [|b1 [|b2 [|b3 s]]]; try (simpl; lia).
        by rewrite high_surrogate_length.
      * cbn [utf16_length]. rewrite Hc, H4. specialize (IH n). lia.
    + cbn [utf16_length]. rewrite Hc, H4. specialize (IH n). lia.
Qed.

Lemma slice_units_nonempty (n : nat) (s : string) :
  (2 <= n)%nat -> s ≠ "" -> slice_units n s ≠ "".
Proof.
  intros Hn Hs. destruct s as [|c s]; [done|].
  cbn [slice_units]. destruct (is_continuation c); [done|].
  destruct n as [|[|n]]; [lia|lia|]. by destruct (is_lead4 c).
Qed.

Lemma interim_text_length (message : option string) :
  (utf16_length (interim_text message) <= 80)%nat /\ interim_text message ≠ "".
Proof.
  unfold interim_text, slice_0_80. split; [apply slice_units_length|].
  apply slice_units_nonempty; [lia|].
  destruct (truthy_string (trim <$> message)) as [s|] eqn:Hs; simpl; [|done].
  by apply truthy_string_Some in Hs as [_ Hs].
Qed.

Lemma interim_cases `{Platform} (key channel : option string)
    (rt0 : option World) (now : Z) (rnd : string) (message : option string)
    (rt : World) :
  let tool := (clawatch_interim_factory key channel rt0).1 in
  let out := clawatch_interim tool now rnd message (Some rt) in
  (utf16_length (interim_text message) <= 80)%nat /\
  interim_text message ≠ "" /\
  (parseImeiFromSessionKey (default "" key) = None ->
   out.1.1 = "Skipped: not a clawatch session." /\ out.2 = Some rt) /\
  (forall i, parseImeiFromSessionKey (default "" key) = Some i ->
   (i ∉ wi_imei <$> pairedWatches rt ->
    out.1.1 = "Skipped: IMEI " +:+ i +:+ " not paired." /\ out.2 = Some rt) /\
   (i ∈ wi_imei <$> pairedWatches rt -> isConnected rt = false ->
    out.1.1 = "Interim failed: Clawatch not connected" /\ out.2 = Some rt) /\
   (i ∈ wi_imei <$> pairedWatches rt -> isConnected rt = true ->
    exists c k,
      open_socket rt = Some (c, k) /\
      out.1.1 = "Sent interim: " +:+ interim_text message /\
      out.2 = Some (set_wire
                      (wire rt ++ [(c, k, PushFrame (fresh_id "push" now rnd) i
                                            (interim_text message))])
                      rt))).
Proof.
  intros tool out.
  destruct (interim_text_length message) as [Hlen Hne].
  split; [done|]. split; [done|].
  unfold out, clawatch_interim, tool, clawatch_interim_factory. simpl.
  split.
  - intros ->. done.
  - intros i Hi. rewrite Hi.
    assert (Hne' : i ≠ "").
    { apply parseImeiFromSessionKey_Some in Hi as [Hd _].
      intros ->. by vm_compute in Hd. }
    assert (Htr : truthy_string (Some i) = Some i) by by apply truthy_string_Some.
    rewrite Htr. unfold getPairedWatches.
    destruct (existsb _ (pairedWatches rt)) eqn:Hex; simpl.
    + apply paired_existsb in Hex.
      assert (Hin : i ∈ wi_imei <$> pairedWatches rt).
      { destruct Hex as (x & Hx & <-). apply list_elem_of_fmap. by exists x. }
      destruct (sendPush_cases rt now rnd i (interim_text message))
        as [[Hd Hs]|[(Hd & Hn & Hs)|(c & k & Hck & _ & Hs)]]; rewrite Hs; simpl.
      * split; [done|]. split; [done|]. congruence.
      * done.
      * split; [done|].
        assert (Hd : isConnected rt = true).
        { apply isConnected_open_socket. by rewrite Hck. }
        split; [congruence|]. intros _ _. by exists c, k.
    + assert (Hn : i ∉ wi_imei <$> pairedWatches rt).
      { intros (x & Hi' & Hx)%list_elem_of_fmap.
        assert (existsb (fun w => bool_decide (wi_imei w = i)) (pairedWatches rt) = true)
          as Hex' by (apply paired_existsb; by exists x).
        congruence. }
      split; [done|]. split; by intros Hin.
Qed.

(** The tool [clawatch_interim] never throws, and sends at most one frame:
    a Push frame, on the open socket, for the IMEI spelled out in the
    session key its factory was given, and only when that IMEI is in the
    roster. The text pushed is never empty and never longer than eighty
    UTF-16 code units. A session key that is not a Clawatch key, or a missing one,
    makes the tool skip, whatever the runtime. *)
Theorem clawatch_interim_tool `{Platform} (key channel : option string)
    (rt0 : option World) (now : Z) (rnd : string) (message : option string)
    (rt : World) :
  let tool := (clawatch_interim_factory key channel rt0).1 in
  let out := clawatch_interim tool now rnd message (Some rt) in
  (utf16_length (interim_text message) <= 80)%nat /\
  interim_text message ≠ "" /\
  (parseImeiFromSessionKey (default "" key) = None ->
   out.1.1 = "Skipped: not a clawatch session." /\ out.2 = Some rt) /\
  (forall i, parseImeiFromSessionKey (default "" key) = Some i ->
   (i ∉ wi_imei <$> pairedWatches rt ->
    out.1.1 = "Skipped: IMEI " +:+ i +:+ " not paired." /\ out.2 = Some rt) /\
   (i ∈ wi_imei <$> pairedWatches rt -> isConnected rt = false ->
    out.1.1 = "Interim failed: Clawatch not connected" /\ out.2 = Some rt) /\
   (i ∈ wi_imei <$> pairedWatches rt -> isConnected rt = true ->
    exists c k,
      open_socket rt = Some (c, k) /\
      out.1.1 = "Sent interim: " +:+ interim_text message /\
      out.2 = Some (set_wire
                      (wire rt ++ [(c, k, PushFrame (fresh_id "push" now rnd) i
                                            (interim_text message))])
                      rt))).
Proof. apply interim_cases. Qed.

(** The tool [clawatch_control] looks neither at the connection nor at the
    roster once it has an IMEI: for [unpair], [get_config] and
    [set_interval] with an interval it hands one Control frame to the
    connector, which sends it on the open socket or drops it, and it
    answers with the same words in both cases, the interval rendered as
    the host renders a number. Any other action, and [set_interval]
    without an interval, sends nothing. *)
Theorem clawatch_control_tool `{Platform} `{NumberHost} (now : Z) (rnd action : string)
    (imei : option string) (intervalSec : option number) (rt : World) (target : string) :
  from_option Some (wi_imei <$> head (pairedWatches rt)) imei = Some target ->
  target ≠ "" ->
  let out := clawatch_control now rnd action imei intervalSec (Some rt) in
  let sent frame :=
    Some match open_socket rt with
         | Some (c, k) => set_wire (wire rt ++ [(c, k, frame)]) rt
         | None => rt
         end in
  (action = "unpair" ->
   out = ("Unpaired " +:+ target,
          sent (ControlFrame (fresh_id "ctrl" now rnd) "unpair" target None))) /\
  (action = "get_config" ->
   out = ("Config request sent for " +:+ target,
          sent (ControlFrame (fresh_id "ctrl" now rnd) "get_config" target None))) /\
  (forall sec, action = "set_interval" -> intervalSec = Some sec ->
   out = ("Interval set to " +:+ Number_toString sec +:+ "s for " +:+ target,
          sent (ControlFrame (fresh_id "ctrl" now rnd) "set_interval" target
                  (Some [("intervalSec", sec)])))) /\
  (action ≠ "unpair" -> action ≠ "get_config" ->
   action ≠ "set_interval" \/ intervalSec = None ->
   out = ("Unknown action.", Some rt)).
Proof.
  intros Hc Ht out sent.
  assert (Htr : truthy_string
                  (from_option Some (wi_imei <$> head (pairedWatches rt)) imei)
                = Some target) by by apply truthy_string_Some.
  unfold out, clawatch_control, getPairedWatches. rewrite Htr.
  unfold sendControl, sent. simpl. rewrite !connector_send_spec.
  split; [|split; [|split]].
  - intros ->. simpl. done.
  - intros ->. simpl. done.
  - intros sec -> ->. rewrite bool_decide_eq_true_2 by done.
    by rewrite connector_send_spec.
  - intros Hu Hg Hs.
    rewrite (bool_decide_eq_false_2 _ Hu), (bool_decide_eq_false_2 _ Hg).
    destruct Hs as [Hs| ->].
    + by rewrite (bool_decide_eq_false_2 _ Hs).
    + by case_bool_decide.
Qed.

(** The channel's [sendText] and [sendMedia] throw when there is no
    runtime; [sendMedia] with a media URL throws before anything is sent,
    even to a paired watch on a connected session; without one it does what
    [sendText] does. [sendText] passes on what [sendPush] throws, the
    runtime unchanged, or puts one Push frame for [to] on the open socket
    and returns the channel name with an identifier made from [to] and the
    clock. *)
Theorem channel_outbound `{Platform} (now : Z) (rnd : string) (now' : Z)
    (to text : string) (mediaUrl : option string) (w : World) :
  sendText now rnd now' to text None
  = (Threw (JsError "Clawatch runtime not available" None), None) /\
  sendMedia now rnd now' to text mediaUrl None
  = (Threw (JsError "Clawatch runtime not available" None), None) /\
  (forall u, mediaUrl = Some u -> u ≠ "" ->
   sendMedia now rnd now' to text mediaUrl (Some w)
   = (Threw (JsError "Clawatch does not support media; use text only" None), Some w)) /\
  (mediaUrl = None \/ mediaUrl = Some "" ->
   sendMedia now rnd now' to text mediaUrl (Some w)
   = sendText now rnd now' to text (Some w)) /\
  (isConnected w = false ->
   sendText now rnd now' to text (Some w)
   = (Threw (JsError "Clawatch not connected" None), Some w)) /\
  (isConnected w = true -> to ∉ wi_imei <$> pairedWatches w ->
   sendText now rnd now' to text (Some w)
   = (Threw (JsError ("IMEI " +:+ to +:+ " not paired") None), Some w)) /\
  (isConnected w = true -> to ∈ resolveAllowFrom (Some w) ->
   exists c k,
     open_socket w = Some (c, k) /\
     sendText now rnd now' to text (Some w)
     = (Returned {| dl_channel := "clawatch";
                    dl_messageId := "push-" +:+ to +:+ "-" +:+ pretty now' |},
        Some (set_wire
                (wire w ++ [(c, k, PushFrame (fresh_id "push" now rnd) to text)]) w))).
Proof.
  split; [reflexivity|]. split; [reflexivity|].
  split; [|split].
  - intros u -> Hu. unfold sendMedia.
    assert (Htr : truthy_string (Some u) = Some u) by by apply truthy_string_Some.
    by rewrite Htr.
  - by intros [->| ->].
  - unfold sendText, resolveAllowFrom, getPairedWatches.
    destruct (sendPush_cases w now rnd to text)
      as [[Hd Hs]|[(Hd & Hn & Hs)|(c & k & Hck & Hin & Hs)]]; rewrite Hs.
    + split; [done|]. split; intros; congruence.
    + split; [congruence|]. split; [done|]. by intros _ Hin.
    + assert (Hd : isConnected w = true).
      { apply isConnected_open_socket. by rewrite Hck. }
      split; [congruence|]. split; [by intros _ Hn|].
      intros _ _. by exists c, k.
Qed.

Lemma clawatch_control_tool_witness :
  from_option Some (wi_imei <$> head (pairedWatches sample_registered)) None
  = Some sample_imei /\
  sample_imei ≠ "" /\
  @clawatch_control sample_platform sample_numbers 1700000000000 "0.4fzyo82mvyr"
    "unpair" None None
    (Some sample_registered)
  = ("Unpaired " +:+ sample_imei,
     Some match open_socket sample_registered with
          | Some (c, k) =>
              set_wire
                (wire sample_registered
                 ++ [(c, k, ControlFrame (fresh_id "ctrl" 1700000000000 "0.4fzyo82mvyr")
                              "unpair" sample_imei None)])
                sample_registered
          | None => sample_registered
          end).
Proof.
  assert (Ht : from_option Some (wi_imei <$> head (pairedWatches sample_registered)) None
               = Some sample_imei) by (vm_compute; reflexivity).
  assert (Hne : sample_imei ≠ "") by discriminate.
  split; [exact Ht|]. split; [exact Hne|].
  destruct (@clawatch_control_tool sample_platform sample_numbers 1700000000000
              "0.4fzyo82mvyr" "unpair" None None sample_registered sample_imei Ht Hne)
    as (Hu & _).
  exact (Hu eq_refl).
Defined.

(** ** The interim tool and the session key of a message *)

Lemma append_inj_length (p q i r : string) :
  p +:+ i = q +:+ r -> String.length i = String.length r -> p = q /\ i = r.
Proof.
  revert q. induction p as [|a p IH]; intros [|b q] Heq Hlen.
  - done.
  - apply (f_equal String.length) in Heq.
    rewrite append_nil, append_cons in Heq. simpl in Heq.
    rewrite append_length in Heq. lia.
  - apply (f_equal String.length) in Heq.
    rewrite append_nil, append_cons in Heq. simpl in Heq.
    rewrite append_length in Heq. lia.
  - rewrite !append_cons in Heq. injection Heq as -> Heq.
    destruct (IH q Heq Hlen) as [-> ->]. done.
Qed.

Lemma fifteen_digits_length (s : string) :
  fifteen_digits s = true -> String.length s = 15%nat.
Proof.
  unfold fifteen_digits. intros [Hl _]%andb_prop. by apply Nat.eqb_eq.
Qed.

Lemma parse_prefixed_key (p i r : string) :
  fifteen_digits i = true ->
  parseImeiFromSessionKey (p +:+ i) = Some r ->
  (p = "clawatch:" \/ p = "session:clawatch:") /\ r = i.
Proof.
  intros Hi Hp. apply parseImeiFromSessionKey_Some in Hp as [Hr [Hp|Hp]].
  - destruct (append_inj_length p "clawatch:" i r) as [-> ->]; [done| |by split; [left|]].
    by rewrite !fifteen_digits_length.
  - change ("session:clawatch:" +:+ r) with (("session:clawatch:") +:+ r) in Hp.
    destruct (append_inj_length p "session:clawatch:" i r) as [-> ->];
      [done| |by split; [right|]].
    by rewrite !fifteen_digits_length.
Qed.

Lemma parse_session_clawatch_key (i : string) :
  fifteen_digits i = true ->
  parseImeiFromSessionKey ("session:clawatch:" +:+ i) = Some i.
Proof.
  intros Hi. by destruct (parse_default_key i Hi) as [_ H2].
Qed.

(** The session key the runtime hands to the message handler decides what
    [clawatch_interim] does during the agent run for that message. With
    the prefix [clawatch:] (or [session:clawatch:]) and a fifteen-digit
    IMEI, the tool made for that key pushes to the device that sent the
    message whenever that device is in the roster and the session is
    connected. With any other prefix the tool skips every call, whatever
    the state of the runtime. *)
Theorem interim_follows_session_key `{Platform} (w : World) (c : nat) (m i t : string)
    (ts : option number) (cmd : option bool) (ctx : option MessageContext)
    (channel : option string) (rt0 : option World) (now : Z) (rnd : string)
    (message : option string) (rt : World) :
  is_Some (heap w !! c) ->
  is_imei i = true ->
  let p := default "watch:" (sessionKeyPrefix (config w)) in
  let key := getSessionKey p i in
  let tool := (clawatch_interim_factory (Some key) channel rt0).1 in
  let out := clawatch_interim tool now rnd message (Some rt) in
  handlerCalls (receive c (InboundMessageFrame m i t ts cmd ctx) w)
  = handlerCalls w ++
      [{| hc_msgId := m; hc_imei := i; hc_text := t; hc_sessionKey := key;
          hc_context := ctx |}] /\
  (p = "clawatch:" \/ p = "session:clawatch:" ->
   i ∈ wi_imei <$> pairedWatches rt ->
   isConnected rt = true ->
   exists c' k,
     open_socket rt = Some (c', k) /\
     out.2 = Some (set_wire
                     (wire rt ++ [(c', k, PushFrame (fresh_id "push" now rnd) i
                                            (interim_text message))])
                     rt)) /\
  (p ≠ "clawatch:" -> p ≠ "session:clawatch:" ->
   out.1.1 = "Skipped: not a clawatch session." /\ out.2 = Some rt).
Proof.
  intros Hc Hi p key tool out.
  split; [by apply receive_message|].
  destruct (interim_cases (Some key) channel rt0 now rnd message rt)
    as (_ & _ & Hnone & Hsome).
  fold tool in Hnone, Hsome. fold out in Hnone, Hsome. simpl in Hnone, Hsome.
  split.
  - intros Hp Hin Hconn.
    assert (Hk : parseImeiFromSessionKey key = Some i).
    { unfold key, getSessionKey. destruct Hp as [-> | ->].
      - by destruct (parse_default_key i Hi).
      - by apply parse_session_clawatch_key. }
    destruct (Hsome i Hk) as (_ & _ & Hsend).
    destruct (Hsend Hin Hconn) as (c' & k & Hck & _ & Hout).
    by exists c', k.
  - intros Hp1 Hp2. apply Hnone.
    destruct (parseImeiFromSessionKey key) as [r|] eqn:Hk; [|done].
    unfold key, getSessionKey in Hk.
    by destruct (parse_prefixed_key p i r Hi Hk) as [[?|?] _].
Qed.

Lemma interim_follows_session_key_witness :
  is_Some (heap sample_registered !! 0%nat) /\
  is_imei sample_imei = true /\
  default "watch:" (sessionKeyPrefix (config sample_registered)) = "clawatch:" /\
  sample_imei ∈ wi_imei <$> pairedWatches sample_registered /\
  isConnected sample_registered = true /\
  exists c' k,
    open_socket sample_registered = Some (c', k) /\
    (@clawatch_interim sample_platform
       (clawatch_interim_factory
          (Some (getSessionKey
                   (default "watch:" (sessionKeyPrefix (config sample_registered)))
                   sample_imei))
          None None).1
       1700000000000 "0.4fzyo82mvyr" (Some "  looking that up  ")
       (Some sample_registered)).2
    = Some (set_wire
              (wire sample_registered
               ++ [(c', k, PushFrame (fresh_id "push" 1700000000000 "0.4fzyo82mvyr")
                             sample_imei (interim_text (Some "  looking that up  ")))])
              sample_registered).
Proof.
  assert (Hc : is_Some (heap sample_registered !! 0%nat)).
  { vm_compute. by eexists. }
  assert (Hi : is_imei sample_imei = true) by (vm_compute; reflexivity).
  assert (Hp : default "watch:" (sessionKeyPrefix (config sample_registered))
               = "clawatch:") by (vm_compute; reflexivity).
  assert (Hin : sample_imei ∈ wi_imei <$> pairedWatches sample_registered).
  { assert (Hr : wi_imei <$> pairedWatches sample_registered = [sample_imei])
      by (vm_compute; reflexivity).
    rewrite Hr. left. }
  assert (Hconn : isConnected sample_registered = true) by (vm_compute; reflexivity).
  split; [exact Hc|]. split; [exact Hi|]. split; [exact Hp|].
  split; [exact Hin|]. split; [exact Hconn|].
  destruct (@interim_follows_session_key sample_platform sample_registered 0%nat
              "m1" sample_imei "hello" None None None None None
              1700000000000 "0.4fzyo82mvyr" (Some "  looking that up  ")
              sample_registered Hc Hi) as (_ & Hsend & _).
  exact (Hsend (or_introl Hp) Hin Hconn).
Defined.

Example interim_sample_text :
  interim_text (Some "  looking that up  ") = "looking that up" /\
  interim_text (Some "   ") = "ok" /\
  interim_text None = "ok".
Proof. evaluate. Qed.

(** Outside ASCII: a message of one em space (U+2003) is blank; fifty
    letters with an accent are fifty code units and go out whole; of
    eighty-one emoji, two code units each, forty are kept. *)
Example interim_text_beyond_ascii :
  interim_text (Some (bytes [226; 128; 131]%N)) = "ok" /\
  interim_text (Some (joined (replicate 50 "é"))) = joined (replicate 50 "é") /\
  utf16_length (joined (replicate 50 "é")) = 50%nat /\
  interim_text (Some (joined (replicate 81 "😀"))) = joined (replicate 40 "😀") /\
  slice_units 2 "a😀b" = "a" +:+ bytes [237; 160; 189]%N.
Proof. evaluate. Qed.

Lemma resolved_config_session_keys_witness :
  resolveConfig sample_env sample_raw = Some sample_resolved_config /\
  (forall get s, sample_raw = JsObject get -> get "sessionKeyPrefix" ≠ JsString s) /\
  config sample_started = sample_resolved_config /\
  is_Some (heap sample_started !! 0%nat) /\
  is_imei sample_imei = true /\
  exists hc,
    handlerCalls (@receive sample_platform 0
                    (InboundMessageFrame "m1" sample_imei "hello" None None None)
                    sample_started)
    = handlerCalls sample_started ++ [hc] /\
    hc_imei hc = sample_imei /\
    parseImeiFromSessionKey (hc_sessionKey hc) = Some sample_imei /\
    parseImeiFromSessionKey ("session:" +:+ hc_sessionKey hc) = Some sample_imei /\
    getImeiFromSessionKey (hc_sessionKey hc)
      (@receive sample_platform 0
         (InboundMessageFrame "m1" sample_imei "hello" None None None)
         sample_started)
    = Some sample_imei.
Proof.
  assert (Hcfg : resolveConfig sample_env sample_raw = Some sample_resolved_config)
    by (vm_compute; reflexivity).
  assert (Hraw : forall get s,
            sample_raw = JsObject get -> get "sessionKeyPrefix" ≠ JsString s).
  { intros get s Heq. injection Heq as <-. vm_compute. discriminate. }
  assert (Hw : config sample_started = sample_resolved_config)
    by (vm_compute; reflexivity).
  assert (Hc : is_Some (heap sample_started !! 0%nat)).
  { vm_compute. by eexists. }
  assert (Hi : is_imei sample_imei = true) by (vm_compute; reflexivity).
  split; [exact Hcfg|]. split; [exact Hraw|]. split; [exact Hw|].
  split; [exact Hc|]. split; [exact Hi|].
  exact (@resolved_config_session_keys sample_platform sample_env sample_raw
           sample_resolved_config sample_started 0%nat "m1" sample_imei "hello"
           None None None Hcfg Hraw Hw Hc Hi).
Defined.

Example sample_resolved_values :
  apiUrl sample_resolved_config = "wss://staging.example/connect" /\
  apiToken sample_resolved_config = Some "token" /\
  sessionKeyPrefix sample_resolved_config = Some "clawatch:" /\
  enabled sample_resolved_config = Some true /\
  (url ∘ fst <$> heap sample_started) = ["wss://staging.example/connect"].
Proof. evaluate. Qed.

(** ** Starting and stopping the service *)

Lemma run_effects_config `{Platform} (c : nat) (es : list Effect) (w : World) :
  config (run_effects c es w) = config w.
Proof. by destruct (run_effects_frame c es w) as (_ & _ & _ & ->). Qed.

Lemma run_effect_roster `{Platform} (c : nat) (e : Effect) (w : World) :
  is_settled e -> pairedWatches (run_effect c e w) = pairedWatches w.
Proof.
  destruct e as [| | |k st]; try done. intros _. apply connect_settled_roster.
Qed.

Lemma connect_effects `{Platform} (cn : ClawatchConnector) :
  attempts cn = [] -> ws cn = None ->
  Connector_isConnected (state_of (connect cn)) = false /\
  Forall is_settled (effects_of (connect cn)).
Proof.
  intros Ha Hws. unfold connect. rewrite cbind_get. rewrite Ha. simpl.
  destruct (WebSocket_new (url cn)) as [[]|err].
  - rewrite cbind_modify. simpl. split; [|constructor].
    unfold Connector_isConnected, ws_readyState, sock_state. simpl. by rewrite Ha.
  - rewrite cbind_modify.
    unfold reject, settle, cbind, cget, cmodify, emit, cret, state_of, effects_of.
    simpl. split.
    + unfold Connector_isConnected, ws_readyState. simpl. by rewrite Hws.
    + apply Forall_cons. split; [done|constructor].
Qed.

Lemma run_settled_only `{Platform} (c : nat) (es : list Effect) (w : World) :
  Forall is_settled es ->
  pairedWatches (run_effects c es w) = pairedWatches w /\
  wire (run_effects c es w) = wire w.
Proof.
  intros Hes. split; [by apply run_settled_roster|].
  rewrite run_effects_wire.
  assert (Hs : sent_frames c es = []); [|by rewrite Hs, app_nil_r].
  induction Hes as [|e es He _ IH]; [done|].
  destruct e; try done.
Qed.

(** The service starts a runtime unless the plugin configuration says
    [enabled: false], with the boolean, or the host has no gateway
    settings; any other value of [enabled] starts it. The runtime it
    creates has the resolved configuration and has had [connect()] called:
    it is not connected yet, has an empty roster and has sent nothing; with
    a token it has constructed its one connector, without a token it has
    constructed none, has set no timer, and its [connect()] has rejected.
    Stopping calls [disconnect()] on the runtime and forgets it. *)
Theorem service_lifecycle `{Platform} (env : string -> option string) (raw : JsValue)
    (gateway : bool) (rt0 : option World) :
  let disabled := exists get, raw = JsObject get /\ get "enabled" = JsBoolean false in
  (disabled -> (service_start env raw gateway rt0).1 = rt0) /\
  (gateway = false -> (service_start env raw gateway rt0).1 = rt0) /\
  (~ disabled -> gateway = true ->
   exists cfg w,
     resolveConfig env raw = Some cfg /\
     service_start env raw gateway rt0 = (Some w, []) /\
     config w = cfg /\
     disconnecting w = false /\
     isConnected w = false /\
     pairedWatches w = [] /\
     wire w = [] /\
     (is_Some (apiToken cfg) -> connector w = Some 0%nat /\ length (heap w) = 1%nat) /\
     (apiToken cfg = None ->
      connector w = None /\ heap w = [] /\ timers w = [] /\
      outcomes w
      = [Threw (JsError
                  "No apiToken. Run: openclaw clawatch login <countryCode> <phoneNumber>"
                  None)]) /\
     (service_stop (Some w)).1 = None /\
     exists w', (service_stop (Some w)).2 = Some w' /\
                disconnecting w' = true /\ connector w' = None /\
                isConnected w' = false /\ wire w' = wire w) /\
  service_stop None = (None, None).
Proof.
  intros disabled.
  destruct (resolveConfig_resolves env raw)
    as (cfg & Hcfg & Hurl & _ & Htk & _ & _ & Hen).
  unfold service_start. rewrite Hcfg. simpl.
  rewrite (bool_decide_eq_false_2 _ Hurl), orb_false_r.
  split; [|split; [|split; [|done]]].
  - intros Hdis. apply Hen in Hdis. by rewrite Hdis.
  - intros ->. by destruct (negb (default false (enabled cfg))).
  - intros Hdis ->.
    assert (He : default false (enabled cfg) = true).
    { destruct (enabled cfg) as [[]|] eqn:He'; [done| |].
      - destruct Hdis. by apply Hen.
      - revert Hcfg He'. unfold resolveConfig. case_bool_decide; [done|].
        by intros [= <-]. }
    rewrite He. simpl.
    exists cfg, (Runtime_connect (createClawatchRuntime cfg)).
    split; [done|]. split; [done|].
    set (w := Runtime_connect (createClawatchRuntime cfg)).
    assert (Hw : config w = cfg /\ disconnecting w = false /\ isConnected w = false /\
                 pairedWatches w = [] /\ wire w = [] /\
                 (is_Some (apiToken cfg) ->
                  connector w = Some 0%nat /\ length (heap w) = 1%nat) /\
                 (apiToken cfg = None ->
                  connector w = None /\ heap w = [] /\ timers w = [] /\
                  outcomes w
                  = [Threw (JsError
                       "No apiToken. Run: openclaw clawatch login <countryCode> <phoneNumber>"
                       None)])).
    { unfold w, Runtime_connect, doConnect. simpl.
      destruct (truthy_string (apiToken cfg)) as [tok|] eqn:Htr.
      - apply truthy_string_Some in Htr as [Htok Hne].
        unfold on_connector. simpl.
        set (cn := new_ClawatchConnector (wsUrl cfg) tok true true false).
        destruct (connect_effects cn eq_refl eq_refl) as [Hconn Hes].
        unfold state_of, effects_of in Hconn, Hes.
        destruct (connect cn) as [[r cn'] es]. simpl in Hconn, Hes. cbn [snd].
        destruct (run_effects_frame 0 es
                    (set_heap [(cn', from_connect)]
                       (set_connector (Some 0%nat)
                          (set_heap [(cn, from_connect)]
                             (set_disconnecting false (createClawatchRuntime cfg))))))
          as (Hh & Hcn & Hd & Hc).
        destruct (run_settled_only 0 es
                    (set_heap [(cn', from_connect)]
                       (set_connector (Some 0%nat)
                          (set_heap [(cn, from_connect)]
                             (set_disconnecting false (createClawatchRuntime cfg)))))
                    Hes) as (Hr & Hwire).
        split; [by rewrite Hc|]. split; [by rewrite Hd|].
        split; [unfold isConnected; by rewrite Hcn, Hh|].
        split; [by rewrite Hr|]. split; [by rewrite Hwire|].
        split; [|congruence]. intros _. by rewrite Hcn, Hh.
      - assert (Hnone : apiToken cfg = None).
        { destruct (apiToken cfg) as [tok|]; [|done].
          simpl in Htr. case_bool_decide; [congruence|done]. }
        simpl. do 5 (split; [done|]).
        split; [rewrite Hnone; by intros [? ?]|done]. }
    destruct Hw as (H1 & H2 & H3 & H4 & H5 & H6 & H7).
    do 7 (split; [done|]). split; [done|].
    unfold service_stop. simpl.
    destruct (disconnect_spec w) as (Hd1 & Hd2 & Hd3 & Hd4 & Hd5 & Hd6).
    exists (disconnect w).2. split; [done|].
    do 3 (split; [done|]).
    change (disconnect w).2 with (step api_disconnect w).
    rewrite wire_step. simpl. apply app_nil_r.
Qed.

(** ** Resolving delivery targets *)

(** *** Stripping white space *)

Lemma rev_onto_app (s acc : string) : rev_onto s acc = string_rev s +:+ acc.
Proof.
  unfold string_rev. revert acc. induction s as [|c s IH]; intros acc; [done|].
  simpl. rewrite (IH (String c acc)), (IH (String c "")).
  by rewrite append_assoc.
Qed.

Lemma string_rev_cons (c : ascii) (s : string) :
  string_rev (String c s) = string_rev s +:+ String c "".
Proof. unfold string_rev at 1. simpl. apply rev_onto_app. Qed.

Lemma string_rev_app (a b : string) :
  string_rev (a +:+ b) = string_rev b +:+ string_rev a.
Proof.
  induction a as [|c a IH]; [by rewrite append_nil, append_nil_r|].
  rewrite append_cons, !string_rev_cons, IH. apply append_assoc.
Qed.

Lemma string_rev_involutive (s : string) : string_rev (string_rev s) = s.
Proof.
  induction s as [|c s IH]; [done|].
  by rewrite string_rev_cons, string_rev_app, IH.
Qed.

Lemma string_rev_length (s : string) : String.length (string_rev s) = String.length s.
Proof.
  induction s as [|c s IH]; [done|].
  rewrite string_rev_cons, append_length, IH. simpl. lia.
Qed.

Lemma all_digits_app (a b : string) :
  all_digits (a +:+ b) = all_digits a && all_digits b.
Proof.
  induction a as [|c a IH]; [done|].
  rewrite append_cons. simpl. by rewrite IH, andb_assoc.
Qed.

Lemma all_digits_rev (s : string) : all_digits (string_rev s) = all_digits s.
Proof.
  induction s as [|c s IH]; [done|].
  rewrite string_rev_cons, all_digits_app, IH. simpl.
  rewrite andb_true_r. apply andb_comm.
Qed.

Lemma joined_snoc (l : list string) (e : string) : joined (l ++ [e]) = joined l +:+ e.
Proof. rewrite joined_app. simpl. by rewrite append_nil_r. Qed.

Lemma string_rev_joined (l : list string) :
  string_rev (joined l) = joined (string_rev <$> rev l).
Proof.
  induction l as [|e l IH]; [done|].
  change (joined (e :: l)) with (e +:+ joined l).
  rewrite string_rev_app, IH. cbn [rev]. rewrite fmap_app.
  change (string_rev <$> [e]) with [string_rev e]. by rewrite joined_snoc.
Qed.

Lemma made_of_rev (encs : list string) (s : string) :
  made_of encs s -> made_of (string_rev <$> encs) (string_rev s).
Proof.
  intros (l & Hl & ->). exists (string_rev <$> rev l).
  split; [|apply string_rev_joined].
  apply Forall_fmap, Forall_rev. eapply Forall_impl; [exact Hl|].
  intros e He. simpl. apply list_elem_of_fmap. by exists e.
Qed.

Lemma rev_rev_fmap (encs : list string) : string_rev <$> (string_rev <$> encs) = encs.
Proof.
  rewrite <- list_fmap_compose. rewrite <- (list_fmap_id encs) at 2.
  apply list_fmap_ext. intros _ e _. apply string_rev_involutive.
Qed.

Lemma strip_any_Some (encs : list string) (s r : string) :
  strip_any encs s = Some r -> exists enc, enc ∈ encs /\ s = enc +:+ r.
Proof.
  induction encs as [|e encs IH]; simpl; [done|].
  destruct (strip_prefix e s) as [rest|] eqn:Hp.
  - intros [= ->]. exists e. split; [left|]. by apply strip_prefix_Some.
  - intros Hs. destruct (IH Hs) as (enc & Hin & ->). exists enc. split; [by right|done].
Qed.

Lemma strip_all_made_of (encs : list string) (fuel : nat) (s : string) :
  exists pre, made_of encs pre /\ s = pre +:+ strip_all encs fuel s.
Proof.
  revert s. induction fuel as [|fuel IH]; intros s.
  - exists "". split; [by exists []|done].
  - simpl. destruct (strip_any encs s) as [rest|] eqn:Hs.
    + apply strip_any_Some in Hs as (enc & Hin & ->).
      destruct (IH rest) as (pre & (l & Hl & ->) & Hrest).
      exists (enc +:+ joined l). split.
      * exists (enc :: l). split; [by apply Forall_cons|done].
      * rewrite append_assoc. by f_equal.
    + exists "". split; [by exists []|done].
Qed.

Lemma strip_any_empty (encs : list string) :
  Forall (fun enc => enc ≠ "") encs -> strip_any encs "" = None.
Proof.
  induction 1 as [|e l He _ IH]; [done|].
  simpl. destruct e as [|c e]; [done|]. exact IH.
Qed.

Section Strip.
Variable encs : list string.
Hypothesis encs_nonempty : Forall (fun enc => enc ≠ "") encs.
Hypothesis encs_prefix_free :
  forall enc r, enc ∈ encs -> strip_any encs (enc +:+ r) = Some r.

Lemma strip_all_padded (pre d : string) (fuel : nat) :
  made_of encs pre -> strip_any encs d = None ->
  (String.length pre <= fuel)%nat ->
  strip_all encs fuel (pre +:+ d) = d.
Proof.
  intros (l & Hl & ->) Hd. revert fuel.
  induction Hl as [|e l He Hl IH]; intros fuel Hfuel.
  - change (joined [] +:+ d) with d. destruct fuel; [done|].
    cbn [strip_all]. by rewrite Hd.
  - change (joined (e :: l)) with (e +:+ joined l) in *.
    rewrite append_length in Hfuel.
    assert (He' : e ≠ "").
    { rewrite Forall_forall in encs_nonempty. by apply encs_nonempty. }
    destruct e as [|c e]; [done|]. simpl in Hfuel.
    destruct fuel as [|fuel]; [lia|].
    rewrite append_assoc. cbn [strip_all].
    rewrite encs_prefix_free by done. apply IH. lia.
Qed.

Lemma made_of_strip_all (s : string) :
  made_of encs s <-> strip_all encs (String.length s) s = "".
Proof.
  split.
  - intros Hs. rewrite <- (append_nil_r s) at 2.
    apply strip_all_padded; [done| |done].
    by apply strip_any_empty.
  - intros Hs. destruct (strip_all_made_of encs (String.length s) s) as (pre & Hpre & Heq).
    rewrite Hs, append_nil_r in Heq. by subst.
Qed.

End Strip.

Lemma white_space_nonempty : Forall (fun enc => enc ≠ "") white_space.
Proof. unfold white_space. simpl. repeat constructor; discriminate. Qed.

Lemma white_space_prefix_free (enc r : string) :
  enc ∈ white_space -> strip_any white_space (enc +:+ r) = Some r.
Proof.
  unfold white_space at 1. simpl. intros Hin.
  repeat (apply elem_of_cons in Hin as [->|Hin]; [reflexivity|]).
  by apply elem_of_nil in Hin.
Qed.

Lemma white_space_rev_nonempty : Forall (fun enc => enc ≠ "") (string_rev <$> white_space).
Proof. unfold white_space. simpl. repeat constructor; discriminate. Qed.

Lemma white_space_rev_prefix_free (enc r : string) :
  enc ∈ string_rev <$> white_space ->
  strip_any (string_rev <$> white_space) (enc +:+ r) = Some r.
Proof.
  unfold white_space at 1. simpl. intros Hin.
  repeat (apply elem_of_cons in Hin as [->|Hin]; [reflexivity|]).
  by apply elem_of_nil in Hin.
Qed.

Lemma digit_starts_no_space (c : ascii) (r : string) :
  is_digit c = true ->
  strip_any white_space (String c r) = None /\
  strip_any (string_rev <$> white_space) (String c r) = None.
Proof.
  destruct c as [[] [] [] [] [] [] [] []]; intros Hd; vm_compute in Hd;
    try discriminate; by split.
Qed.

Lemma all_space_made_of (s : string) :
  all_space s = true <-> made_of white_space s.
Proof.
  unfold all_space, trim_start. rewrite bool_decide_eq_true. symmetry.
  apply made_of_strip_all;
    [apply white_space_nonempty|apply white_space_prefix_free].
Qed.

Lemma trim_decomp (s : string) :
  exists pre post,
    all_space pre = true /\ all_space post = true /\ s = pre +:+ trim s +:+ post.
Proof.
  destruct (strip_all_made_of white_space (String.length s) s) as (pre & Hpre & Hs).
  fold (trim_start s) in Hs.
  destruct (strip_all_made_of (string_rev <$> white_space)
              (String.length (trim_start s)) (string_rev (trim_start s)))
    as (q & Hq & Ht).
  exists pre, (string_rev q).
  split; [by apply all_space_made_of|]. split.
  - apply all_space_made_of. apply made_of_rev in Hq. by rewrite rev_rev_fmap in Hq.
  - rewrite Hs at 1. f_equal. unfold trim, trim_end.
    rewrite <- string_rev_app, <- Ht. by rewrite string_rev_involutive.
Qed.

Lemma trim_padded_digits (pre d post : string) :
  all_space pre = true -> all_space post = true -> fifteen_digits d = true ->
  trim (pre +:+ d +:+ post) = d.
Proof.
  intros Hpre%all_space_made_of Hpost%all_space_made_of Hd.
  unfold fifteen_digits in Hd. apply andb_prop in Hd as [Hl Hd].
  assert (Hstart : trim_start (pre +:+ d +:+ post) = d +:+ post).
  { unfold trim_start.
    apply (strip_all_padded white_space white_space_nonempty white_space_prefix_free);
      [done| |rewrite append_length; lia].
    destruct d as [|c d]; [done|]. simpl in Hd. apply andb_prop in Hd as [Hc _].
    rewrite append_cons. by destruct (digit_starts_no_space c (d +:+ post) Hc). }
  unfold trim. rewrite Hstart. unfold trim_end.
  rewrite string_rev_app.
  rewrite (strip_all_padded (string_rev <$> white_space) white_space_rev_nonempty
             white_space_rev_prefix_free).
  - apply string_rev_involutive.
  - by apply made_of_rev.
  - pose proof (all_digits_rev d) as Hrev. rewrite Hd in Hrev.
    pose proof (string_rev_length d) as Hlen.
    destruct (string_rev d) as [|c r] eqn:Hr.
    + destruct d; [done|]. simpl in Hlen. lia.
    + simpl in Hrev. apply andb_prop in Hrev as [Hc _].
      by destruct (digit_starts_no_space c r Hc).
  - rewrite string_rev_length, append_length. lia.
Qed.

(** [resolveTargets] answers every input, in order. It resolves an input
    exactly when the input is fifteen digits with nothing but white space
    before and after them; the identifier it then gives is those fifteen
    digits, for which the default session key parses back, so a resolved
    target names a device reference the rest of the plugin accepts. An
    input it does not resolve gets no identifier and the note about the
    fifteen digits. *)
Theorem resolveTargets_accepts (inputs : list string) (n : nat) (input : string) :
  inputs !! n = Some input ->
  length (resolveTargets inputs) = length inputs /\
  exists r,
    resolveTargets inputs !! n = Some r /\
    rt_input r = input /\
    (rt_resolved r = true <->
     exists pre d post,
       input = pre +:+ d +:+ post /\
       all_space pre = true /\ all_space post = true /\ is_imei d = true) /\
    (forall pre d post,
       input = pre +:+ d +:+ post ->
       all_space pre = true -> all_space post = true -> is_imei d = true ->
       rt_id r = Some d /\ rt_note r = None /\
       parseImeiFromSessionKey (getSessionKey DEFAULT_SESSION_PREFIX d) = Some d) /\
    (rt_resolved r = false ->
     rt_id r = None /\ rt_note r = Some "IMEI must be 15 digits").
Proof.
  intros Hn. unfold resolveTargets. split; [by rewrite length_fmap|].
  eexists. split; [by rewrite list_lookup_fmap, Hn|]. simpl.
  split; [done|]. split; [split|split].
  - intros Hv. destruct (trim_decomp input) as (pre & post & Hpre & Hpost & Hs).
    by exists pre, (trim input), post.
  - intros (pre & d & post & -> & Hpre & Hpost & Hd).
    by rewrite trim_padded_digits.
  - intros pre d post -> Hpre Hpost Hd.
    rewrite trim_padded_digits by done. rewrite Hd.
    split; [done|]. split; [done|]. by destruct (parse_default_key d Hd).
  - by intros ->.
Qed.

Lemma resolveTargets_accepts_witness :
  ["86000003545245"; "  860000035452456 "] !! 1%nat = Some "  860000035452456 " /\
  length (resolveTargets ["86000003545245"; "  860000035452456 "])
  = length ["86000003545245"; "  860000035452456 "] /\
  exists r,
    resolveTargets ["86000003545245"; "  860000035452456 "] !! 1%nat = Some r /\
    rt_input r = "  860000035452456 " /\
    (rt_resolved r = true <->
     exists pre d post,
       "  860000035452456 " = pre +:+ d +:+ post /\
       all_space pre = true /\ all_space post = true /\ is_imei d = true) /\
    (forall pre d post,
       "  860000035452456 " = pre +:+ d +:+ post ->
       all_space pre = true -> all_space post = true -> is_imei d = true ->
       rt_id r = Some d /\ rt_note r = None /\
       parseImeiFromSessionKey (getSessionKey DEFAULT_SESSION_PREFIX d) = Some d) /\
    (rt_resolved r = false ->
     rt_id r = None /\ rt_note r = Some "IMEI must be 15 digits").
Proof.
  assert (Hn : ["86000003545245"; "  860000035452456 "] !! 1%nat
               = Some "  860000035452456 ") by reflexivity.
  split; [exact Hn|].
  exact (resolveTargets_accepts ["86000003545245"; "  860000035452456 "] 1
           "  860000035452456 " Hn).
Defined.

(** White space outside ASCII is removed as well: an em space (U+2003)
    after the digits, a byte order mark (U+FEFF) or a no-break space
    (U+00A0) before them. *)
Example resolveTargets_beyond_ascii :
  rt_id <$> resolveTargets ["860000035452456" +:+ bytes [226; 128; 131]%N;
                            bytes [239; 187; 191]%N +:+ "860000035452456";
                            bytes [194; 160]%N +:+ "860000035452456";
                            "860000035452456" +:+ "x"]
  = [Some "860000035452456"; Some "860000035452456"; Some "860000035452456"; None].
Proof. evaluate. Qed.

Example resolveTargets_sample :
  resolveTargets ["86000003545245"; "  860000035452456 "]
  = [{| rt_input := "86000003545245"; rt_resolved := false; rt_id := None;
        rt_note := Some "IMEI must be 15 digits" |};
     {| rt_input := "  860000035452456 "; rt_resolved := true;
        rt_id := Some "860000035452456"; rt_note := None |}].
Proof. evaluate. Qed.

(** ** The status tool *)

(** [clawatch_status] says [Connected: yes] exactly when the current
    connector has an open socket, which is when [sendPush] does not throw
    for being disconnected; on a runtime that has just been disconnected
    it says [Connected: no] and [Paired: none], whatever the runtime was
    before, and it lists every roster entry otherwise. *)
Theorem clawatch_status_tracks_session `{Platform} (rt : World) :
  let nl := String (ascii_of_nat 10) "" in
  clawatch_status (Some rt)
  = "Connected: " +:+ (if bool_decide (is_Some (open_socket rt)) then "yes" else "no")
    +:+ nl +:+ "Paired: " +:+
    match pairedWatches rt with
    | [] => "none"
    | _ => String.concat ", "
             ((fun w => wi_imei w +:+
                        match truthy_string (wi_label w) with
                        | Some l => " (" +:+ l +:+ ")"
                        | None => ""
                        end) <$> pairedWatches rt)
    end /\
  (forall now rnd imei text,
     is_Some (open_socket rt) <->
     sendPush now rnd imei text rt
     ≠ (Threw (JsError "Clawatch not connected" None), rt)) /\
  clawatch_status (Some (disconnect rt).2) = "Connected: no" +:+ nl +:+ "Paired: none".
Proof.
  intros nl. split; [|split].
  - unfold clawatch_status, formatStatus, getPairedWatches.
    destruct (isConnected rt) eqn:Hc.
    + apply isConnected_open_socket in Hc. by rewrite bool_decide_eq_true_2.
    + apply isConnected_false_open_socket in Hc. rewrite Hc.
      rewrite bool_decide_eq_false_2; [done|]. by intros [? ?].
  - intros now rnd imei text.
    destruct (sendPush_cases rt now rnd imei text)
      as [[Hd Hs]|[(Hd & Hn & Hs)|(c & k & Hck & Hin & Hs)]]; rewrite Hs.
    + apply isConnected_false_open_socket in Hd. rewrite Hd.
      split; [by intros [? ?]|done].
    + apply isConnected_open_socket in Hd. split; [|done].
      intros _ [= Heq].
    + rewrite Hck. split; [done|by eexists].
  - destruct (disconnect_spec rt) as (_ & _ & _ & Hr & _ & Hc).
    unfold clawatch_status, formatStatus, getPairedWatches. by rewrite Hr, Hc.
Qed.

(* ===================================================================== *)
(** * Reading the gateway's answer *)
(* ===================================================================== *)

Lemma split_newline_nonempty (s : string) : split_newline s ≠ [].
Proof.
  destruct s as [|c s]; [done|]. simpl.
  destruct (Nat.eqb _ _); [done|]. by destruct (split_newline s).
Qed.

Lemma removelast_cons_cons {A} (x y : A) (l : list A) :
  removelast (x :: y :: l) = x :: removelast (y :: l).
Proof. reflexivity. Qed.

Lemma split_newline_app (a b : string) :
  split_newline (a +:+ b)
  = removelast (split_newline a)
    ++ split_newline (default "" (last (split_newline a)) +:+ b).
Proof.
  induction a as [|c a IH]; [done|].
  rewrite append_cons. simpl.
  pose proof (split_newline_nonempty a) as Hne.
  destruct (Nat.eqb (nat_of_ascii c) 10) eqn:Hc.
  - destruct (split_newline a) as [|l ls] eqn:Ha; [done|].
    rewrite removelast_cons_cons. rewrite IH. by rewrite last_cons_cons.
  - rewrite IH. destruct (split_newline a) as [|l ls] eqn:Ha; [done|].
    destruct ls as [|l2 ls].
    + simpl. rewrite Hc. pose proof (split_newline_nonempty (l +:+ b)) as Hlb.
      by destruct (split_newline (l +:+ b)).
    + rewrite !removelast_cons_cons. by rewrite !last_cons_cons.
Qed.

Lemma sse_state `{GatewayHost} (chunks : list string) :
  foldl sse_chunk ("", "") chunks
  = (foldl sse_line "" (removelast (split_newline (joined chunks))),
     default "" (last (split_newline (joined chunks)))).
Proof.
  induction chunks as [|chunk chunks IH] using rev_ind; [done|].
  rewrite foldl_app, IH. simpl. unfold sse_chunk. cbn [fst snd].
  rewrite joined_app. simpl. rewrite append_nil_r.
  rewrite (split_newline_app (joined chunks) chunk).
  pose proof (split_newline_nonempty
                (default "" (last (split_newline (joined chunks))) +:+ chunk)) as Hne.
  rewrite removelast_app by done. rewrite foldl_app.
  f_equal. rewrite last_app. 
  destruct (last (split_newline (default "" (last (split_newline (joined chunks)))
                                 +:+ chunk))) eqn:Hl; [done|].
  by apply last_None in Hl.
Qed.

Lemma split_newline_single_app (a b : string) :
  split_newline a = [a] -> split_newline b = [b] ->
  split_newline (a +:+ b) = [a +:+ b].
Proof.
  intros Ha Hb. induction a as [|c a IH]; [done|].
  rewrite append_cons. simpl in Ha |- *.
  destruct (Nat.eqb (nat_of_ascii c) 10); [done|].
  destruct (split_newline a) as [|l ls] eqn:Hs; [|injection Ha as -> ->].
  - by destruct (split_newline_nonempty a).
  - by rewrite IH.
Qed.

Lemma split_newline_last_single (s : string) :
  split_newline (default "" (last (split_newline s)))
  = [default "" (last (split_newline s))].
Proof.
  induction s as [|c s IH]; [done|]. simpl.
  pose proof (split_newline_nonempty s) as Hne.
  destruct (Nat.eqb (nat_of_ascii c) 10) eqn:Hc.
  - destruct (split_newline s) as [|l ls]; [done|]. by rewrite last_cons_cons.
  - destruct (split_newline s) as [|l ls]; [done|].
    destruct ls as [|l2 ls].
    + simpl in *. rewrite Hc. by rewrite IH.
    + by rewrite last_cons_cons.
Qed.

Lemma split_newline_line_feed (s : string) :
  split_newline (s +:+ String (ascii_of_nat 10) "") = split_newline s ++ [""].
Proof.
  induction s as [|c s IH]; [done|].
  rewrite append_cons. simpl. rewrite IH.
  destruct (Nat.eqb (nat_of_ascii c) 10); [done|].
  pose proof (split_newline_nonempty s). by destruct (split_newline s).
Qed.

(** The content [chatCompletion] assembles from a stream depends only on
    the text of the stream, not on how the text is cut into chunks: it is
    what the lines that end in a line feed contribute, in order. Whatever
    follows the last line feed is never looked at, so a stream that does
    not end in a line feed loses its last line, and a closing chunk without
    a line feed changes nothing. *)
Theorem read_stream_chunking `{GatewayHost} (chunks : list string) :
  read_stream chunks
  = foldl sse_line "" (removelast (split_newline (joined chunks))) /\
  (forall chunks', joined chunks' = joined chunks ->
                   read_stream chunks' = read_stream chunks) /\
  (forall rest, split_newline rest = [rest] ->
                read_stream (chunks ++ [rest]) = read_stream chunks) /\
  (forall line, split_newline line = [line] ->
     read_stream (chunks ++ [line +:+ String (ascii_of_nat 10) ""])
     = sse_line (read_stream chunks)
         (default "" (last (split_newline (joined chunks))) +:+ line)).
Proof.
  assert (Hmain : forall cs, read_stream cs
                  = foldl sse_line "" (removelast (split_newline (joined cs)))).
  { intros cs. unfold read_stream. by rewrite sse_state. }
  split; [apply Hmain|]. split; [|split].
  - intros chunks' Hj. by rewrite !Hmain, Hj.
  - intros rest Hrest. rewrite !Hmain, joined_app. simpl. rewrite append_nil_r.
    rewrite split_newline_app.
    rewrite (split_newline_single_app _ rest (split_newline_last_single _) Hrest).
    by rewrite removelast_last.
  - intros line Hline. rewrite !Hmain, joined_app. simpl. rewrite append_nil_r.
    rewrite split_newline_app. rewrite <- append_assoc.
    set (full := default "" (last (split_newline (joined chunks))) +:+ line).
    assert (Hfull : split_newline full = [full]).
    { apply split_newline_single_app; [apply split_newline_last_single|done]. }
    rewrite split_newline_line_feed, Hfull.
    change [full; ""] with ([full] ++ [""]).
    rewrite app_assoc, removelast_last. by rewrite foldl_app.
Qed.

Example read_stream_sample :
  let nl := String (ascii_of_nat 10) "" in
  @read_stream sample_gateway
    ["data: Hel" +:+ nl +:+ "da"; "ta: lo" +:+ nl +:+ nl +:+ "data: [DONE]" +:+ nl;
     "data: {" +:+ nl +:+ "data: !" +:+ nl +:+ "data: lost"]
  = "Hello!".
Proof. vm_compute. reflexivity. Qed.

(** ** Which path of the gateway answers *)

Lemma strip_prefix_is_Some_app (lit a b : string) :
  is_Some (strip_prefix lit a) -> is_Some (strip_prefix lit (a +:+ b)).
Proof.
  revert a. induction lit as [|x lit IH]; intros a; [by eexists|].
  destruct a as [|y a]; simpl; [by intros [? ?]|].
  case_decide; [apply IH|done].
Qed.

Lemma includes_append_l (needle a b : string) :
  includes needle a = true -> includes needle (a +:+ b) = true.
Proof.
  induction a as [|y a IH]; simpl.
  - rewrite orb_false_r. intros Hn%bool_decide_eq_true.
    destruct needle; [|by destruct Hn].
    destruct b; simpl; rewrite ?bool_decide_eq_true_2 by (by eexists); done.
  - intros [Hn%bool_decide_eq_true|Ha]%orb_prop.
    + rewrite bool_decide_eq_true_2; [done|].
      by apply (strip_prefix_is_Some_app needle (String y a) b).
    + rewrite (IH Ha). apply orb_true_r.
Qed.

Lemma includes_append_r (needle a b : string) :
  includes needle b = true -> includes needle (a +:+ b) = true.
Proof.
  intros Hb. induction a as [|y a IH]; [done|].
  simpl. rewrite IH. apply orb_true_r.
Qed.

Lemma try_urls_two `{GatewayHost} (fetch : string -> Result Response) (u1 u2 : string) :
  try_urls fetch [u1; u2] None
  = match try_url u1 (fetch u1) with
    | Replied content => Returned content
    | Failed err => Threw err
    | NextUrl _ =>
        match try_url u2 (fetch u2) with
        | Replied content => Returned content
        | Failed err | NextUrl err => Threw err
        end
    end.
Proof.
  simpl. destruct (try_url u1 (fetch u1)); [done|done|].
  by destruct (try_url u2 (fetch u2)).
Qed.

(** [chatCompletion] asks the path [/api/v1/chat/completions] first. What
    that attempt gives is final when it is a reply or an error whose
    message does not contain [405]; the second path, [/v1/chat/completions],
    is asked only after a 405 status or an error whose message contains
    [405], and its outcome is then final. An error status other than 405
    still moves on to the second path when the URL or the response text
    happens to contain [405], since both are part of the error's message.
    The closing error about all paths returning 405 is never thrown:
    whatever [chatCompletion] throws was thrown by one of the two
    attempts. *)
Theorem chatCompletion_fallback `{GatewayHost} (baseUrl : string)
    (fetch : string -> Result Response) :
  let u1 := strip_trailing_slash baseUrl +:+ "/api/v1/chat/completions" in
  let u2 := strip_trailing_slash baseUrl +:+ "/v1/chat/completions" in
  (forall content, try_url u1 (fetch u1) = Replied content ->
                   chatCompletion baseUrl fetch = Returned content) /\
  (forall err, try_url u1 (fetch u1) = Failed err ->
               chatCompletion baseUrl fetch = Threw err) /\
  (forall err, try_url u1 (fetch u1) = NextUrl err ->
               chatCompletion baseUrl fetch
               = match try_url u2 (fetch u2) with
                 | Replied content => Returned content
                 | Failed err' | NextUrl err' => Threw err'
                 end) /\
  (forall url res text,
     res_ok res = false -> res_text res = Returned text ->
     (res_status res = 405 \/ includes "405" url = true \/ includes "405" text = true ->
      try_url url (Returned res) = NextUrl (gateway_error (res_status res) url text)) /\
     (try_url url (Returned res) = NextUrl (gateway_error (res_status res) url text) \/
      try_url url (Returned res) = Failed (gateway_error (res_status res) url text))) /\
  (forall err, chatCompletion baseUrl fetch = Threw err ->
     exists url, url ∈ [u1; u2] /\
                 (try_url url (fetch url) = Failed err \/
                  try_url url (fetch url) = NextUrl err)).
Proof.
  intros u1 u2. unfold chatCompletion, gateway_urls. fold u1 u2.
  rewrite try_urls_two.
  split; [by intros content ->|]. split; [by intros err ->|].
  split; [by intros err ->|]. split.
  - intros url res text Hok Htext. unfold try_url. rewrite Hok, Htext.
    destruct (res_status res =? 405) eqn:Hst.
    + split; [done|by left].
    + unfold caught, gateway_error. split.
      * intros [Hs|[Hu|Ht]].
        -- apply Z.eqb_neq in Hst. done.
        -- rewrite includes_append_r; [done|].
           rewrite includes_append_r; [done|].
           rewrite includes_append_r; [done|].
           by apply includes_append_l.
        -- rewrite includes_append_r; [done|].
           rewrite includes_append_r; [done|].
           rewrite includes_append_r; [done|].
           rewrite includes_append_r; [done|].
           by apply includes_append_r.
      * destruct (includes "405" _); [by left|by right].
  - intros err.
    destruct (try_url u1 (fetch u1)) as [c1|e1|e1] eqn:H1.
    + done.
    + intros [= <-]. exists u1. split; [left|]. by left.
    + destruct (try_url u2 (fetch u2)) as [c2|e2|e2] eqn:H2.
      * done.
      * intros [= <-]. exists u2. split; [right; left|]. by left.
      * intros [= <-]. exists u2. split; [right; left|]. by right.
Qed.

Example chatCompletion_port_with_405 :
  @try_url sample_gateway "http://127.0.0.1:14050/api/v1/chat/completions"
    (Returned {| res_ok := false; res_status := 500; res_body := None;
                 res_text := Returned "Internal Server Error" |})
  = NextUrl (JsError
               "Gateway error 500 for http://127.0.0.1:14050/api/v1/chat/completions: Internal Server Error"
               None) /\
  @try_url sample_gateway "http://127.0.0.1:18789/api/v1/chat/completions"
    (Returned {| res_ok := false; res_status := 500; res_body := None;
                 res_text := Returned "Internal Server Error" |})
  = Failed (JsError
              "Gateway error 500 for http://127.0.0.1:18789/api/v1/chat/completions: Internal Server Error"
              None).
Proof. evaluate. Qed.

(** ** From the gateway's answer to the device *)

Lemma read_stream_nil `{GatewayHost} : read_stream [] = "".
Proof. reflexivity. Qed.

(** What [chatCompletion] settles with decides the one frame the device
    gets for its message, when the current connector has an open socket:
    the content as a Reply frame with the message's identifier, even when
    the content is empty, as it is for a stream without chunks; or what was
    thrown, as an Error frame with the code [agent_error], which after a
    405 on both paths carries the gateway error of the second path. With no
    open socket nothing is sent. *)
Theorem gateway_outcome_reaches_device `{Platform} `{GatewayHost} (w : World) (n : nat)
    (hc : HandlerCall) (baseUrl : string) (fetch : string -> Result Response) :
  handlerCalls w !! n = Some hc ->
  let u1 := strip_trailing_slash baseUrl +:+ "/api/v1/chat/completions" in
  let u2 := strip_trailing_slash baseUrl +:+ "/v1/chat/completions" in
  let w' := reply_settled n (chatCompletion baseUrl fetch) w in
  (open_socket w = None -> wire w' = wire w) /\
  (forall c k, open_socket w = Some (c, k) ->
     (forall content, chatCompletion baseUrl fetch = Returned content ->
        wire w' = wire w ++ [(c, k, ReplyFrame (hc_msgId hc) content true)]) /\
     (forall err, chatCompletion baseUrl fetch = Threw err ->
        wire w' = wire w ++ [(c, k, ErrorFrame (Some "agent_error") (errMsg_of err)
                                      (Some (hc_msgId hc)))]) /\
     (forall res, fetch u1 = Returned res -> res_ok res = true ->
                  res_body res = Some ([], None) ->
        wire w' = wire w ++ [(c, k, ReplyFrame (hc_msgId hc) "" true)]) /\
     (forall res1 res2 text1 text2,
        fetch u1 = Returned res1 -> fetch u2 = Returned res2 ->
        res_ok res1 = false -> res_ok res2 = false ->
        res_status res1 = 405 -> res_status res2 = 405 ->
        res_text res1 = Returned text1 -> res_text res2 = Returned text2 ->
        wire w' = wire w ++ [(c, k, ErrorFrame (Some "agent_error")
                                      ("Gateway error 405 for " +:+ u2 +:+ ": " +:+ text2)
                                      (Some (hc_msgId hc)))])).
Proof.
  intros Hn u1 u2 w'.
  assert (Hret : forall content, chatCompletion baseUrl fetch = Returned content ->
            wire w' = match open_socket w with
                      | Some (c, k) => wire w ++ [(c, k, ReplyFrame (hc_msgId hc) content true)]
                      | None => wire w
                      end).
  { intros content Hr. unfold w', reply_settled. rewrite Hr. simpl. rewrite Hn.
    apply handler_then_wire. }
  assert (Hthr : forall err, chatCompletion baseUrl fetch = Threw err ->
            wire w' = match open_socket w with
                      | Some (c, k) =>
                          wire w ++ [(c, k, ErrorFrame (Some "agent_error") (errMsg_of err)
                                              (Some (hc_msgId hc)))]
                      | None => wire w
                      end).
  { intros err Hr. unfold w', reply_settled. rewrite Hr. simpl. rewrite Hn.
    apply handler_catch_wire. }
  split.
  - intros Hw. destruct (chatCompletion baseUrl fetch) as [content|err] eqn:Hr.
    + by rewrite (Hret content eq_refl), Hw.
    + by rewrite (Hthr err eq_refl), Hw.
  - intros c k Hck. split; [|split; [|split]].
    + intros content Hr. by rewrite (Hret content Hr), Hck.
    + intros err Hr. by rewrite (Hthr err Hr), Hck.
    + intros res H1 Hok Hbody.
      assert (Hr : chatCompletion baseUrl fetch = Returned "").
      { unfold chatCompletion, gateway_urls. fold u1 u2. rewrite try_urls_two.
        unfold try_url at 1. by rewrite H1, Hok, Hbody. }
      by rewrite (Hret "" Hr), Hck.
    + intros res1 res2 text1 text2 H1 H2 Hok1 Hok2 Hs1 Hs2 Ht1 Ht2.
      assert (Hr : chatCompletion baseUrl fetch = Threw (gateway_error 405 u2 text2)).
      { unfold chatCompletion, gateway_urls. fold u1 u2. rewrite try_urls_two.
        unfold try_url. by rewrite H1, H2, Hok1, Hok2, Hs1, Hs2, Ht1, Ht2. }
      by rewrite (Hthr _ Hr), Hck.
Qed.

Lemma gateway_outcome_reaches_device_witness :
  handlerCalls sample_received !! 0%nat
  = Some {| hc_msgId := "m1"; hc_imei := sample_imei; hc_text := "hello";
            hc_sessionKey := "clawatch:860000035452456"; hc_context := None |} /\
  forall c k, open_socket sample_received = Some (c, k) ->
    forall content,
      @chatCompletion sample_gateway "http://127.0.0.1:18789/" sample_fetch
      = Returned content ->
      wire (@reply_settled sample_platform 0
              (@chatCompletion sample_gateway "http://127.0.0.1:18789/" sample_fetch)
              sample_received)
      = wire sample_received ++ [(c, k, ReplyFrame "m1" content true)].
Proof.
  assert (Hn : handlerCalls sample_received !! 0%nat
               = Some {| hc_msgId := "m1"; hc_imei := sample_imei; hc_text := "hello";
                         hc_sessionKey := "clawatch:860000035452456";
                         hc_context := None |}) by (vm_compute; reflexivity).
  split; [exact Hn|].
  intros c k Hck.
  destruct (@gateway_outcome_reaches_device sample_platform sample_gateway
              sample_received 0%nat _ "http://127.0.0.1:18789/" sample_fetch Hn)
    as (_ & Hsend).
  destruct (Hsend c k Hck) as (Hreply & _).
  exact Hreply.
Defined.

Example gateway_sample_reply :
  @chatCompletion sample_gateway "http://127.0.0.1:18789/" sample_fetch = Returned "Hello" /\
  @gateway_urls "http://127.0.0.1:18789/"
  = ["http://127.0.0.1:18789/api/v1/chat/completions";
     "http://127.0.0.1:18789/v1/chat/completions"].
Proof. evaluate. Qed.

(** ** The guidance for the interim tool *)

(** The hook on [before_agent_start] injects the guidance to call
    [clawatch_interim] unless the plugin configuration says
    [interimStatusEnabled: false], with the boolean; it logs only when a
    runtime exists. The tool itself never looks at that setting. *)
Theorem interim_guidance_switch (env : string -> option string) (raw : JsValue)
    (rt : option World) :
  ((before_agent_start env raw rt).1 = None <->
   exists get, raw = JsObject get /\ get "interimStatusEnabled" = JsBoolean false) /\
  (rt = None -> (before_agent_start env raw rt).2 = []) /\
  (before_agent_start env raw rt).1 = (before_agent_start env raw None).1.
Proof.
  destruct (resolveConfig_resolves env raw) as (cfg & Hcfg & _).
  assert (Hi : interimStatusEnabled cfg = Some false <->
               exists get, raw = JsObject get /\
                           get "interimStatusEnabled" = JsBoolean false).
  { revert Hcfg. unfold resolveConfig. case_bool_decide; [done|].
    intros [= <-]. simpl. split.
    - intros [= He]. destruct raw; simpl in He; try done.
      exists get. split; [done|].
      destruct (get "interimStatusEnabled") as [| |[]| | | |]; simpl in He; congruence.
    - intros (get & -> & Hget). by rewrite Hget. }
  unfold before_agent_start. rewrite Hcfg. simpl.
  split; [|split].
  - case_bool_decide as Hd; simpl.
    + split; [by intros _; apply Hi|done].
    + split; [done|]. intros Hex. by apply Hi in Hex.
  - intros ->. by case_bool_decide.
  - by case_bool_decide.
Qed.
